(** * pyairpar: Bezier airfoil parametrisation

    A shallow embedding of [pyairpar/core/base_airfoil_params.py] and
    [pyairpar/core/airfoil.py].  Python objects become records, [dict]s
    become [gmap string _], raised exceptions become the left summand of
    [res], and mutation of [self] becomes state passing.  Floating-point
    arithmetic is a parameter ([PyFloat]): every definition and all
    structural theorems are stated over an arbitrary carrier, and concrete
    evaluations use either IEEE binary64 ([float64]) or the real numbers
    ([Rideal]). *)

From Stdlib Require Import ZArith List String Reals Lra Lia.
From Stdlib Require Import Floats.PrimFloat.
From stdpp Require Import gmap strings list fin_maps.

Local Open Scope string_scope.
Local Open Scope list_scope.

(** ** Arithmetic of Python floats and of the numpy functions the code calls *)

Class PyFloat (F : Type) := {
  f0 : F;                       (* 0.0 *)
  f1 : F;                       (* 1.0 *)
  fadd : F -> F -> F;
  fsub : F -> F -> F;
  fmul : F -> F -> F;
  fdiv : F -> F -> F;
  fneg : F -> F;
  fle : F -> F -> bool;         (* x <= y *)
  flt : F -> F -> bool;         (* x < y *)
  is_inf : F -> bool;           (* x == np.inf *)
  of_Z : Z -> F;                (* int used where a float is expected *)
  np_pi : F;
  np_cos : F -> F;
  np_sin : F -> F;
  np_tan : F -> F;
  pow_3_2 : F -> F              (* x ** (3 / 2) *)
}.

Declare Scope F_scope.
Delimit Scope F_scope with fl.
Infix "+" := fadd : F_scope.
Infix "-" := fsub : F_scope.
Infix "*" := fmul : F_scope.
Infix "/" := fdiv : F_scope.
Notation "- x" := (fneg x) : F_scope.
Infix "<=?" := fle : F_scope.
Infix "<?" := flt : F_scope.

(** [x ** i] for a Python int [i >= 0]: [x ** 0] is [1.0], also at [x = 0]. *)
Fixpoint powi {F} `{PyFloat F} (x : F) (i : nat) : F :=
  match i with
  | O => f1
  | S k => (x * powi x k)%fl
  end.

(** *** IEEE binary64, the arithmetic of CPython and numpy.

    Sums, products, quotients, square roots and comparisons are the kernel's
    correctly rounded primitives.  The kernel has no elementary functions:
    cosine and sine are evaluated by their Maclaurin polynomials (exact at 0,
    a few units in the last place of libm for arguments within [-pi, pi]),
    the tangent as their quotient and [x ** 1.5] as [x * sqrt x]. *)

Definition float_of_pos (p : positive) : float :=
  Pos.iter_op PrimFloat.add p 1%float.

Definition float_of_Z (z : Z) : float :=
  match z with
  | Z0 => 0%float
  | Zpos p => float_of_pos p
  | Zneg p => PrimFloat.opp (float_of_pos p)
  end.

(** [maclaurin x2 k n acc]: Horner evaluation of
    [1 - x2/(k(k+1)) (1 - x2/((k+2)(k+3)) (...))] from the innermost factor. *)
Fixpoint maclaurin (x2 : float) (k : Z) (n : nat) (acc : float) : float :=
  match n with
  | O => acc
  | S m =>
      maclaurin x2 (k - 2) m
        (PrimFloat.sub 1%float
           (PrimFloat.mul (PrimFloat.div x2 (float_of_Z (k * (k + 1)))) acc))
  end.

Definition float_cos (x : float) : float :=
  maclaurin (PrimFloat.mul x x) 27 14 1%float.

Definition float_sin (x : float) : float :=
  PrimFloat.mul x (maclaurin (PrimFloat.mul x x) 28 14 1%float).

#[export] Instance float64 : PyFloat float := {
  f0 := 0%float;
  f1 := 1%float;
  fadd := PrimFloat.add;
  fsub := PrimFloat.sub;
  fmul := PrimFloat.mul;
  fdiv := PrimFloat.div;
  fneg := PrimFloat.opp;
  fle := PrimFloat.leb;
  flt := PrimFloat.ltb;
  is_inf := fun x => PrimFloat.eqb x infinity;
  of_Z := float_of_Z;
  np_pi := 0x1.921fb54442d18p+1%float;
  np_cos := float_cos;
  np_sin := float_sin;
  np_tan := fun x => PrimFloat.div (float_sin x) (float_cos x);
  pow_3_2 := fun x => PrimFloat.mul x (PrimFloat.sqrt x)
}.

(** *** The real numbers: the arithmetic the floats approximate.  No real
    number equals [np.inf]. *)

Definition Rleb (x y : R) : bool := if Rle_dec x y then true else false.
Definition Rltb (x y : R) : bool := if Rlt_dec x y then true else false.

#[export] Instance Rideal : PyFloat R := {
  f0 := 0%R;
  f1 := 1%R;
  fadd := Rplus;
  fsub := Rminus;
  fmul := Rmult;
  fdiv := Rdiv;
  fneg := Ropp;
  fle := Rleb;
  flt := Rltb;
  is_inf := fun _ => false;
  of_Z := IZR;
  np_pi := PI;
  np_cos := cos;
  np_sin := sin;
  np_tan := tan;
  pow_3_2 := fun x => (R_sqrt.sqrt x * R_sqrt.sqrt x * R_sqrt.sqrt x)%R
}.

(** ** Exceptions *)

Inductive error (F : Type) : Type :=
| ValueError (msg : string) (entered : F)   (* f-string with one float hole *)
| ValueErrorNotInList (x : string)          (* list.index(x) *)
| Exception (msg : string)
| KeyError (key : string)
| IndexError.
Arguments ValueError {F} msg entered.
Arguments ValueErrorNotInList {F} x.
Arguments Exception {F} msg.
Arguments KeyError {F} key.
Arguments IndexError {F}.

Definition res (F A : Type) : Type := (error F + A)%type.

Definition ret {F A} (a : A) : res F A := inr a.
Definition raise {F A} (e : error F) : res F A := inl e.
Definition bind {F A B} (m : res F A) (k : A -> res F B) : res F B :=
  match m with
  | inl e => inl e
  | inr a => k a
  end.

(** A function applied to the object a computation returns. *)
Definition res_map {F A B} (f : A -> B) (m : res F A) : res F B :=
  match m with
  | inl e => inl e
  | inr a => inr (f a)
  end.

Notation "'let*' x ':=' m 'in' k" := (bind m (fun x => k))
  (at level 10, x pattern, m at level 100, k at level 200).

(** A dict read [d[k]]. *)
Definition getitem {F A} (d : gmap string A) (k : string) : res F A :=
  match d !! k with
  | Some a => ret a
  | None => raise (KeyError k)
  end.

(** ** [pyairpar.core.param.Param] *)

Inductive Units := NoUnits | Length | InverseLength.

(** Modelled from the spec: [pyairpar/core/param.py] is not among the
    sources; a [Param] is the record of section 3 of the specification,
    [{value, bounds, active, linked, units, scale_value}]. *)
Record Param (F : Type) := mkParam {
  value : F;
  bounds : F * F;
  active : bool;
  linked : bool;
  units : Units;
  scale_value : option F
}.
Arguments mkParam {F}.
Arguments value {F}.
Arguments bounds {F}.
Arguments active {F}.
Arguments linked {F}.
Arguments units {F}.
Arguments scale_value {F}.

(** [setattr(param, 'value', v)] *)
Definition set_value {F} (p : Param F) (v : F) : Param F :=
  mkParam v (bounds p) (active p) (linked p) (units p) (scale_value p).

(** [var.active and not var.linked] *)
Definition overrideable {F} (p : Param F) : bool := active p && negb (linked p).

(** [var.units == 'length'] *)
Definition is_length (u : Units) : bool :=
  match u with Length => true | _ => false end.

(** One turn of the loop body of [scale_vars]:
    [if param.scale_value is None: param.value = param.value * k],
    for a [param] already selected by [units == 'length']. *)
Definition scale_param {F} `{PyFloat F} (k : F) (p : Param F) : Param F :=
  if is_length (units p) then
    match scale_value p with
    | None => set_value p (value p * k)%fl
    | Some _ => p
    end
  else p.

(** The assignment loop of [override]: the overrideable parameters take the
    values of [parameters] in order, the others are skipped. *)
Fixpoint assign_values {F} (ps : list (Param F)) (parameters : list F) : list (Param F) :=
  match ps with
  | [] => []
  | p :: ps' =>
      if overrideable p then
        match parameters with
        | v :: vs => set_value p v :: assign_values ps' vs
        | [] => p :: assign_values ps' []
        end
      else p :: assign_values ps' parameters
  end.

(** [[var.value for var in ... if var.active and not var.linked]] *)
Definition flatten {F} (ps : list (Param F)) : list F :=
  map value (filter (fun p => overrideable p = true) ps).

(** [[[var.bounds[0], var.bounds[1]] for var in ... ]] *)
Definition flatten_bounds {F} (ps : list (Param F)) : list (F * F) :=
  map bounds (filter (fun p => overrideable p = true) ps).

(** A Python slice [l[a:b]] with [0 <= a], [0 <= b]. *)
Definition slice {A} (l : list A) (a b : nat) : list A :=
  take (b - a) (drop a l).

(** ** [pyairpar.core.base_airfoil_params.BaseAirfoilParams] *)

Record BaseAirfoilParams (F : Type) := mkBase {
  c : Param F;
  alf : Param F;
  R_le : Param F;
  L_le : Param F;
  r_le : Param F;
  phi_le : Param F;
  psi1_le : Param F;
  psi2_le : Param F;
  L1_te : Param F;
  L2_te : Param F;
  theta1_te : Param F;
  theta2_te : Param F;
  t_te : Param F;
  r_te : Param F;
  phi_te : Param F;
  dx : Param F;
  dy : Param F;
  non_dim_by_chord : bool;
  n_overrideable_parameters : nat
}.
Arguments mkBase {F}.
Arguments c {F}.
Arguments alf {F}.
Arguments R_le {F}.
Arguments L_le {F}.
Arguments r_le {F}.
Arguments phi_le {F}.
Arguments psi1_le {F}.
Arguments psi2_le {F}.
Arguments L1_te {F}.
Arguments L2_te {F}.
Arguments theta1_te {F}.
Arguments theta2_te {F}.
Arguments t_te {F}.
Arguments r_te {F}.
Arguments phi_te {F}.
Arguments dx {F}.
Arguments dy {F}.
Arguments non_dim_by_chord {F}.
Arguments n_overrideable_parameters {F}.

(** [[var for var in vars(self).values() if isinstance(var, Param)]]:
    the attributes in the order [__init__] assigns them. *)
Definition base_params {F} (b : BaseAirfoilParams F) : list (Param F) :=
  [c b; alf b; R_le b; L_le b; r_le b; phi_le b; psi1_le b; psi2_le b;
   L1_te b; L2_te b; theta1_te b; theta2_te b; t_te b; r_te b; phi_te b;
   dx b; dy b].

(** The object after its [Param] attributes were mutated to [ps]. *)
Definition with_base_params {F} (b : BaseAirfoilParams F) (ps : list (Param F))
  : BaseAirfoilParams F :=
  match ps with
  | [p0; p1; p2; p3; p4; p5; p6; p7; p8; p9; p10; p11; p12; p13; p14; p15; p16] =>
      mkBase p0 p1 p2 p3 p4 p5 p6 p7 p8 p9 p10 p11 p12 p13 p14 p15 p16
        (non_dim_by_chord b) (n_overrideable_parameters b)
  | _ => b
  end.

Section Base.
Context {F : Type} `{PyFloat F}.

(** [scale_vars]: the loop visits the parameters in attribute order and
    reads [self.c.value] at every turn; [c] is visited first, so the later
    turns see the chord the first turn left. *)
Definition scale_vars (self : BaseAirfoilParams F) : BaseAirfoilParams F :=
  if non_dim_by_chord self then
    let c' := scale_param (value (c self)) (c self) in
    with_base_params self
      (c' :: map (scale_param (value c')) (tail (base_params self)))
  else self.

(** The parameter list [scale_vars] leaves. *)
Definition scaled_params (b : BaseAirfoilParams F) : list (Param F) :=
  if non_dim_by_chord b then
    let c' := scale_param (value (c b)) (c b) in
    c' :: map (scale_param (value c')) (tail (base_params b))
  else base_params b.

Definition count_overrideable_variables (self : BaseAirfoilParams F) : nat :=
  length (filter (fun p => overrideable p = true) (base_params self)).

Definition base_mismatch : string :=
  "Number of base airfoil parameters does not match length of input override parameter list".

(** [BaseAirfoilParams.override] *)
Definition base_override (self : BaseAirfoilParams F) (parameters : list F)
  : res F (BaseAirfoilParams F) :=
  let override_param_obj_list :=
    filter (fun p => overrideable p = true) (base_params self) in
  if negb (length parameters =? length override_param_obj_list)%nat then
    raise (Exception base_mismatch)
  else
    ret (scale_vars
           (with_base_params self (assign_values (base_params self) parameters))).

Definition phi_le_msg : string :=
  "The leading edge tilt angle, phi_le, must be between -180 degrees and 180 degrees,inclusive. A value of {phi_le.value} was entered.".
Definition psi1_le_msg : string :=
  "The upper curvature control arm angle, psi1_le, must be between -90 degrees and 90 degrees, inclusive. A value of {psi1_le.value} was entered.".
Definition psi2_le_msg : string :=
  "The lower curvature control arm angle, psi2_le, must be between -90 degrees and 90 degrees, inclusive. A value of {psi2_le.value} was entered.".

(** [lo <= x <= hi] *)
Definition between (lo x hi : F) : bool := (lo <=? x)%fl && (x <=? hi)%fl.

(** [BaseAirfoilParams.__init__] *)
Definition BaseAirfoilParams_init
  (c alf R_le L_le r_le phi_le psi1_le psi2_le L1_te L2_te
   theta1_te theta2_te t_te r_te phi_te dx dy : Param F)
  (non_dim_by_chord : bool) : res F (BaseAirfoilParams F) :=
  if negb (between (- np_pi)%fl (value phi_le) np_pi) then
    raise (ValueError phi_le_msg (value phi_le))
  else if negb (between (- np_pi / of_Z 2)%fl (value psi1_le) (np_pi / of_Z 2)%fl) then
    raise (ValueError psi1_le_msg (value psi1_le))
  else if negb (between (- np_pi / of_Z 2)%fl (value psi2_le) (np_pi / of_Z 2)%fl) then
    raise (ValueError psi2_le_msg (value psi2_le))
  else
    let self :=
      mkBase c alf R_le L_le r_le phi_le psi1_le psi2_le L1_te L2_te
        theta1_te theta2_te t_te r_te phi_te dx dy non_dim_by_chord 0 in
    let self :=
      mkBase c alf R_le L_le r_le phi_le psi1_le psi2_le L1_te L2_te
        theta1_te theta2_te t_te r_te phi_te dx dy non_dim_by_chord
        (count_overrideable_variables self) in
    ret (scale_vars self).

End Base.

(** ** [pyairpar.core.anchor_point.AnchorPoint] and
    [pyairpar.core.free_point.FreePoint] *)

(** Modelled from the spec: [pyairpar/core/anchor_point.py] is not among the
    sources; an anchor point is the record of section 3 of the
    specification, [{name, previous_anchor_point, position (x, y), L, R, r,
    phi, psi1, psi2}], with the [length_scale_dimension] and
    [n_overrideable_parameters] attributes that [Airfoil.__init__] uses. *)
Record AnchorPoint (F : Type) := mkAnchor {
  ap_name : string;
  ap_previous_anchor_point : string;
  ap_x : Param F;
  ap_y : Param F;
  ap_L : Param F;
  ap_R : Param F;
  ap_r : Param F;
  ap_phi : Param F;
  ap_psi1 : Param F;
  ap_psi2 : Param F;
  ap_length_scale_dimension : option F;
  ap_n_overrideable_parameters : nat
}.
Arguments mkAnchor {F}.
Arguments ap_name {F}.
Arguments ap_previous_anchor_point {F}.
Arguments ap_x {F}.
Arguments ap_y {F}.
Arguments ap_L {F}.
Arguments ap_R {F}.
Arguments ap_r {F}.
Arguments ap_phi {F}.
Arguments ap_psi1 {F}.
Arguments ap_psi2 {F}.
Arguments ap_length_scale_dimension {F}.
Arguments ap_n_overrideable_parameters {F}.

(** Modelled from the spec: [pyairpar/core/free_point.py] is not among the
    sources; a free point is [{previous_anchor_point, position (x, y)}]. *)
Record FreePoint (F : Type) := mkFree {
  fp_previous_anchor_point : string;
  fp_x : Param F;
  fp_y : Param F;
  fp_length_scale_dimension : option F;
  fp_n_overrideable_parameters : nat
}.
Arguments mkFree {F}.
Arguments fp_previous_anchor_point {F}.
Arguments fp_x {F}.
Arguments fp_y {F}.
Arguments fp_length_scale_dimension {F}.
Arguments fp_n_overrideable_parameters {F}.

Definition anchor_params {F} (a : AnchorPoint F) : list (Param F) :=
  [ap_x a; ap_y a; ap_L a; ap_R a; ap_r a; ap_phi a; ap_psi1 a; ap_psi2 a].

Definition with_anchor_params {F} (a : AnchorPoint F) (ps : list (Param F))
  : AnchorPoint F :=
  match ps with
  | [p0; p1; p2; p3; p4; p5; p6; p7] =>
      mkAnchor (ap_name a) (ap_previous_anchor_point a) p0 p1 p2 p3 p4 p5 p6 p7
        (ap_length_scale_dimension a) (ap_n_overrideable_parameters a)
  | _ => a
  end.

(** [anchor_point.length_scale_dimension = k] *)
Definition set_anchor_scale {F} (a : AnchorPoint F) (k : F) : AnchorPoint F :=
  mkAnchor (ap_name a) (ap_previous_anchor_point a) (ap_x a) (ap_y a) (ap_L a)
    (ap_R a) (ap_r a) (ap_phi a) (ap_psi1 a) (ap_psi2 a) (Some k)
    (ap_n_overrideable_parameters a).

Definition free_params {F} (p : FreePoint F) : list (Param F) := [fp_x p; fp_y p].

Definition with_free_params {F} (p : FreePoint F) (ps : list (Param F))
  : FreePoint F :=
  match ps with
  | [p0; p1] =>
      mkFree (fp_previous_anchor_point p) p0 p1
        (fp_length_scale_dimension p) (fp_n_overrideable_parameters p)
  | _ => p
  end.

Definition set_free_scale {F} (p : FreePoint F) (k : F) : FreePoint F :=
  mkFree (fp_previous_anchor_point p) (fp_x p) (fp_y p) (Some k)
    (fp_n_overrideable_parameters p).

(** [anchor_point.xy], [free_point.xy]: the position. *)
Definition ap_xy {F} (a : AnchorPoint F) : F * F := (value (ap_x a), value (ap_y a)).
Definition fp_xy {F} (p : FreePoint F) : F * F := (value (fp_x p), value (fp_y p)).

Section Points.
Context {F : Type} `{PyFloat F}.

Definition anchor_mismatch : string :=
  "Number of anchor point parameters does not match length of input override parameter list".
Definition free_mismatch : string :=
  "Number of free point parameters does not match length of input override parameter list".

(** Modelled from the spec: the unit scaling of an anchor or free point,
    "multiplied by the scale factor, tracked via scale_value", with the
    point's [length_scale_dimension] as the scaling context. *)
Definition scale_by (k : option F) (ps : list (Param F)) : list (Param F) :=
  match k with
  | Some k => map (scale_param k) ps
  | None => ps
  end.

(** Modelled from the spec: the override contract of section 4.1, "fails
    with a length-mismatch error unless len(values) == len(flatten(object));
    otherwise assigns values positionally in the same order, then re-applies
    unit scaling", shared by the anchor and the free points. *)
Definition anchor_override (a : AnchorPoint F) (parameters : list F)
  : res F (AnchorPoint F) :=
  if negb (length parameters =? length (flatten (anchor_params a)))%nat then
    raise (Exception anchor_mismatch)
  else
    ret (with_anchor_params a
           (scale_by (ap_length_scale_dimension a)
              (assign_values (anchor_params a) parameters))).

Definition free_override (p : FreePoint F) (parameters : list F)
  : res F (FreePoint F) :=
  if negb (length parameters =? length (flatten (free_params p)))%nat then
    raise (Exception free_mismatch)
  else
    ret (with_free_params p
           (scale_by (fp_length_scale_dimension p)
              (assign_values (free_params p) parameters))).

End Points.

(** ** The Bezier evaluator, [bezier(P, nt)] *)

(** The dict [bezier] returns; ['k'] is present only when the third loop ran. *)
Record BezierCurve (F : Type) := mkBezier {
  C_t : list F;
  C_x : list F;
  C_y : list F;
  C_px : list F;
  C_py : list F;
  C_ppx : list F;
  C_ppy : list F;
  C_k : option (list F)
}.
Arguments mkBezier {F}.
Arguments C_t {F}.
Arguments C_x {F}.
Arguments C_y {F}.
Arguments C_px {F}.
Arguments C_py {F}.
Arguments C_ppx {F}.
Arguments C_ppy {F}.
Arguments C_k {F}.

Section Bezier.
Context {F : Type} `{PyFloat F}.

(** A row of a two-column array. *)
#[local] Abbreviation point := (F * F)%type.

(** [x ** 2] *)
Definition sq (x : F) : F := (x * x)%fl.

(** [np.linspace(0, 1, nt)]: [arange(nt) * step + 0.0] with
    [step = (1 - 0) / (nt - 1)], the last entry overwritten by the stop. *)
Definition linspace01 (nt : nat) : list F :=
  match nt with
  | O => []
  | S O => [f0]
  | S (S m) =>
      let step := ((f1 - f0) / of_Z (Z.of_nat (S m)))%fl in
      map (fun j => (of_Z (Z.of_nat j) * step + f0)%fl) (seq 0 (S m)) ++ [f1]
  end.

(** [nCr(n_, r) = f(n_) / f(r) / f(n_ - r)] with [f] the integer factorial.
    The factorials are converted before they are divided, which never
    fails; Python divides the integers, and raises [OverflowError] once
    [f(n_)] exceeds the binary64 range, from [n_ = 171] on, that is for 172
    control points or more.  The statements below that say what [bezier]
    returns carry the bound [length P <= 171]. *)
Definition nCr (n_ r : nat) : F :=
  (of_Z (Z.of_nat (fact n_)) / of_Z (Z.of_nat (fact r))
   / of_Z (Z.of_nat (fact (n_ - r))))%fl.

(** The Bernstein weight [coef * t ** i * (1 - t) ** m] at one sample. *)
Definition term (coef : F) (i m : nat) (t : F) : F :=
  (coef * powi t i * powi (f1 - t) m)%fl.

(** [acc + coef * t ** i * (1 - t) ** m] over the whole sample array; the
    accumulator starts as the scalar [0], broadcast here to [nt] zeros. *)
Definition accumulate (acc : list F) (coef : F) (i m : nat) (t : list F) : list F :=
  zip_with fadd acc (map (term coef i m) t).

(** The three loops, each [for i in range(...)], as folds over [seq]. *)
Definition position_sum (col : list F) (n : nat) (t : list F) : list F :=
  fold_left
    (fun acc i =>
       accumulate acc (nth i col f0 * nCr (n - 1) i)%fl i (n - 1 - i) t)
    (seq 0 n) (repeat f0 (length t)).

(** The first loop run at a single sample [tj]. *)
Definition position_at (col : list F) (n : nat) (tj : F) : F :=
  fold_left
    (fun a i => (a + term (nth i col f0 * nCr (n - 1) i)%fl i (n - 1 - i) tj)%fl)
    (seq 0 n) f0.

(** The second loop run at a single sample [tj]. *)
Definition first_derivative_at (col : list F) (n : nat) (tj : F) : F :=
  fold_left
    (fun a i =>
       (a + term (of_Z (Z.of_nat n - 1) * (nth (i + 1) col f0 - nth i col f0)
                  * nCr (n - 2) i)%fl i (n - 2 - i) tj)%fl)
    (seq 0 (n - 1)) f0.

Definition first_derivative_sum (col : list F) (n : nat) (t : list F) : list F :=
  fold_left
    (fun acc i =>
       accumulate acc
         (of_Z (Z.of_nat n - 1) * (nth (i + 1) col f0 - nth i col f0)
          * nCr (n - 2) i)%fl i (n - 2 - i) t)
    (seq 0 (n - 1)) (repeat f0 (length t)).

Definition second_derivative_sum (col : list F) (n : nat) (t : list F) : list F :=
  fold_left
    (fun acc i =>
       accumulate acc
         (of_Z ((Z.of_nat n - 1) * (Z.of_nat n - 2))
          * (nth (i + 2) col f0 - of_Z 2 * nth (i + 1) col f0 + nth i col f0)
          * nCr (n - 3) i)%fl i (n - 3 - i) t)
    (seq 0 (n - 2)) (repeat f0 (length t)).

(** [(px * ppy - py * ppx) / (px ** 2 + py ** 2) ** (3 / 2)] at one sample. *)
Definition kappa (px py ppx ppy : F) : F :=
  ((px * ppy - py * ppx) / pow_3_2 (sq px + sq py))%fl.

Fixpoint zip_with4 (f : F -> F -> F -> F -> F) (a b c d : list F) : list F :=
  match a, b, c, d with
  | a0 :: a', b0 :: b', c0 :: c', d0 :: d' => f a0 b0 c0 d0 :: zip_with4 f a' b' c' d'
  | _, _, _, _ => []
  end.

(** [bezier(P, nt)].  The curvature is assigned inside the third loop, so
    the key exists only for [len(P) >= 3], where its last assignment sees
    the complete second-derivative sums. *)
Definition bezier (P : list point) (nt : nat) : BezierCurve F :=
  let t := linspace01 nt in
  let n := length P in
  let x := position_sum (map fst P) n t in
  let y := position_sum (map snd P) n t in
  let px := first_derivative_sum (map fst P) n t in
  let py := first_derivative_sum (map snd P) n t in
  let ppx := second_derivative_sum (map fst P) n t in
  let ppy := second_derivative_sum (map snd P) n t in
  mkBezier t x y px py ppx ppy
    (if (3 <=? n)%nat then Some (zip_with4 kappa px py ppx ppy) else None).

End Bezier.

(** ** [pyairpar.core.airfoil.Airfoil] *)

(** The attributes of an [Airfoil].  [self.c], [self.alf], ... alias the
    [Param] objects of [base_airfoil_params] and are read through it;
    [param_dicts] and [area] are never used by the methods modelled here. *)
Record Airfoil (F : Type) := mkAirfoil {
  nt : nat;
  params : list F;
  af_bounds : list (F * F);
  base_airfoil_params : BaseAirfoilParams F;
  override_parameters : option (list F);
  af_C : list (BezierCurve F);
  free_points : gmap string (list (F * F));
  coords : option (list (F * F));
  curvature : option (list (F * F));
  needs_update : bool;
  anchor_point_tuple : list (AnchorPoint F);
  free_point_tuple : list (FreePoint F);
  anchor_points : gmap string (F * F);
  anchor_point_order : list string;
  anchor_point_array : list (F * F);
  af_N : gmap string nat;
  control_points : list (F * F);
  n_control_points : nat;
  g1_minus_points : gmap string (F * F);
  g1_plus_points : gmap string (F * F);
  g2_minus_points : gmap string (F * F);
  g2_plus_points : gmap string (F * F)
}.
Arguments mkAirfoil {F}.
Arguments nt {F}.
Arguments params {F}.
Arguments af_bounds {F}.
Arguments base_airfoil_params {F}.
Arguments override_parameters {F}.
Arguments af_C {F}.
Arguments free_points {F}.
Arguments coords {F}.
Arguments curvature {F}.
Arguments needs_update {F}.
Arguments anchor_point_tuple {F}.
Arguments free_point_tuple {F}.
Arguments anchor_points {F}.
Arguments anchor_point_order {F}.
Arguments anchor_point_array {F}.
Arguments af_N {F}.
Arguments control_points {F}.
Arguments n_control_points {F}.
Arguments g1_minus_points {F}.
Arguments g1_plus_points {F}.
Arguments g2_minus_points {F}.
Arguments g2_plus_points {F}.

Section Setters.
Context {F : Type}.

(** Attribute assignments [self.attr = v]. *)
Definition set_needs_update (s : Airfoil F) (v : bool) : Airfoil F :=
  mkAirfoil (nt s) (params s) (af_bounds s) (base_airfoil_params s)
    (override_parameters s) (af_C s) (free_points s) (coords s) (curvature s)
    v (anchor_point_tuple s) (free_point_tuple s) (anchor_points s)
    (anchor_point_order s) (anchor_point_array s) (af_N s) (control_points s)
    (n_control_points s) (g1_minus_points s) (g1_plus_points s)
    (g2_minus_points s) (g2_plus_points s).

Definition set_params (s : Airfoil F) (ps : list F) (bs : list (F * F)) : Airfoil F :=
  mkAirfoil (nt s) ps bs (base_airfoil_params s)
    (override_parameters s) (af_C s) (free_points s) (coords s) (curvature s)
    (needs_update s) (anchor_point_tuple s) (free_point_tuple s) (anchor_points s)
    (anchor_point_order s) (anchor_point_array s) (af_N s) (control_points s)
    (n_control_points s) (g1_minus_points s) (g1_plus_points s)
    (g2_minus_points s) (g2_plus_points s).

Definition set_curves (s : Airfoil F) (Cs : list (BezierCurve F))
  (co cu : list (F * F)) : Airfoil F :=
  mkAirfoil (nt s) (params s) (af_bounds s) (base_airfoil_params s)
    (override_parameters s) Cs (free_points s) (Some co) (Some cu)
    (needs_update s) (anchor_point_tuple s) (free_point_tuple s) (anchor_points s)
    (anchor_point_order s) (anchor_point_array s) (af_N s) (control_points s)
    (n_control_points s) (g1_minus_points s) (g1_plus_points s)
    (g2_minus_points s) (g2_plus_points s).

Definition set_free_points (s : Airfoil F) (fps : gmap string (list (F * F)))
  : Airfoil F :=
  mkAirfoil (nt s) (params s) (af_bounds s) (base_airfoil_params s)
    (override_parameters s) (af_C s) fps (coords s) (curvature s)
    (needs_update s) (anchor_point_tuple s) (free_point_tuple s) (anchor_points s)
    (anchor_point_order s) (anchor_point_array s) (af_N s) (control_points s)
    (n_control_points s) (g1_minus_points s) (g1_plus_points s)
    (g2_minus_points s) (g2_plus_points s).

Definition set_anchor_points (s : Airfoil F) (order : list string)
  (aps : gmap string (F * F)) : Airfoil F :=
  mkAirfoil (nt s) (params s) (af_bounds s) (base_airfoil_params s)
    (override_parameters s) (af_C s) (free_points s) (coords s) (curvature s)
    (needs_update s) (anchor_point_tuple s) (free_point_tuple s) aps
    order (anchor_point_array s) (af_N s) (control_points s)
    (n_control_points s) (g1_minus_points s) (g1_plus_points s)
    (g2_minus_points s) (g2_plus_points s).

Definition set_anchor_point_array (s : Airfoil F) (arr : list (F * F)) : Airfoil F :=
  mkAirfoil (nt s) (params s) (af_bounds s) (base_airfoil_params s)
    (override_parameters s) (af_C s) (free_points s) (coords s) (curvature s)
    (needs_update s) (anchor_point_tuple s) (free_point_tuple s) (anchor_points s)
    (anchor_point_order s) arr (af_N s) (control_points s)
    (n_control_points s) (g1_minus_points s) (g1_plus_points s)
    (g2_minus_points s) (g2_plus_points s).

Definition set_N (s : Airfoil F) (N' : gmap string nat) : Airfoil F :=
  mkAirfoil (nt s) (params s) (af_bounds s) (base_airfoil_params s)
    (override_parameters s) (af_C s) (free_points s) (coords s) (curvature s)
    (needs_update s) (anchor_point_tuple s) (free_point_tuple s) (anchor_points s)
    (anchor_point_order s) (anchor_point_array s) N' (control_points s)
    (n_control_points s) (g1_minus_points s) (g1_plus_points s)
    (g2_minus_points s) (g2_plus_points s).

Definition set_control_points (s : Airfoil F) (cps : list (F * F)) : Airfoil F :=
  mkAirfoil (nt s) (params s) (af_bounds s) (base_airfoil_params s)
    (override_parameters s) (af_C s) (free_points s) (coords s) (curvature s)
    (needs_update s) (anchor_point_tuple s) (free_point_tuple s) (anchor_points s)
    (anchor_point_order s) (anchor_point_array s) (af_N s) cps
    (n_control_points s) (g1_minus_points s) (g1_plus_points s)
    (g2_minus_points s) (g2_plus_points s).

Definition set_n_control_points (s : Airfoil F) (n : nat) : Airfoil F :=
  mkAirfoil (nt s) (params s) (af_bounds s) (base_airfoil_params s)
    (override_parameters s) (af_C s) (free_points s) (coords s) (curvature s)
    (needs_update s) (anchor_point_tuple s) (free_point_tuple s) (anchor_points s)
    (anchor_point_order s) (anchor_point_array s) (af_N s) (control_points s)
    n (g1_minus_points s) (g1_plus_points s)
    (g2_minus_points s) (g2_plus_points s).

Definition set_g1_points (s : Airfoil F) (gm gp : gmap string (F * F)) : Airfoil F :=
  mkAirfoil (nt s) (params s) (af_bounds s) (base_airfoil_params s)
    (override_parameters s) (af_C s) (free_points s) (coords s) (curvature s)
    (needs_update s) (anchor_point_tuple s) (free_point_tuple s) (anchor_points s)
    (anchor_point_order s) (anchor_point_array s) (af_N s) (control_points s)
    (n_control_points s) gm gp (g2_minus_points s) (g2_plus_points s).

Definition set_g2_points (s : Airfoil F) (gm gp : gmap string (F * F)) : Airfoil F :=
  mkAirfoil (nt s) (params s) (af_bounds s) (base_airfoil_params s)
    (override_parameters s) (af_C s) (free_points s) (coords s) (curvature s)
    (needs_update s) (anchor_point_tuple s) (free_point_tuple s) (anchor_points s)
    (anchor_point_order s) (anchor_point_array s) (af_N s) (control_points s)
    (n_control_points s) (g1_minus_points s) (g1_plus_points s) gm gp.

(** [self.override_parameters = o] *)
Definition set_override_parameters (s : Airfoil F) (o : option (list F)) : Airfoil F :=
  mkAirfoil (nt s) (params s) (af_bounds s) (base_airfoil_params s)
    o (af_C s) (free_points s) (coords s) (curvature s)
    (needs_update s) (anchor_point_tuple s) (free_point_tuple s) (anchor_points s)
    (anchor_point_order s) (anchor_point_array s) (af_N s) (control_points s)
    (n_control_points s) (g1_minus_points s) (g1_plus_points s)
    (g2_minus_points s) (g2_plus_points s).

(** [l.index(x)] *)
Fixpoint index_of (l : list string) (x : string) : option nat :=
  match l with
  | [] => None
  | y :: l' => if decide (y = x) then Some 0 else S <$> index_of l' x
  end.

Definition index (l : list string) (x : string) : res F nat :=
  match index_of l x with
  | Some i => ret i
  | None => raise (ValueErrorNotInList x)
  end.

(** [l[i]] for a possibly negative [i]. *)
Definition list_getitem {A} (l : list A) (i : Z) : res F A :=
  let j := if (i <? 0)%Z then (Z.of_nat (length l) + i)%Z else i in
  if (j <? 0)%Z then raise IndexError
  else match l !! Z.to_nat j with
       | Some a => ret a
       | None => raise IndexError
       end.

(** [l.insert(i, x)] for [i >= 0]. *)
Definition list_insert_at {A} (i : nat) (x : A) (l : list A) : list A :=
  take i l ++ x :: drop i l.

End Setters.

Section Methods.
Context {F : Type} `{PyFloat F}.

#[local] Abbreviation point := (F * F)%type.

(** Array arithmetic on rows: [p + q], [p - q], [k * p]. *)
Definition padd (p q : point) : point := (fst p + fst q, snd p + snd q)%fl.
Definition psub (p q : point) : point := (fst p - fst q, snd p - snd q)%fl.
Definition pscale (k : F) (p : point) : point := (k * fst p, k * snd p)%fl.

(** [np.array([np.cos(a), np.sin(a)])] *)
Definition unit_vector (a : F) : point := (np_cos a, np_sin a).

(** The closed form shared by [set_curvature_le] and [set_curvature]:
    [g2_minus_point] from the radius [R], the order [n1] of the segment
    before the anchor, the angle [theta1], the anchor [(x0, y0)] and its
    G1 point [(x_m1, y_m1)].  [1 / R] is the division of the float
    interface; on a Python float [R = 0.0] the source raises
    [ZeroDivisionError] instead, so the statements below are either about
    runs that return or exclude a zero radius. *)
Definition g2_minus_solve (R : F) (n1 : nat) (theta1 : F) (a g1 : point) : point :=
  let '(x0, y0) := a in
  let '(x_m1, y_m1) := g1 in
  let gx :=
    (x_m1 - f1 / R * pow_3_2 (sq (x0 - x_m1) + sq (y0 - y_m1))
            / (f1 - f1 / of_Z (Z.of_nat n1))
            / ((x_m1 - x0) * np_tan theta1 + y0 - y_m1))%fl in
  (gx, (np_tan theta1 * (gx - x_m1) + y_m1)%fl).

(** [g2_plus_point], with the differences taken the other way round. *)
Definition g2_plus_solve (R : F) (n2 : nat) (theta2 : F) (a g1 : point) : point :=
  let '(x0, y0) := a in
  let '(x_p1, y_p1) := g1 in
  let gx :=
    (x_p1 - f1 / R * pow_3_2 (sq (x_p1 - x0) + sq (y_p1 - y0))
            / (f1 - f1 / of_Z (Z.of_nat n2))
            / ((x0 - x_p1) * np_tan theta2 + y_p1 - y0))%fl in
  (gx, (np_tan theta2 * (gx - x_p1) + y_p1)%fl).

(** [init_g1_points], from the anchor dict and the trailing and leading
    edge parameters. *)
Definition init_g1_points (b : BaseAirfoilParams F) (aps : gmap string point)
  : res F (gmap string point * gmap string point) :=
  let* te_2 := getitem aps "te_2" in
  let* le := getitem aps "le" in
  let g1_minus_points : gmap string point :=
    <["le" := padd le (pscale (value (r_le b) * value (L_le b))%fl
                         (unit_vector (np_pi / of_Z 2 + value (phi_le b))%fl))]>
    (<["te_2" := padd te_2 (pscale (value (L2_te b))
                              ((- np_cos (value (theta2_te b)))%fl,
                               (- np_sin (value (theta2_te b)))%fl))]> ∅) in
  let* te_1 := getitem aps "te_1" in
  let* le := getitem aps "le" in
  let g1_plus_points : gmap string point :=
    <["le" := psub le (pscale ((f1 - value (r_le b)) * value (L_le b))%fl
                         (unit_vector (np_pi / of_Z 2 + value (phi_le b))%fl))]>
    (<["te_1" := padd te_1 (pscale (value (L1_te b))
                              ((- np_cos (value (theta1_te b)))%fl,
                               np_sin (value (theta1_te b))))]> ∅) in
  ret (g1_minus_points, g1_plus_points).

(** [set_curvature_le] *)
Definition set_curvature_le (self : Airfoil F) : res F (point * point) :=
  let b := base_airfoil_params self in
  if is_inf (value (R_le b)) then
    let* g2_minus_point := getitem (g1_minus_points self) "le" in
    let* g2_plus_point := getitem (g1_plus_points self) "le" in
    ret (g2_minus_point, g2_plus_point)
  else
    let* i := index (anchor_point_order self) "le" in
    let* prev := list_getitem (anchor_point_order self) (Z.of_nat i - 1) in
    let* n1 := getitem (af_N self) prev in
    let* n2 := getitem (af_N self) "le" in
    let theta1 := value (psi1_le b) in
    let theta2 := (- value (psi2_le b))%fl in
    let* a := getitem (anchor_points self) "le" in
    let* gm := getitem (g1_minus_points self) "le" in
    let g2_minus_point := g2_minus_solve (value (R_le b)) n1 theta1 a gm in
    let* gp := getitem (g1_plus_points self) "le" in
    let g2_plus_point := g2_plus_solve (value (R_le b)) n2 theta2 a gp in
    ret (g2_minus_point, g2_plus_point).

(** [init_g2_points] *)
Definition init_g2_points (self : Airfoil F)
  : res F (gmap string point * gmap string point) :=
  let* g2 := set_curvature_le self in
  ret (<["le" := fst g2]> (∅ : gmap string point),
       <["le" := snd g2]> (∅ : gmap string point)).

(** [set_slope] *)
Definition set_slope (self : Airfoil F) (anchor_point : AnchorPoint F)
  : res F (Airfoil F) :=
  let phi := value (ap_phi anchor_point) in
  let r := value (ap_r anchor_point) in
  let L := value (ap_L anchor_point) in
  let name := ap_name anchor_point in
  let* i := index (anchor_point_order self) name in
  let* i_le := index (anchor_point_order self) "le" in
  let* a := getitem (anchor_points self) name in
  if (i <? i_le)%nat then
    ret (set_g1_points self
           (<[name := padd a (pscale (r * L)%fl (unit_vector phi))]>
              (g1_minus_points self))
           (<[name := psub a (pscale ((f1 - r) * L)%fl (unit_vector phi))]>
              (g1_plus_points self)))
  else
    ret (set_g1_points self
           (<[name := psub a (pscale (r * L)%fl (unit_vector phi))]>
              (g1_minus_points self))
           (<[name := padd a (pscale ((f1 - r) * L)%fl (unit_vector phi))]>
              (g1_plus_points self))).

(** [set_curvature] *)
Definition set_curvature (self : Airfoil F) (anchor_point : AnchorPoint F)
  : res F (Airfoil F) :=
  let R := value (ap_R anchor_point) in
  let name := ap_name anchor_point in
  if is_inf R then
    let* gm := getitem (g1_minus_points self) name in
    let* gp := getitem (g1_plus_points self) name in
    ret (set_g2_points self
           (<[name := gm]> (g2_minus_points self))
           (<[name := gp]> (g2_plus_points self)))
  else
    let* i := index (anchor_point_order self) name in
    let* prev := list_getitem (anchor_point_order self) (Z.of_nat i - 1) in
    let* n1 := getitem (af_N self) prev in
    let* n2 := getitem (af_N self) name in
    let '(theta1, theta2) :=
      if (f0 <? R)%fl then
        (value (ap_psi1 anchor_point), (- value (ap_psi2 anchor_point))%fl)
      else
        ((np_pi - value (ap_psi1 anchor_point))%fl,
         (np_pi + value (ap_psi2 anchor_point))%fl) in
    let a := ap_xy anchor_point in
    let* gm := getitem (g1_minus_points self) name in
    let g2_minus_point := g2_minus_solve R n1 theta1 a gm in
    let* gp := getitem (g1_plus_points self) name in
    let g2_plus_point := g2_plus_solve R n2 theta2 a gp in
    ret (set_g2_points self
           (<[name := g2_minus_point]> (g2_minus_points self))
           (<[name := g2_plus_point]> (g2_plus_points self))).

(** [extract_parameters] *)
Definition extract_parameters (self : Airfoil F) : Airfoil F :=
  set_params self
    (flatten (base_params (base_airfoil_params self))
     ++ flat_map (fun a => flatten (anchor_params a)) (anchor_point_tuple self)
     ++ flat_map (fun p => flatten (free_params p)) (free_point_tuple self))
    (flatten_bounds (base_params (base_airfoil_params self))
     ++ flat_map (fun a => flatten_bounds (anchor_params a)) (anchor_point_tuple self)
     ++ flat_map (fun p => flatten_bounds (free_params p)) (free_point_tuple self)).

(** [cps] with the row [d[k]] stacked below it when [k in d]. *)
Definition stack_if_present (d : gmap string point) (k : string)
  (cps : list point) : list point :=
  match d !! k with
  | Some p => cps ++ [p]
  | None => cps
  end.

(** The body of the loop of [order_control_points] for one anchor. *)
Definition order_one (self : Airfoil F) (idx : nat) (anchor_point : string)
  (cps : list point) : res F (list point) :=
  let* cps :=
    if (idx =? 0)%nat then
      let* a := getitem (anchor_points self) anchor_point in
      let* gp := getitem (g1_plus_points self) anchor_point in
      ret (cps ++ [a; gp])
    else
      let cps := stack_if_present (g2_minus_points self) anchor_point cps in
      let* gm := getitem (g1_minus_points self) anchor_point in
      let* a := getitem (anchor_points self) anchor_point in
      let cps := cps ++ [gm; a] in
      let cps := stack_if_present (g1_plus_points self) anchor_point cps in
      ret (stack_if_present (g2_plus_points self) anchor_point cps) in
  ret (cps ++ default [] (free_points self !! anchor_point)).

Fixpoint order_loop (self : Airfoil F) (idx : nat) (order : list string)
  (cps : list point) : res F (list point) :=
  match order with
  | [] => ret cps
  | anchor_point :: rest =>
      let* cps := order_one self idx anchor_point cps in
      order_loop self (S idx) rest cps
  end.

(** [order_control_points] *)
Definition order_control_points (self : Airfoil F) : res F (Airfoil F) :=
  let* cps := order_loop self 0 (anchor_point_order self) [] in
  ret (set_n_control_points (set_control_points self cps) (length cps)).

(** [add_free_point] *)
Definition add_free_point (self : Airfoil F) (free_point : FreePoint F)
  : res F (Airfoil F) :=
  let key := fp_previous_anchor_point free_point in
  let current := default [] (free_points self !! key) in
  let stacked :=
    if (length current =? 0)%nat then [fp_xy free_point]
    else current ++ [fp_xy free_point] in
  let self := set_free_points self (<[key := stacked]> (free_points self)) in
  let* n := getitem (af_N self) key in
  let self := set_N self (<[key := (n + 1)%nat]> (af_N self)) in
  ret (set_needs_update self true).

(** [add_anchor_point] *)
Definition add_anchor_point (self : Airfoil F) (anchor_point : AnchorPoint F)
  : res F (Airfoil F) :=
  let name := ap_name anchor_point in
  let* i := index (anchor_point_order self) (ap_previous_anchor_point anchor_point) in
  let order := list_insert_at (i + 1) name (anchor_point_order self) in
  let self := set_anchor_points self order
                (<[name := ap_xy anchor_point]> (anchor_points self)) in
  let* self := set_slope self anchor_point in
  let* i_name := index (anchor_point_order self) name in
  let* i_le := index (anchor_point_order self) "le" in
  let* self :=
    if (i_le <? i_name)%nat then
      let self := set_N self (<["le" := 5%nat]> (af_N self)) in
      let* last := list_getitem (anchor_point_order self) (-2) in
      ret (set_N self (<[last := 4%nat]> (af_N self)))
    else
      ret (set_N self (<[name := 5%nat]> (af_N self))) in
  let* self := set_curvature self anchor_point in
  ret (set_needs_update self true).

(** [add_anchor_points] *)
Fixpoint add_anchor_points_loop (self : Airfoil F) (aps : list (AnchorPoint F))
  : res F (Airfoil F) :=
  match aps with
  | [] => ret self
  | anchor_point :: rest =>
      let* self :=
        match index_of (anchor_point_order self) (ap_name anchor_point) with
        | None => add_anchor_point self anchor_point
        | Some _ => ret self
        end in
      add_anchor_points_loop self rest
  end.

Definition add_anchor_points (self : Airfoil F) : res F (Airfoil F) :=
  let* self := add_anchor_points_loop self (anchor_point_tuple self) in
  ret (set_needs_update self true).

(** [add_free_points] *)
Fixpoint add_free_points_loop (self : Airfoil F) (fps : list (FreePoint F))
  : res F (Airfoil F) :=
  match fps with
  | [] => ret self
  | free_point :: rest =>
      let* self := add_free_point self free_point in
      add_free_points_loop self rest
  end.

Definition add_free_points (self : Airfoil F) : res F (Airfoil F) :=
  let* self := add_free_points_loop self (free_point_tuple self) in
  ret (set_needs_update self true).

(** [update_anchor_point_array]: the array restarts at ['te_1'], which
    heads the chain, and grows by one row per anchor. *)
Fixpoint anchor_array_loop (self : Airfoil F) (keys : list string)
  (arr : list point) : res F (list point) :=
  match keys with
  | [] => ret arr
  | key :: rest =>
      let* xy := getitem (anchor_points self) key in
      anchor_array_loop self rest
        (if decide (key = "te_1") then [xy] else arr ++ [xy])
  end.

Definition update_anchor_point_array (self : Airfoil F) : res F (Airfoil F) :=
  let* arr := anchor_array_loop self (anchor_point_order self)
                (anchor_point_array self) in
  ret (set_anchor_point_array self arr).

(** [rot_mat @ p] for [rot_mat = [[cos, -sin], [sin, cos]]]. *)
Definition rotate_point (angle : F) (p : point) : point :=
  ((np_cos angle * fst p + - np_sin angle * snd p)%fl,
   (np_sin angle * fst p + np_cos angle * snd p)%fl).

(** [rotate] *)
Definition rotate (self : Airfoil F) (angle : F) : Airfoil F :=
  let self := set_control_points self
                (map (rotate_point angle) (control_points self)) in
  let self := set_anchor_point_array self
                (map (rotate_point angle) (anchor_point_array self)) in
  set_needs_update self true.

(** [translate] *)
Definition translate (self : Airfoil F) (dx dy : F) : Airfoil F :=
  let self := set_control_points self
                (map (fun p => (fst p + dx, snd p + dy)%fl) (control_points self)) in
  set_needs_update self true.

(** The first loop of [generate_airfoil_coordinates]: one curve per anchor
    but the last, each on the slice [control_points[P_start_idx:P_end_idx]],
    consecutive slices sharing one row. *)
Fixpoint curves_loop (self : Airfoil F) (keys : list string) (P_start_idx : nat)
  : res F (list (BezierCurve F)) :=
  match keys with
  | [] => ret []
  | key :: rest =>
      let* n := getitem (af_N self) key in
      let P_length := (n + 1)%nat in
      let P_end_idx := (P_start_idx + P_length)%nat in
      let P := slice (control_points self) P_start_idx P_end_idx in
      let C := bezier P (nt self) in
      let* Cs := curves_loop self rest (P_end_idx - 1) in
      ret (C :: Cs)
  end.

(** [C['k']] *)
Definition curve_k (C : BezierCurve F) : res F (list F) :=
  match C_k C with
  | Some k => ret k
  | None => raise (KeyError "k")
  end.

(** The second loop: the first curve whole, the others without their first
    sample. *)
Fixpoint stack_curves (idx : nat) (Cs : list (BezierCurve F))
  (co cu : list point) : res F (list point * list point) :=
  match Cs with
  | [] => ret (co, cu)
  | C :: rest =>
      let* k := curve_k C in
      if (idx =? 0)%nat then
        stack_curves (S idx) rest (zip (C_x C) (C_y C)) (zip (C_x C) k)
      else
        stack_curves (S idx) rest
          (co ++ zip (tail (C_x C)) (tail (C_y C)))
          (cu ++ zip (tail (C_x C)) (tail k))
  end.

(** [generate_airfoil_coordinates] *)
Definition generate_airfoil_coordinates (self : Airfoil F) : res F (Airfoil F) :=
  let order := anchor_point_order self in
  let* Cs := curves_loop self (take (length order - 1) order) 0 in
  let* cc := stack_curves 0 Cs [] [] in
  ret (set_curves self Cs (fst cc) (snd cc)).

(** [update] *)
Definition update (self : Airfoil F) : res F (Airfoil F) :=
  let* self := add_anchor_points self in
  let* self := add_free_points self in
  let self := extract_parameters self in
  let* self := order_control_points self in
  let* self := update_anchor_point_array self in
  let self := rotate self (- value (alf (base_airfoil_params self)))%fl in
  let* self := generate_airfoil_coordinates self in
  ret (set_needs_update self false).

End Methods.

Section Construction.
Context {F : Type} `{PyFloat F}.

#[local] Abbreviation point := (F * F)%type.

(** The loop of [__init__] over [anchor_point_tuple] when an override
    vector is given; [start] is [override_parameter_start_idx]. *)
Fixpoint override_anchor_points (b : BaseAirfoilParams F) (parameters : list F)
  (start : nat) (aps : list (AnchorPoint F))
  : res F (list (AnchorPoint F) * nat) :=
  match aps with
  | [] => ret ([], start)
  | anchor_point :: rest =>
      let anchor_point :=
        if non_dim_by_chord b then set_anchor_scale anchor_point (value (c b))
        else anchor_point in
      let stop := (start + ap_n_overrideable_parameters anchor_point)%nat in
      let* anchor_point := anchor_override anchor_point (slice parameters start stop) in
      let start := (start + ap_n_overrideable_parameters anchor_point)%nat in
      let* r := override_anchor_points b parameters start rest in
      ret (anchor_point :: fst r, snd r)
  end.

(** The same loop over [free_point_tuple]. *)
Fixpoint override_free_points (b : BaseAirfoilParams F) (parameters : list F)
  (start : nat) (fps : list (FreePoint F))
  : res F (list (FreePoint F) * nat) :=
  match fps with
  | [] => ret ([], start)
  | free_point :: rest =>
      let free_point :=
        if non_dim_by_chord b then set_free_scale free_point (value (c b))
        else free_point in
      let stop := (start + fp_n_overrideable_parameters free_point)%nat in
      let* free_point := free_override free_point (slice parameters start stop) in
      let start := (start + fp_n_overrideable_parameters free_point)%nat in
      let* r := override_free_points b parameters start rest in
      ret (free_point :: fst r, snd r)
  end.

(** The first part of [__init__]: the override vector, when there is one,
    is handed out to the descriptor, the anchor points and the free points. *)
Definition apply_overrides (b : BaseAirfoilParams F)
  (anchor_point_tuple : list (AnchorPoint F))
  (free_point_tuple : list (FreePoint F)) (override_parameters : option (list F))
  : res F (BaseAirfoilParams F * list (AnchorPoint F) * list (FreePoint F)) :=
  match override_parameters with
  | None => ret (b, anchor_point_tuple, free_point_tuple)
  | Some parameters =>
      let start := 0%nat in
      let stop := n_overrideable_parameters b in
      let* b := base_override b (slice parameters start stop) in
      let start := (start + n_overrideable_parameters b)%nat in
      let* ra := override_anchor_points b parameters start anchor_point_tuple in
      let* rf := override_free_points b parameters (snd ra) free_point_tuple in
      ret (b, fst ra, fst rf)
  end.

(** The trailing-edge and leading-edge anchors of [__init__]. *)
Definition initial_anchor_points (b : BaseAirfoilParams F) : gmap string point :=
  let chord : point := pscale (value (c b)) (of_Z 1, of_Z 0) in
  let tilt : point := unit_vector (np_pi / of_Z 2 + value (phi_te b))%fl in
  <["te_2" := psub chord
                (pscale ((f1 - value (r_te b)) * value (t_te b))%fl tilt)]>
  (<["le" := (f0, f0)]>
  (<["te_1" := padd chord (pscale (value (r_te b) * value (t_te b))%fl tilt)]> ∅)).

(** The attributes [__init__] assigns before it computes the support
    points: empty caches, the dirty flag, the three-anchor chain and its
    order table. *)
Definition initial_attributes (number_coordinates : nat) (b : BaseAirfoilParams F)
  (anchor_point_tuple : list (AnchorPoint F))
  (free_point_tuple : list (FreePoint F)) (override_parameters : option (list F))
  : Airfoil F :=
  mkAirfoil number_coordinates [] [] b override_parameters [] ∅ None None true
    anchor_point_tuple free_point_tuple (initial_anchor_points b)
    ["te_1"; "le"; "te_2"] []
    (<["le" := 4%nat]> (<["te_1" := 4%nat]> ∅)) [] 0 ∅ ∅ ∅ ∅.

(** The rest of [__init__]: the attributes, the support points of the
    initial chain and [update]. *)
Definition assemble (number_coordinates : nat) (b : BaseAirfoilParams F)
  (anchor_point_tuple : list (AnchorPoint F))
  (free_point_tuple : list (FreePoint F)) (override_parameters : option (list F))
  : res F (Airfoil F) :=
  let self := initial_attributes number_coordinates b anchor_point_tuple
                free_point_tuple override_parameters in
  let* g1 := init_g1_points b (anchor_points self) in
  let self := set_g1_points self (fst g1) (snd g1) in
  let* g2 := init_g2_points self in
  let self := set_g2_points self (fst g2) (snd g2) in
  update self.

(** [Airfoil.__init__] *)
Definition Airfoil_init (number_coordinates : nat) (b : BaseAirfoilParams F)
  (anchor_point_tuple : list (AnchorPoint F))
  (free_point_tuple : list (FreePoint F)) (override_parameters : option (list F))
  : res F (Airfoil F) :=
  let* objs := apply_overrides b anchor_point_tuple free_point_tuple
                 override_parameters in
  let '(b, anchor_point_tuple, free_point_tuple) := objs in
  assemble number_coordinates b anchor_point_tuple free_point_tuple
    override_parameters.

(** [Airfoil.override] *)
Definition Airfoil_override (self : Airfoil F) (parameters : list F)
  : res F (Airfoil F) :=
  Airfoil_init (nt self) (base_airfoil_params self) (anchor_point_tuple self)
    (free_point_tuple self) (Some parameters).

End Construction.

(** ** The statements of the specification that are compared with the code *)

Section Stated.
Context {F : Type} `{PyFloat F}.

#[local] Abbreviation point := (F * F)%type.

(** Section 4.3 as worded:
    [g2.x = g1.x - (1/R) * dist(anchor, g1)^3 / (1 - 1/n)
            / ((g1.x - anchor.x) * tan(theta) + anchor.y - g1.y)] and
    [g2.y = tan(theta) * (g2.x - g1.x) + g1.y], the same on both sides. *)
Definition stated_g2 (R : F) (n : nat) (theta : F) (a g1 : point) : point :=
  let gx :=
    (fst g1 - f1 / R * pow_3_2 (sq (fst a - fst g1) + sq (snd a - snd g1))
              / (f1 - f1 / of_Z (Z.of_nat n))
              / ((fst g1 - fst a) * np_tan theta + snd a - snd g1))%fl in
  (gx, (np_tan theta * (gx - fst g1) + snd g1)%fl).

(** Sections 4.1 and 6 as worded: the vector is consumed front to back, by
    the descriptor first, then each anchor point in tuple order, then each
    free point in tuple order; an object takes as many values as it has
    active and unlinked parameters and re-applies its unit scaling. *)
Definition consume_base (b : BaseAirfoilParams F) (values : list F)
  : BaseAirfoilParams F * list F :=
  let n := count_overrideable_variables b in
  (scale_vars (with_base_params b (assign_values (base_params b) (take n values))),
   drop n values).

Fixpoint consume_anchor_points (b : BaseAirfoilParams F)
  (aps : list (AnchorPoint F)) (values : list F)
  : list (AnchorPoint F) * list F :=
  match aps with
  | [] => ([], values)
  | a :: rest =>
      let a := if non_dim_by_chord b then set_anchor_scale a (value (c b)) else a in
      let n := length (flatten (anchor_params a)) in
      let a' := with_anchor_params a
                  (scale_by (ap_length_scale_dimension a)
                     (assign_values (anchor_params a) (take n values))) in
      let r := consume_anchor_points b rest (drop n values) in
      (a' :: fst r, snd r)
  end.

Fixpoint consume_free_points (b : BaseAirfoilParams F)
  (fps : list (FreePoint F)) (values : list F)
  : list (FreePoint F) * list F :=
  match fps with
  | [] => ([], values)
  | p :: rest =>
      let p := if non_dim_by_chord b then set_free_scale p (value (c b)) else p in
      let n := length (flatten (free_params p)) in
      let p' := with_free_params p
                  (scale_by (fp_length_scale_dimension p)
                     (assign_values (free_params p) (take n values))) in
      let r := consume_free_points b rest (drop n values) in
      (p' :: fst r, snd r)
  end.

Definition consume (b : BaseAirfoilParams F) (aps : list (AnchorPoint F))
  (fps : list (FreePoint F)) (values : list F)
  : BaseAirfoilParams F * list (AnchorPoint F) * list (FreePoint F) :=
  let rb := consume_base b values in
  let ra := consume_anchor_points (fst rb) aps (snd rb) in
  let rf := consume_free_points (fst rb) fps (snd ra) in
  (fst rb, fst ra, fst rf).

(** The number of active and unlinked parameters of a configuration. *)
Definition total_overrideable (b : BaseAirfoilParams F)
  (aps : list (AnchorPoint F)) (fps : list (FreePoint F)) : nat :=
  length (flatten (base_params b))
  + length (flat_map (fun a => flatten (anchor_params a)) aps)
  + length (flat_map (fun p => flatten (free_params p)) fps).

(** The counters [n_overrideable_parameters] agree with the flags, as they
    do when the objects were constructed and their flags left alone. *)
Definition counted_base (b : BaseAirfoilParams F) : Prop :=
  n_overrideable_parameters b = count_overrideable_variables b.
Definition counted_anchor (a : AnchorPoint F) : Prop :=
  ap_n_overrideable_parameters a = length (flatten (anchor_params a)).
Definition counted_free (p : FreePoint F) : Prop :=
  fp_n_overrideable_parameters p = length (flatten (free_params p)).

(** What the round trip is asked to preserve: control polygon, sampled
    outline and curvature sequence. *)
Definition shape (self : Airfoil F) : list point * option (list point) * option (list point) :=
  (control_points self, coords self, curvature self).

(** The inputs of an airfoil and its flattened parameter vector. *)
Definition kept (self : Airfoil F)
  : nat * BaseAirfoilParams F * list (AnchorPoint F) * list (FreePoint F) * list F :=
  (nt self, base_airfoil_params self, anchor_point_tuple self,
   free_point_tuple self, params self).

(** The canonical parameter vector: descriptor, anchors, free points. *)
Definition parameter_vector (b : BaseAirfoilParams F)
  (aps : list (AnchorPoint F)) (fps : list (FreePoint F)) : list F :=
  flatten (base_params b)
  ++ flat_map (fun a => flatten (anchor_params a)) aps
  ++ flat_map (fun p => flatten (free_params p)) fps.

(** What only [add_anchor_point] and [add_free_point] write: the chain,
    the anchors with their support points, the order table and the free
    points. *)
Definition chain_state (self : Airfoil F) :=
  (anchor_point_order self, anchor_points self, g1_minus_points self,
   g1_plus_points self, g2_minus_points self, g2_plus_points self,
   af_N self, free_points self).

(** The positions of the free points of a tuple that attach to segment [k],
    in tuple order. *)
Definition free_points_for (k : string) (fps : list (FreePoint F)) : list point :=
  map fp_xy (filter (fun p => fp_previous_anchor_point p = k) fps).

(** [x == 0]: the divisors at which the [/] of a Python float raises. *)
Definition is_zero (x : F) : bool := (x <=? f0)%fl && (f0 <=? x)%fl.

(** The G1 points [init_g1_points] places around the leading edge, which
    [__init__] puts at the origin. *)
Definition le_g1_minus (b : BaseAirfoilParams F) : F * F :=
  padd (f0, f0)
    (pscale (value (r_le b) * value (L_le b))%fl
       (unit_vector (np_pi / of_Z 2 + value (phi_le b))%fl)).

Definition le_g1_plus (b : BaseAirfoilParams F) : F * F :=
  psub (f0, f0)
    (pscale ((f1 - value (r_le b)) * value (L_le b))%fl
       (unit_vector (np_pi / of_Z 2 + value (phi_le b))%fl)).

(** The anchors of the chain and their support points, at one name. *)
Definition anchor_at (s : Airfoil F) (k : string) :=
  (anchor_points s !! k, g1_minus_points s !! k, g1_plus_points s !! k,
   g2_minus_points s !! k, g2_plus_points s !! k).

(** The shape of one curve of an airfoil sampled [n] times. *)
Definition sampled (n : nat) (C : BezierCurve F) : Prop :=
  length (C_x C) = n /\ length (C_y C) = n
  /\ forall k, C_k C = Some k -> length k = n.

End Stated.

(** [sub in s] for Python strings. *)
Definition contains (sub s : string) : bool :=
  match String.index 0 sub s with
  | Some _ => true
  | None => false
  end.

(** ** Reference configurations in binary64 *)

Definition unbounded : float * float := (neg_infinity, infinity).

(** [Param(v)], [Param(v, 'length')] and [Param(v, 'length', active=False)]. *)
Definition plain (v : float) : Param float := mkParam v unbounded true false NoUnits None.
Definition lengthy (v : float) : Param float := mkParam v unbounded true false Length None.
Definition lengthy_inactive (v : float) : Param float :=
  mkParam v unbounded false false Length None.

(** A descriptor of chord 2 with chord scaling on, the trailing-edge
    thickness [t_te] being inactive. *)
Definition descriptor (t_te : Param float) (non_dim_by_chord : bool)
  : res float (BaseAirfoilParams float) :=
  BaseAirfoilParams_init (plain 2) (plain 0) (lengthy 0.0625) (lengthy 0.125)
    (plain 0.5) (plain 0) (plain 0) (plain 0) (lengthy 0.25) (lengthy 0.25)
    (plain 0) (plain 0) t_te (plain 0.5) (plain 0) (plain 0) (plain 0)
    non_dim_by_chord.

(** Anchor points on the lower surface (after the leading edge) and one on
    the upper surface, without a length scale of their own. *)
Definition anchor (name previous : string) (x y R : float) : AnchorPoint float :=
  mkAnchor name previous (plain x) (plain y) (plain 0.25) (plain R) (plain 0.5)
    (plain 0) (plain 0.5) (plain 0.5) None 8.

Definition upper : AnchorPoint float := anchor "upper" "te_1" 1 0.25 infinity.
Definition lower : AnchorPoint float := anchor "lower" "le" 1 (-0.25) 2.
Definition lower_aft : AnchorPoint float := anchor "lower_aft" "lower" 1.5 (-0.25) 2.
Definition lower_flat : AnchorPoint float := anchor "lower_flat" "le" 1 (-0.25) infinity.
Definition lower_fore : AnchorPoint float := anchor "lower_fore" "le" 0.5 (-0.25) infinity.

(** An anchor after the leading edge with radius [-inf] (as
    [np.divide(1, -0.0)] gives it) and length ratio [r = 0], so that its G1
    point before the anchor is the anchor itself. *)
Definition lower_neg_inf : AnchorPoint float :=
  mkAnchor "lower" "le" (plain 1) (plain (-0.25)) (plain 0.25)
    (plain neg_infinity) (plain 0) (plain 0) (plain 0.5) (plain 0.5) None 8.

Definition bump : FreePoint float := mkFree "le" (plain 0.5) (plain (-0.5)) None 2.

(** ** A reference anchor in real arithmetic: an anchor at [(1/2, 1)] before
    the leading edge, with [L = 2], [r = 1/2], [phi = pi/2], [R = 1] and both
    curvature-control angles 0, in the state [set_slope] leaves, where its
    G1 points are [(1/2, 2)] and [(1/2, 0)]. *)

Definition Rplain (v : R) : Param R := mkParam v (0%R, 0%R) true false NoUnits None.

Definition crest : AnchorPoint R :=
  mkAnchor "crest" "te_1" (Rplain (1/2)) (Rplain 1) (Rplain 2) (Rplain 1)
    (Rplain (1/2)) (Rplain (PI / 2)) (Rplain 0) (Rplain 0) None 8.

Definition Rdescriptor : BaseAirfoilParams R :=
  mkBase (Rplain 1) (Rplain 0) (Rplain 1) (Rplain 1) (Rplain (1/2)) (Rplain 0)
    (Rplain 0) (Rplain 0) (Rplain 1) (Rplain 1) (Rplain 0) (Rplain 0)
    (Rplain 0) (Rplain (1/2)) (Rplain 0) (Rplain 0) (Rplain 0) false 17.

Definition crest_state : Airfoil R :=
  mkAirfoil 3 [] [] Rdescriptor None [] ∅ None None true [crest] []
    (<["crest" := ((1/2)%R, 1%R)]>
       (<["te_2" := (1%R, 0%R)]> (<["le" := (0%R, 0%R)]>
          (<["te_1" := (1%R, 0%R)]> ∅))))
    ["te_1"; "crest"; "le"; "te_2"] []
    (<["crest" := 5%nat]> (<["le" := 4%nat]> (<["te_1" := 4%nat]> ∅))) [] 0
    (<["crest" := ((1/2)%R, 2%R)]> ∅) (<["crest" := ((1/2)%R, 0%R)]> ∅) ∅ ∅.

(** The object a construction returned, or [d] when it raised. *)
Definition built {A} (r : res float A) (d : A) : A :=
  match r with
  | inr a => a
  | inl _ => d
  end.

Definition blank_descriptor : BaseAirfoilParams float :=
  mkBase (plain 0) (plain 0) (plain 0) (plain 0) (plain 0) (plain 0) (plain 0)
    (plain 0) (plain 0) (plain 0) (plain 0) (plain 0) (plain 0) (plain 0)
    (plain 0) (plain 0) (plain 0) false 0.

Definition blank_airfoil : Airfoil float :=
  mkAirfoil 0 [] [] blank_descriptor None [] ∅ None None true [] [] ∅ [] [] ∅
    [] 0 ∅ ∅ ∅ ∅.

(** The reference descriptor, and the airfoils built from it: the bare one,
    and one with a curvature-free anchor after the leading edge. *)
Definition reference_descriptor : BaseAirfoilParams float :=
  built (descriptor (lengthy_inactive 0) true) blank_descriptor.

Definition bare_airfoil : Airfoil float :=
  built (Airfoil_init 3 reference_descriptor [] [] None) blank_airfoil.

Definition flat_airfoil : Airfoil float :=
  built (Airfoil_init 3 reference_descriptor [lower_flat] [] None) blank_airfoil.

(** The bare airfoil after [add_anchor_point] of an anchor with a finite
    radius behind the leading edge. *)
Definition lowered_airfoil : Airfoil float :=
  built (add_anchor_point bare_airfoil lower) blank_airfoil.

(** The reference descriptor with chord scaling off, and an airfoil built
    from it with an anchor and a free point. *)
Definition unscaled_descriptor : BaseAirfoilParams float :=
  built (descriptor (lengthy_inactive 0) false) blank_descriptor.

Definition unscaled_airfoil : Airfoil float :=
  built (Airfoil_init 3 unscaled_descriptor [lower] [bump] None) blank_airfoil.

(** * Evaluations on the reference configurations *)

(** C2: the unit scaling is not applied exactly once.  [scale_vars] tests
    [scale_value is None] but never records that it scaled, so every run
    multiplies again: an inactive length parameter of 0.25 on a chord of 2 is
    0.5 after construction, 1.0 after a second [scale_vars], and 1.0 after an
    [Airfoil.override] whose vector does not even address it. *)
Lemma scale_vars_multiplies_on_every_run :
  (let* b := descriptor (lengthy_inactive 0.25) true in
   ret (value (t_te b), value (t_te (scale_vars b))))
  = inr (0.5%float, 1%float)
  /\ (let* b := descriptor (lengthy_inactive 0.25) true in
      let* af := Airfoil_init 3 b [] [] None in
      let* af' := Airfoil_override af (params af) in
      ret (length (params af),
           value (t_te (base_airfoil_params af)),
           value (t_te (base_airfoil_params af'))))
     = inr (16%nat, 0.5%float, 1%float).
Proof. split; vm_compute; reflexivity. Qed.

(** C1: the round trip is broken by the repeated scaling of C2.
    Flattening a chord-scaled airfoil and overriding it with the values just
    extracted moves the control polygon: the second control point goes from
    [(1.5, 0)] to [(1, 0)], because [flatten] returns the scaled
    trailing-edge length 0.5 and [override] lets [scale_vars] multiply it by
    the chord 2 once more. *)
Lemma round_trip_moves_control_polygon :
  (let* b := descriptor (lengthy_inactive 0) true in
   let* af := Airfoil_init 3 b [] [] None in
   let* af' := Airfoil_override af (params af) in
   ret (control_points af !! 1%nat, control_points af' !! 1%nat))
  = inr (Some (1.5%float, 0%float), Some (1%float, 0%float)).
Proof. vm_compute; reflexivity. Qed.

(** C3 (counterexample): an override vector longer than the number of
    active and unlinked parameters is accepted: the configuration has 16 of
    them, a vector of 17 values constructs the airfoil, and the last value
    is never read. *)
Lemma longer_override_vector_is_accepted :
  (let* b := descriptor (lengthy_inactive 0) true in
   let* af := Airfoil_init 3 b [] []
                (Some (repeat 0.5%float 17)) in
   ret (total_overrideable b [] [], length (params af), needs_update af))
  = inr (16%nat, 16%nat, false).
Proof. vm_compute; reflexivity. Qed.

(** C6 (counterexample): an anchor inserted after the leading edge but in
    front of an existing anchor gets no entry in the order table; the entry
    set to 4 is the one of the anchor before [te_2]. *)
Lemma inserted_anchor_gets_no_order :
  (let* b := descriptor (lengthy_inactive 0) true in
   let* af := Airfoil_init 3 b [lower_flat] [] None in
   let* af' := add_anchor_point af lower_fore in
   ret (anchor_point_order af', af_N af' !! "lower_fore",
        af_N af' !! "lower_flat", af_N af' !! "le"))
  = inr (["te_1"; "le"; "lower_fore"; "lower_flat"; "te_2"],
         None, Some 4%nat, Some 5%nat).
Proof. vm_compute; reflexivity. Qed.

(** C7: two anchors after the leading edge break the segment count.  The
    chain is te_1, le, lower, lower_aft, te_2; the anchors [lower] and
    [lower_aft] are rows 9 and 14 of the control polygon, so 6 control points
    lie between them, but [N['lower']] is 4; the sampled outline then ends
    at [(1.5, 0)], a support point, and not at te_2 = [(2, 0)]. *)
Lemma two_anchors_after_le_break_the_count :
  (let* b := descriptor (lengthy_inactive 0) true in
   let* af := Airfoil_init 3 b [lower; lower_aft] [] None in
   ret (anchor_point_order af, n_control_points af,
        (control_points af !! 9%nat, anchor_points af !! "lower"),
        (control_points af !! 14%nat, anchor_points af !! "lower_aft"),
        af_N af !! "lower",
        (last <$> coords af, anchor_points af !! "te_2")))
  = inr (["te_1"; "le"; "lower"; "lower_aft"; "te_2"], 19%nat,
         (Some (1%float, (-0.25)%float), Some (1%float, (-0.25)%float)),
         (Some (1.5%float, (-0.25)%float), Some (1.5%float, (-0.25)%float)),
         Some 4%nat,
         (Some (Some (1.5%float, 0%float)), Some (2%float, 0%float))).
Proof. vm_compute; reflexivity. Qed.

(** C9 (counterexample): the flag is false right after construction and
    right after [override], both of which end in [update]. *)
Lemma clean_after_construction_and_override :
  (let* b := descriptor (lengthy_inactive 0) true in
   let* af := Airfoil_init 3 b [] [] None in
   let* af' := Airfoil_override af (params af) in
   ret (needs_update af, needs_update af'))
  = inr (false, false).
Proof. vm_compute; reflexivity. Qed.

(** C5 (counterexample): a radius of [-inf] is infinite, but it is not
    equal to [np.inf], so the solve runs.  For an anchor whose G1 point
    before it is the anchor itself ([r = 0]) the solve divides zero by zero:
    the G2 point before the anchor is [(nan, nan)] while the G1 point is
    [(1, -0.25)]. *)
Lemma negative_infinite_radius_is_solved_for :
  (let* af := add_anchor_point bare_airfoil lower_neg_inf in
   ret (value (ap_R lower_neg_inf),
        g1_minus_points af !! "lower", g2_minus_points af !! "lower"))
  = inr (neg_infinity, Some (1%float, (-0.25)%float), Some (nan, nan)).
Proof. vm_compute; reflexivity. Qed.

(** C10 (counterexample): in binary64 a finite control point can make a
    product overflow.  For the three control points [(0, 0)], [(2^1023, 1)],
    [(1, 0)] the weight [2^1023 * nCr(2, 1)] is [inf], and [inf * 0] is
    [nan]: the first and the last sampled positions are [(nan, 0)], not the
    first and the last control point. *)
Lemma overflowing_weight_spoils_the_end_samples :
  (head (zip (C_x (bezier [(0, 0); (0x1p1023, 1); (1, 0)]%float 3))
             (C_y (bezier [(0, 0); (0x1p1023, 1); (1, 0)]%float 3))),
   last (zip (C_x (bezier [(0, 0); (0x1p1023, 1); (1, 0)]%float 3))
             (C_y (bezier [(0, 0); (0x1p1023, 1); (1, 0)]%float 3))))
  = (Some (nan, 0%float), Some (nan, 0%float)).
Proof. vm_compute; reflexivity. Qed.

(** * The error monad *)

Lemma bind_inr {F A B} (m : res F A) (k : A -> res F B) (b : B) :
  bind m k = inr b -> exists a, m = inr a /\ k a = inr b.
Proof. destruct m as [e | a]; simpl; [discriminate | eauto]. Qed.

Lemma bind_inl {F A B} (m : res F A) (k : A -> res F B) (e : error F) :
  bind m k = inl e -> m = inl e \/ exists a, m = inr a /\ k a = inl e.
Proof. destruct m as [e' | a]; simpl; [intros [= ->]; auto | eauto]. Qed.

(** Peel the successful steps off a computation that returned. *)
Ltac inv_bind H :=
  repeat match type of H with
    | bind _ _ = inr _ =>
        let a := fresh "a" in
        let Ha := fresh "Ha" in
        apply bind_inr in H as (a & Ha & H)
    | ret _ = inr _ => injection H as H
    | inr _ = inr _ => injection H as H
    end.

(** * Parameter lists *)

Section ParamLists.
Context {F : Type} `{PyFloat F}.

Lemma overrideable_set_value (p : Param F) (v : F) :
  overrideable (set_value p v) = overrideable p.
Proof. reflexivity. Qed.

Lemma overrideable_scale_param (k : F) (p : Param F) :
  overrideable (scale_param k p) = overrideable p.
Proof.
  unfold scale_param.
  destruct (is_length (units p)); [destruct (scale_value p) |]; reflexivity.
Qed.

Lemma filter_overrideable_map (f : Param F -> Param F) (ps : list (Param F)) :
  (forall p, overrideable (f p) = overrideable p) ->
  length (filter (fun p => overrideable p = true) (map f ps))
  = length (filter (fun p => overrideable p = true) ps).
Proof.
  intros Hf. induction ps as [| p ps IH]; [reflexivity |].
  cbn [map]. rewrite !filter_cons, Hf.
  destruct (decide (overrideable p = true)); simpl; rewrite IH; reflexivity.
Qed.

Lemma flatten_length_map (f : Param F -> Param F) (ps : list (Param F)) :
  (forall p, overrideable (f p) = overrideable p) ->
  length (flatten (map f ps)) = length (flatten ps).
Proof.
  intros Hf. unfold flatten. rewrite !length_map.
  apply filter_overrideable_map, Hf.
Qed.

Lemma assign_values_length (ps : list (Param F)) (vs : list F) :
  length (assign_values ps vs) = length ps.
Proof.
  revert vs. induction ps as [| p ps IH]; intros vs; [reflexivity |].
  simpl. destruct (overrideable p); [destruct vs |]; simpl; rewrite IH; reflexivity.
Qed.

Lemma flatten_length_assign (ps : list (Param F)) (vs : list F) :
  length (flatten (assign_values ps vs)) = length (flatten ps).
Proof.
  unfold flatten. rewrite !length_map.
  revert vs. induction ps as [| p ps IH]; intros vs; [reflexivity |].
  cbn [assign_values]. destruct (overrideable p) eqn:Hp.
  - destruct vs as [| v vs].
    + rewrite !filter_cons_True by exact Hp. simpl. rewrite IH. reflexivity.
    + rewrite (filter_cons_True _ p) by exact Hp.
      rewrite filter_cons_True by (rewrite overrideable_set_value; exact Hp).
      simpl. rewrite IH. reflexivity.
  - rewrite !filter_cons_False by (rewrite Hp; discriminate). apply IH.
Qed.

Lemma base_params_length (b : BaseAirfoilParams F) : length (base_params b) = 17%nat.
Proof. reflexivity. Qed.

Lemma with_base_params_id (b : BaseAirfoilParams F) :
  with_base_params b (base_params b) = b.
Proof. destruct b; reflexivity. Qed.

Lemma base_params_with (b : BaseAirfoilParams F) (ps : list (Param F)) :
  length ps = 17%nat -> base_params (with_base_params b ps) = ps.
Proof.
  intros Hlen.
  do 18 (destruct ps as [| ? ps]; [discriminate Hlen || reflexivity |]).
  discriminate Hlen.
Qed.

Lemma with_base_params_flags (b : BaseAirfoilParams F) (ps : list (Param F)) :
  non_dim_by_chord (with_base_params b ps) = non_dim_by_chord b
  /\ n_overrideable_parameters (with_base_params b ps) = n_overrideable_parameters b.
Proof.
  unfold with_base_params.
  do 18 (destruct ps as [| ? ps]; [split; reflexivity |]).
  split; reflexivity.
Qed.

Lemma base_params_scale_vars (b : BaseAirfoilParams F) :
  base_params (scale_vars b) = scaled_params b.
Proof.
  unfold scale_vars, scaled_params.
  destruct (non_dim_by_chord b); [| reflexivity].
  apply base_params_with. reflexivity.
Qed.

Lemma scale_vars_flags (b : BaseAirfoilParams F) :
  non_dim_by_chord (scale_vars b) = non_dim_by_chord b
  /\ n_overrideable_parameters (scale_vars b) = n_overrideable_parameters b.
Proof.
  unfold scale_vars. destruct (non_dim_by_chord b) eqn:Hnd; [| auto].
  destruct (with_base_params_flags b
              (scale_param (value (c b)) (c b)
               :: map (scale_param (value (scale_param (value (c b)) (c b))))
                    (tail (base_params b)))) as [E1 E2].
  split; congruence.
Qed.

Lemma count_scale_vars (b : BaseAirfoilParams F) :
  count_overrideable_variables (scale_vars b) = count_overrideable_variables b.
Proof.
  unfold count_overrideable_variables. rewrite base_params_scale_vars.
  unfold scaled_params. destruct (non_dim_by_chord b); [| reflexivity].
  pose proof (filter_overrideable_map
                (scale_param (value (scale_param (value (c b)) (c b))))
                (tail (base_params b))
                (overrideable_scale_param _)) as Htail.
  replace (base_params b) with (c b :: tail (base_params b)) at 2 by reflexivity.
  destruct (overrideable (c b)) eqn:Hc.
  - rewrite !filter_cons_True
      by (rewrite ?overrideable_scale_param; exact Hc).
    cbn [length]. rewrite Htail. reflexivity.
  - rewrite !filter_cons_False
      by (rewrite ?overrideable_scale_param, Hc; discriminate).
    exact Htail.
Qed.

End ParamLists.

(** * Descriptor validation (C8) *)

Section Validation.
Context {F : Type} `{PyFloat F}.

(** C8: constructing the descriptor set fails if and only if the tilt angle
    is outside [-pi, pi] or one of the curvature-control angles is outside
    [-pi/2, pi/2]; the error is the [ValueError] of the first offending
    angle, whose text names the parameter and its legal range and which
    carries the value supplied; inside the ranges the object is built. *)
Theorem construction_fails_iff_angle_out_of_range
  (c alf R_le L_le r_le phi_le psi1_le psi2_le L1_te L2_te
   theta1_te theta2_te t_te r_te phi_te dx dy : Param F) (nd : bool) :
  let built :=
    BaseAirfoilParams_init c alf R_le L_le r_le phi_le psi1_le psi2_le L1_te
      L2_te theta1_te theta2_te t_te r_te phi_te dx dy nd in
  let phi_ok := between (- np_pi)%fl (value phi_le) np_pi in
  let psi1_ok := between (- np_pi / of_Z 2)%fl (value psi1_le) (np_pi / of_Z 2)%fl in
  let psi2_ok := between (- np_pi / of_Z 2)%fl (value psi2_le) (np_pi / of_Z 2)%fl in
  ((exists e, built = inl e)
   <-> phi_ok = false \/ psi1_ok = false \/ psi2_ok = false)
  /\ (forall e, built = inl e ->
        (phi_ok = false /\ e = ValueError phi_le_msg (value phi_le))
        \/ (psi1_ok = false /\ e = ValueError psi1_le_msg (value psi1_le))
        \/ (psi2_ok = false /\ e = ValueError psi2_le_msg (value psi2_le)))
  /\ ((exists b, built = inr b /\ non_dim_by_chord b = nd
                 /\ n_overrideable_parameters b = count_overrideable_variables b)
      <-> phi_ok = true /\ psi1_ok = true /\ psi2_ok = true)
  /\ (contains "phi_le" phi_le_msg
      && contains "between -180 degrees and 180 degrees" phi_le_msg
      && contains "psi1_le" psi1_le_msg
      && contains "between -90 degrees and 90 degrees" psi1_le_msg
      && contains "psi2_le" psi2_le_msg
      && contains "between -90 degrees and 90 degrees" psi2_le_msg = true).
Proof.
  intros built phi_ok psi1_ok psi2_ok.
  assert (Hbuilt :
    built =
    if negb phi_ok then raise (ValueError phi_le_msg (value phi_le))
    else if negb psi1_ok then raise (ValueError psi1_le_msg (value psi1_le))
    else if negb psi2_ok then raise (ValueError psi2_le_msg (value psi2_le))
    else ret (scale_vars
                (mkBase c alf R_le L_le r_le phi_le psi1_le psi2_le L1_te L2_te
                   theta1_te theta2_te t_te r_te phi_te dx dy nd
                   (count_overrideable_variables
                      (mkBase c alf R_le L_le r_le phi_le psi1_le psi2_le L1_te
                         L2_te theta1_te theta2_te t_te r_te phi_te dx dy nd 0)))))
    by reflexivity.
  rewrite Hbuilt. clear Hbuilt built.
  assert (Hok : forall b0 : BaseAirfoilParams F,
             n_overrideable_parameters b0 = count_overrideable_variables b0 ->
             non_dim_by_chord (scale_vars b0) = non_dim_by_chord b0
             /\ n_overrideable_parameters (scale_vars b0)
                = count_overrideable_variables (scale_vars b0)).
  { intros b0 Hb0. destruct (scale_vars_flags b0) as [E1 E2].
    rewrite count_scale_vars. split; congruence. }
  split; [| split; [| split; [| vm_compute; reflexivity]]].
  - destruct phi_ok, psi1_ok, psi2_ok; simpl; split;
      try (intros [e He]; discriminate He);
      try (intros [Hf | [Hf | Hf]]; discriminate Hf);
      eauto.
  - intros e.
    destruct phi_ok, psi1_ok, psi2_ok; simpl; intros He;
      try discriminate He; injection He as <-; auto.
  - destruct phi_ok, psi1_ok, psi2_ok; simpl; split;
      try (intros (b0 & Hb0 & _); discriminate Hb0);
      try (intros (H1 & H2 & H3); discriminate);
      auto.
    intros _. eexists. split; [reflexivity |]. apply Hok. reflexivity.
Qed.

End Validation.

(** * Reading dicts and lists *)

Section Reads.
Context {F : Type} `{PyFloat F}.

#[local] Abbreviation point := (F * F)%type.

Lemma getitem_inr {A} (d : gmap string A) (k : string) (a : A) :
  getitem (F := F) d k = inr a <-> d !! k = Some a.
Proof.
  unfold getitem, ret, raise. destruct (d !! k); simpl; split; intros E;
    try discriminate; congruence.
Qed.

Lemma getitem_inl {A} (d : gmap string A) (k : string) (e : error F) :
  getitem d k = inl e <-> d !! k = None /\ e = KeyError k.
Proof.
  unfold getitem, ret, raise. destruct (d !! k); simpl; split.
  - discriminate.
  - intros [E _]; discriminate E.
  - intros [= <-]; auto.
  - intros [_ ->]; reflexivity.
Qed.

Lemma index_inr (l : list string) (x : string) (i : nat) :
  index (F := F) l x = inr i <-> index_of l x = Some i.
Proof.
  unfold index, ret, raise. destruct (index_of l x); simpl; split; intros E;
    try discriminate; congruence.
Qed.

Lemma index_of_Some (l : list string) (x : string) (i : nat) :
  index_of l x = Some i -> l !! i = Some x /\ forall j, (j < i)%nat -> l !! j <> Some x.
Proof.
  revert i. induction l as [| y l IH]; intros i; simpl; [discriminate |].
  destruct (decide (y = x)) as [-> | Hne].
  - intros [= <-]. split; [reflexivity | intros j Hj; lia].
  - destruct (index_of l x) as [k |] eqn:Hk; simpl; [| discriminate].
    intros [= <-]. destruct (IH k eq_refl) as [H1 H2]. split; [exact H1 |].
    intros [| j] Hj; simpl; [intros [= E]; congruence | apply H2; lia].
Qed.

Lemma index_of_None (l : list string) (x : string) :
  index_of l x = None <-> x ∉ l.
Proof.
  induction l as [| y l IH]; simpl.
  - split; [intros _; apply not_elem_of_nil | reflexivity].
  - destruct (decide (y = x)) as [-> | Hne].
    + split; [discriminate | intros Hn; exfalso; apply Hn; left].
    + destruct (index_of l x) eqn:Hk; simpl.
      * split; [discriminate |]. intros Hn. exfalso.
        assert (Hin : x ∈ l).
        { destruct (decide (x ∈ l)) as [Hin | Hnin]; [exact Hin |].
          apply IH in Hnin. discriminate Hnin. }
        apply Hn. right. exact Hin.
      * split; [| reflexivity]. intros _ Hin.
        apply elem_of_cons in Hin as [-> | Hin]; [congruence |].
        apply (proj1 IH eq_refl Hin).
Qed.

Lemma index_of_is_Some (l : list string) (x : string) :
  x ∈ l -> is_Some (index_of l x).
Proof.
  intros Hin. destruct (index_of l x) eqn:E; [eauto |].
  apply index_of_None in E. contradiction.
Qed.

(** [set_slope] writes the two G1 points of the anchor and nothing else. *)
Lemma set_slope_inr (self s' : Airfoil F) (ap : AnchorPoint F) :
  set_slope self ap = inr s' ->
  exists gm gp,
    s' = set_g1_points self (<[ap_name ap := gm]> (g1_minus_points self))
           (<[ap_name ap := gp]> (g1_plus_points self)).
Proof.
  unfold set_slope. intros E. inv_bind E.
  destruct (a <? a0)%nat; inv_bind E; subst; eauto.
Qed.

(** [set_curvature] writes the two G2 points of the anchor and nothing else. *)
Lemma set_curvature_inr (self s' : Airfoil F) (ap : AnchorPoint F) :
  set_curvature self ap = inr s' ->
  exists gm gp,
    s' = set_g2_points self (<[ap_name ap := gm]> (g2_minus_points self))
           (<[ap_name ap := gp]> (g2_plus_points self)).
Proof.
  unfold set_curvature. intros E.
  destruct (is_inf (value (ap_R ap))).
  - inv_bind E. subst. eauto.
  - inv_bind E. destruct (f0 <? value (ap_R ap))%fl; inv_bind E; subst; eauto.
Qed.

End Reads.

(** * The dirty flag (C9) *)

Section Flag.
Context {F : Type} `{PyFloat F}.

Lemma update_clean (self s' : Airfoil F) :
  update self = inr s' -> needs_update s' = false.
Proof. unfold update. intros E. inv_bind E. subst. reflexivity. Qed.

Lemma assemble_clean nt b apt fpt o (s' : Airfoil F) :
  assemble nt b apt fpt o = inr s' -> needs_update s' = false.
Proof. unfold assemble. intros E. inv_bind E. eapply update_clean, E. Qed.

(** C9 (amended): the flag is true right after [add_anchor_point],
    [add_free_point], [translate] and [rotate]; it is false right after
    [update], and therefore right after construction and [override], which
    both finish by calling [update].  No other method clears it:
    [add_anchor_points] and [add_free_points] set it, and [set_slope],
    [set_curvature], [extract_parameters], [order_control_points],
    [update_anchor_point_array] and [generate_airfoil_coordinates] leave it
    as they found it. *)
Theorem needs_update_after_each_operation (self : Airfoil F) :
  (forall ap s', add_anchor_point self ap = inr s' -> needs_update s' = true)
  /\ (forall fp s', add_free_point self fp = inr s' -> needs_update s' = true)
  /\ (forall dx dy, needs_update (translate self dx dy) = true)
  /\ (forall angle, needs_update (rotate self angle) = true)
  /\ (forall s', update self = inr s' -> needs_update s' = false)
  /\ (forall parameters s',
        Airfoil_override self parameters = inr s' -> needs_update s' = false)
  /\ (forall n b apt fpt o s',
        Airfoil_init n b apt fpt o = inr s' -> needs_update s' = false)
  /\ (forall s', add_anchor_points self = inr s' -> needs_update s' = true)
  /\ (forall s', add_free_points self = inr s' -> needs_update s' = true)
  /\ (forall ap s',
        set_slope self ap = inr s' -> needs_update s' = needs_update self)
  /\ (forall ap s',
        set_curvature self ap = inr s' -> needs_update s' = needs_update self)
  /\ needs_update (extract_parameters self) = needs_update self
  /\ (forall s',
        order_control_points self = inr s' ->
        needs_update s' = needs_update self)
  /\ (forall s',
        update_anchor_point_array self = inr s' ->
        needs_update s' = needs_update self)
  /\ (forall s',
        generate_airfoil_coordinates self = inr s' ->
        needs_update s' = needs_update self).
Proof.
  assert (Hinit : forall n b apt fpt o (s' : Airfoil F),
             Airfoil_init n b apt fpt o = inr s' -> needs_update s' = false).
  { intros n b apt fpt o s' E. unfold Airfoil_init in E. inv_bind E.
    destruct a as [[b' apt'] fpt']. eapply assemble_clean, E. }
  repeat split.
  - intros ap s' E. unfold add_anchor_point in E. inv_bind E. subst. reflexivity.
  - intros fp s' E. unfold add_free_point in E. inv_bind E. subst. reflexivity.
  - intros s'. apply update_clean.
  - intros parameters s'. apply Hinit.
  - exact Hinit.
  - intros s' E. unfold add_anchor_points in E. inv_bind E. subst. reflexivity.
  - intros s' E. unfold add_free_points in E. inv_bind E. subst. reflexivity.
  - intros ap s' E. apply set_slope_inr in E as (gm & gp & ->). reflexivity.
  - intros ap s' E. apply set_curvature_inr in E as (gm & gp & ->). reflexivity.
  - intros s' E. unfold order_control_points in E. inv_bind E. subst.
    reflexivity.
  - intros s' E. unfold update_anchor_point_array in E. inv_bind E. subst.
    reflexivity.
  - intros s' E. unfold generate_airfoil_coordinates in E. inv_bind E. subst.
    reflexivity.
Qed.

End Flag.

(** * The curvature solve (C4, C5) *)

Section Curvature.
Context {F : Type} `{PyFloat F}.

#[local] Abbreviation point := (F * F)%type.

(** On the minus side the code computes the formula of the specification. *)
Lemma g2_minus_solve_stated (R : F) (n : nat) (theta : F) (a g1 : point) :
  g2_minus_solve R n theta a g1 = stated_g2 R n theta a g1.
Proof. destruct a, g1. reflexivity. Qed.

(** With an infinite radius [set_curvature] copies the G1 points. *)
Lemma set_curvature_infinite (self : Airfoil F) (ap : AnchorPoint F) (gm gp : point) :
  is_inf (value (ap_R ap)) = true ->
  g1_minus_points self !! ap_name ap = Some gm ->
  g1_plus_points self !! ap_name ap = Some gp ->
  set_curvature self ap
  = inr (set_g2_points self (<[ap_name ap := gm]> (g2_minus_points self))
           (<[ap_name ap := gp]> (g2_plus_points self))).
Proof.
  intros Hinf Hm Hp. unfold set_curvature. rewrite Hinf.
  apply (getitem_inr (F := F)) in Hm, Hp. rewrite Hm. simpl. rewrite Hp. reflexivity.
Qed.

(** With a finite radius it stores the two closed forms. *)
Lemma set_curvature_finite (self : Airfoil F) (ap : AnchorPoint F)
  (i : nat) (prev : string) (n1 n2 : nat) (gm gp : point) :
  is_inf (value (ap_R ap)) = false ->
  index_of (anchor_point_order self) (ap_name ap) = Some i ->
  list_getitem (F := F) (anchor_point_order self) (Z.of_nat i - 1) = inr prev ->
  af_N self !! prev = Some n1 ->
  af_N self !! ap_name ap = Some n2 ->
  g1_minus_points self !! ap_name ap = Some gm ->
  g1_plus_points self !! ap_name ap = Some gp ->
  let R := value (ap_R ap) in
  let theta1 := if (f0 <? R)%fl then value (ap_psi1 ap)
                else (np_pi - value (ap_psi1 ap))%fl in
  let theta2 := if (f0 <? R)%fl then (- value (ap_psi2 ap))%fl
                else (np_pi + value (ap_psi2 ap))%fl in
  set_curvature self ap
  = inr (set_g2_points self
           (<[ap_name ap := g2_minus_solve R n1 theta1 (ap_xy ap) gm]>
              (g2_minus_points self))
           (<[ap_name ap := g2_plus_solve R n2 theta2 (ap_xy ap) gp]>
              (g2_plus_points self))).
Proof.
  intros Hinf Hi Hprev Hn1 Hn2 Hm Hp R theta1 theta2.
  unfold set_curvature. rewrite Hinf.
  apply (index_inr (F := F)) in Hi. apply (getitem_inr (F := F)) in Hn1, Hn2, Hm, Hp.
  rewrite Hi. simpl. rewrite Hprev. simpl. rewrite Hn1. simpl.
  rewrite Hn2. simpl. subst theta1 theta2 R.
  destruct (f0 <? value (ap_R ap))%fl; rewrite Hm; simpl; rewrite Hp; reflexivity.
Qed.

Lemma set_curvature_finite_inr (self s' : Airfoil F) (ap : AnchorPoint F) :
  is_inf (value (ap_R ap)) = false ->
  set_curvature self ap = inr s' ->
  exists i prev n1 n2 gm gp,
    index_of (anchor_point_order self) (ap_name ap) = Some i
    /\ list_getitem (F := F) (anchor_point_order self) (Z.of_nat i - 1) = inr prev
    /\ af_N self !! prev = Some n1
    /\ af_N self !! ap_name ap = Some n2
    /\ g1_minus_points self !! ap_name ap = Some gm
    /\ g1_plus_points self !! ap_name ap = Some gp.
Proof.
  intros Hinf E. unfold set_curvature in E. rewrite Hinf in E.
  apply bind_inr in E as (i & Hi & E).
  apply bind_inr in E as (prev & Hprev & E).
  apply bind_inr in E as (n1 & Hn1 & E).
  apply bind_inr in E as (n2 & Hn2 & E).
  apply (index_inr (F := F)) in Hi. apply (getitem_inr (F := F)) in Hn1, Hn2.
  exists i, prev, n1, n2.
  destruct (f0 <? value (ap_R ap))%fl;
    apply bind_inr in E as (gm & Hm & E);
    apply bind_inr in E as (gp & Hp & E);
    apply (getitem_inr (F := F)) in Hm, Hp; exists gm, gp; auto 10.
Qed.

(** The closed forms of [set_curvature_le]. *)
Lemma set_curvature_le_finite_inr (self : Airfoil F) (g2 : point * point) :
  is_inf (value (R_le (base_airfoil_params self))) = false ->
  set_curvature_le self = inr g2 ->
  exists i prev n1 n2 a gm gp,
    index_of (anchor_point_order self) "le" = Some i
    /\ list_getitem (F := F) (anchor_point_order self) (Z.of_nat i - 1) = inr prev
    /\ af_N self !! prev = Some n1
    /\ af_N self !! "le" = Some n2
    /\ anchor_points self !! "le" = Some a
    /\ g1_minus_points self !! "le" = Some gm
    /\ g1_plus_points self !! "le" = Some gp
    /\ g2 = (g2_minus_solve (value (R_le (base_airfoil_params self))) n1
               (value (psi1_le (base_airfoil_params self))) a gm,
             g2_plus_solve (value (R_le (base_airfoil_params self))) n2
               (- value (psi2_le (base_airfoil_params self)))%fl a gp).
Proof.
  intros Hinf E. unfold set_curvature_le in E. rewrite Hinf in E.
  apply bind_inr in E as (i & Hi & E).
  apply bind_inr in E as (prev & Hprev & E).
  apply bind_inr in E as (n1 & Hn1 & E).
  apply bind_inr in E as (n2 & Hn2 & E).
  apply bind_inr in E as (a & Ha & E).
  apply bind_inr in E as (gm & Hm & E).
  apply bind_inr in E as (gp & Hp & E).
  apply (index_inr (F := F)) in Hi. apply (getitem_inr (F := F)) in Hn1, Hn2, Ha, Hm, Hp.
  injection E as <-.
  exists i, prev, n1, n2, a, gm, gp. auto 10.
Qed.

End Curvature.

Section CurvatureClaims.
Context {F : Type} `{PyFloat F}.

#[local] Abbreviation point := (F * F)%type.

(** C5 (amended): when the requested curvature radius is [+inf], the value
    the source tests with [R == np.inf] and [is_inf] stands for, the G2
    support point on each side is the G1 support point of that side, for an
    anchor point ([set_curvature], also as the last step of
    [add_anchor_point]) and for the leading edge ([set_curvature_le]); the
    call returns as soon as the two G1 points exist and takes neither the
    chain nor the order table into account. *)
Theorem infinite_radius_g2_is_g1 (self : Airfoil F) (ap : AnchorPoint F) :
  (is_inf (value (ap_R ap)) = true ->
   (forall gm gp,
       g1_minus_points self !! ap_name ap = Some gm ->
       g1_plus_points self !! ap_name ap = Some gp ->
       set_curvature self ap
       = inr (set_g2_points self (<[ap_name ap := gm]> (g2_minus_points self))
                (<[ap_name ap := gp]> (g2_plus_points self))))
   /\ (forall s',
         set_curvature self ap = inr s' \/ add_anchor_point self ap = inr s' ->
         is_Some (g2_minus_points s' !! ap_name ap)
         /\ is_Some (g2_plus_points s' !! ap_name ap)
         /\ g2_minus_points s' !! ap_name ap = g1_minus_points s' !! ap_name ap
         /\ g2_plus_points s' !! ap_name ap = g1_plus_points s' !! ap_name ap))
  /\ (is_inf (value (R_le (base_airfoil_params self))) = true ->
      (forall gm gp,
          g1_minus_points self !! "le" = Some gm ->
          g1_plus_points self !! "le" = Some gp ->
          set_curvature_le self = inr (gm, gp))
      /\ (forall g2,
            set_curvature_le self = inr g2 ->
            g1_minus_points self !! "le" = Some (fst g2)
            /\ g1_plus_points self !! "le" = Some (snd g2))).
Proof.
  assert (Hcopy : forall (st s' : Airfoil F),
             is_inf (value (ap_R ap)) = true ->
             set_curvature st ap = inr s' ->
             is_Some (g2_minus_points s' !! ap_name ap)
             /\ is_Some (g2_plus_points s' !! ap_name ap)
             /\ g2_minus_points s' !! ap_name ap = g1_minus_points s' !! ap_name ap
             /\ g2_plus_points s' !! ap_name ap = g1_plus_points s' !! ap_name ap).
  { intros st s' Hinf E. unfold set_curvature in E. rewrite Hinf in E.
    apply bind_inr in E as (gm & Hm & E).
    apply bind_inr in E as (gp & Hp & E).
    apply (getitem_inr (F := F)) in Hm, Hp. injection E as <-. simpl.
    rewrite !lookup_insert_eq, Hm, Hp. eauto. }
  split.
  - intros Hinf. split.
    + intros gm gp. apply set_curvature_infinite, Hinf.
    + intros s' [E | E]; [eapply Hcopy; eauto |].
      unfold add_anchor_point in E. inv_bind E. subst s'. simpl.
      eapply Hcopy; eauto.
  - intros Hinf. split.
    + intros gm gp Hm Hp. unfold set_curvature_le. rewrite Hinf.
      apply (getitem_inr (F := F)) in Hm, Hp. rewrite Hm. simpl. rewrite Hp.
      reflexivity.
    + intros g2 E. unfold set_curvature_le in E. rewrite Hinf in E.
      apply bind_inr in E as (gm & Hm & E).
      apply bind_inr in E as (gp & Hp & E).
      apply (getitem_inr (F := F)) in Hm, Hp. injection E as <-. auto.
Qed.

(** C4 (amended): for a finite radius the G2 support points are the closed
    forms below.  On the minus side this is the formula of the
    specification, with [theta1 = psi1] when [R > 0] and [pi - psi1]
    otherwise; on the plus side the differences in the cube and in the
    denominator are taken the other way round, [(anchor.x - g1.x) *
    tan(theta2) + g1.y - anchor.y], with [theta2 = -psi2] when [R > 0] and
    [pi + psi2] otherwise.  The leading edge uses [psi1_le] and [-psi2_le]
    whatever the sign of its radius.  [n1] is the order of the segment
    ending at the anchor and [n2] that of the segment leaving it. *)
Theorem finite_radius_g2_closed_forms (self : Airfoil F) (ap : AnchorPoint F) :
  (forall s',
      is_inf (value (ap_R ap)) = false ->
      set_curvature self ap = inr s' ->
      exists i prev n1 n2 gm gp,
        index_of (anchor_point_order self) (ap_name ap) = Some i
        /\ list_getitem (F := F) (anchor_point_order self) (Z.of_nat i - 1) = inr prev
        /\ af_N self !! prev = Some n1
        /\ af_N self !! ap_name ap = Some n2
        /\ g1_minus_points self !! ap_name ap = Some gm
        /\ g1_plus_points self !! ap_name ap = Some gp
        /\ let R := value (ap_R ap) in
           let theta1 := if (f0 <? R)%fl then value (ap_psi1 ap)
                         else (np_pi - value (ap_psi1 ap))%fl in
           let theta2 := if (f0 <? R)%fl then (- value (ap_psi2 ap))%fl
                         else (np_pi + value (ap_psi2 ap))%fl in
           let x0 := value (ap_x ap) in
           let y0 := value (ap_y ap) in
           let xm := (fst gm
                      - f1 / R * pow_3_2 (sq (x0 - fst gm) + sq (y0 - snd gm))
                        / (f1 - f1 / of_Z (Z.of_nat n1))
                        / ((fst gm - x0) * np_tan theta1 + y0 - snd gm))%fl in
           let xp := (fst gp
                      - f1 / R * pow_3_2 (sq (fst gp - x0) + sq (snd gp - y0))
                        / (f1 - f1 / of_Z (Z.of_nat n2))
                        / ((x0 - fst gp) * np_tan theta2 + snd gp - y0))%fl in
           g2_minus_points s' !! ap_name ap
           = Some (xm, (np_tan theta1 * (xm - fst gm) + snd gm)%fl)
           /\ g2_plus_points s' !! ap_name ap
              = Some (xp, (np_tan theta2 * (xp - fst gp) + snd gp)%fl)
           /\ g2_minus_points s' !! ap_name ap
              = Some (stated_g2 R n1 theta1 (x0, y0) gm))
  /\ (forall g2,
        is_inf (value (R_le (base_airfoil_params self))) = false ->
        set_curvature_le self = inr g2 ->
        exists i prev n1 n2 a gm gp,
          index_of (anchor_point_order self) "le" = Some i
          /\ list_getitem (F := F) (anchor_point_order self) (Z.of_nat i - 1) = inr prev
          /\ af_N self !! prev = Some n1
          /\ af_N self !! "le" = Some n2
          /\ anchor_points self !! "le" = Some a
          /\ g1_minus_points self !! "le" = Some gm
          /\ g1_plus_points self !! "le" = Some gp
          /\ let R := value (R_le (base_airfoil_params self)) in
             let theta1 := value (psi1_le (base_airfoil_params self)) in
             let theta2 := (- value (psi2_le (base_airfoil_params self)))%fl in
             let xm := (fst gm
                        - f1 / R * pow_3_2 (sq (fst a - fst gm) + sq (snd a - snd gm))
                          / (f1 - f1 / of_Z (Z.of_nat n1))
                          / ((fst gm - fst a) * np_tan theta1 + snd a - snd gm))%fl in
             let xp := (fst gp
                        - f1 / R * pow_3_2 (sq (fst gp - fst a) + sq (snd gp - snd a))
                          / (f1 - f1 / of_Z (Z.of_nat n2))
                          / ((fst a - fst gp) * np_tan theta2 + snd gp - snd a))%fl in
             g2 = ((xm, (np_tan theta1 * (xm - fst gm) + snd gm)%fl),
                   (xp, (np_tan theta2 * (xp - fst gp) + snd gp)%fl))
             /\ fst g2 = stated_g2 R n1 theta1 a gm).
Proof.
  split.
  - intros s' Hinf E.
    destruct (set_curvature_finite_inr self s' ap Hinf E)
      as (i & prev & n1 & n2 & gm & gp & Hi & Hprev & Hn1 & Hn2 & Hm & Hp).
    exists i, prev, n1, n2, gm, gp.
    repeat (split; [assumption |]).
    pose proof (set_curvature_finite self ap i prev n1 n2 gm gp
                  Hinf Hi Hprev Hn1 Hn2 Hm Hp) as Eq.
    cbv zeta in Eq. rewrite Eq in E. injection E as <-.
    cbv zeta. simpl. rewrite !lookup_insert_eq.
    destruct gm as [xm1 ym1], gp as [xp1 yp1]. unfold ap_xy. simpl.
    repeat split.
  - intros g2 Hinf E.
    destruct (set_curvature_le_finite_inr self g2 Hinf E)
      as (i & prev & n1 & n2 & a & gm & gp
          & Hi & Hprev & Hn1 & Hn2 & Ha & Hm & Hp & ->).
    exists i, prev, n1, n2, a, gm, gp.
    repeat (split; [assumption |]).
    destruct a as [x0 y0], gm as [xm1 ym1], gp as [xp1 yp1]. simpl.
    split; reflexivity.
Qed.

End CurvatureClaims.

(** C5 (witness): adding a curvature-free anchor to the reference airfoil. *)
Lemma infinite_radius_g2_is_g1_witness :
  exists s',
    add_anchor_point flat_airfoil lower_fore = inr s'
    /\ g2_minus_points s' !! "lower_fore" = g1_minus_points s' !! "lower_fore"
    /\ g2_plus_points s' !! "lower_fore" = g1_plus_points s' !! "lower_fore".
Proof.
  assert (E : add_anchor_point flat_airfoil lower_fore
              = inr (built (add_anchor_point flat_airfoil lower_fore) blank_airfoil))
    by (vm_compute; reflexivity).
  assert (Hinf : is_inf (value (ap_R lower_fore)) = true)
    by (vm_compute; reflexivity).
  eexists. split; [exact E |].
  apply (proj2 (proj1 (infinite_radius_g2_is_g1 flat_airfoil lower_fore) Hinf)).
  right. exact E.
Defined.

(** C4 (witness): the anchor [lower] of the reference airfoil has radius 2. *)
Lemma finite_radius_g2_closed_forms_witness :
  exists s' n1 theta1 gm,
    set_curvature lowered_airfoil lower = inr s'
    /\ g2_minus_points s' !! "lower"
       = Some (stated_g2 2%float n1 theta1 (1%float, (-0.25)%float) gm).
Proof.
  assert (E : set_curvature lowered_airfoil lower
              = inr (built (set_curvature lowered_airfoil lower) blank_airfoil))
    by (vm_compute; reflexivity).
  assert (Hinf : is_inf (value (ap_R lower)) = false)
    by (vm_compute; reflexivity).
  destruct (proj1 (finite_radius_g2_closed_forms lowered_airfoil lower) _ Hinf E)
    as (i & prev & n1 & n2 & gm & gp & _ & _ & _ & _ & _ & _ & _ & _ & Hs).
  eexists _, n1, _, gm. split; [exact E | exact Hs].
Defined.

(** C4 (counterexample): on the plus side the code does not compute the
    formula of the specification.  For the anchor [crest] at [(1/2, 1)]
    with radius 1, order 5 and G1 point [(1/2, 0)], [set_curvature] stores
    [(7/4, 0)], the specification's formula gives [(-3/4, 0)]; the minus
    side agrees with the specification. *)
Lemma plus_side_is_not_the_stated_formula :
  exists s',
    set_curvature crest_state crest = inr s'
    /\ g2_plus_points s' !! "crest" = Some ((7/4)%R, 0%R)
    /\ stated_g2 1%R 5 (- 0)%R ((1/2)%R, 1%R) ((1/2)%R, 0%R) = ((-3/4)%R, 0%R)
    /\ g2_minus_points s' !! "crest"
       = Some (stated_g2 1%R 4 0%R ((1/2)%R, 1%R) ((1/2)%R, 2%R)).
Proof.
  assert (Hlt : Rltb 0 1 = true).
  { unfold Rltb. destruct (Rlt_dec 0 1); [reflexivity | lra]. }
  assert (Hone : R_sqrt.sqrt ((1/2 - 1/2) * (1/2 - 1/2) + (0 - 1) * (0 - 1)) = 1%R).
  { replace ((1/2 - 1/2) * (1/2 - 1/2) + (0 - 1) * (0 - 1))%R with 1%R by lra.
    apply sqrt_1. }
  assert (Hone' : R_sqrt.sqrt ((1/2 - 1/2) * (1/2 - 1/2) + (1 - 0) * (1 - 0)) = 1%R).
  { replace ((1/2 - 1/2) * (1/2 - 1/2) + (1 - 0) * (1 - 0))%R with 1%R by lra.
    apply sqrt_1. }
  assert (Htan : tan (- 0) = 0%R) by (rewrite Ropp_0; apply tan_0).
  pose proof (set_curvature_finite crest_state crest 1 "te_1" 4 5
                ((1/2)%R, 2%R) ((1/2)%R, 0%R)
                eq_refl eq_refl eq_refl eq_refl eq_refl eq_refl eq_refl) as E.
  cbv zeta in E. eexists. split; [exact E |].
  cbn [g2_plus_points g2_minus_points set_g2_points crest ap_name].
  rewrite !lookup_insert_eq.
  split; [| split].
  - f_equal. cbn. unfold Rleb, Rltb in *. rewrite Hlt. cbn.
    unfold sq. cbn. rewrite Hone, Htan. f_equal; field.
  - unfold stated_g2, sq. cbn. rewrite Hone', Htan. f_equal; field.
  - f_equal. rewrite g2_minus_solve_stated. cbn. rewrite Hlt. reflexivity.
Qed.

(** * The segment order table (C6) *)

Section OrderTable.
Context {F : Type} `{PyFloat F}.

Lemma list_getitem_penultimate {A} (pre : list A) (x y : A) :
  list_getitem (F := F) (pre ++ [x; y]) (-2) = inr x.
Proof.
  unfold list_getitem. rewrite length_app.
  change (-2 <? 0)%Z with true. cbn [length].
  replace (Z.of_nat (length pre + 2) + -2)%Z with (Z.of_nat (length pre)) by lia.
  destruct (Z.of_nat (length pre) <? 0)%Z eqn:E; [apply Z.ltb_lt in E; lia |].
  rewrite Nat2Z.id, lookup_app_r by lia.
  rewrite Nat.sub_diag. reflexivity.
Qed.

(** C6 (amended): a successful [add_anchor_point] inserts the name right
    after its predecessor.  When the new anchor then lies after the leading
    edge, [N['le']] is set to 5 and after that the entry of the
    second-to-last anchor of the chain, the start of the last segment, is
    set to 4; that entry is the new anchor's own whenever the new anchor was
    inserted directly in front of the final anchor.  Otherwise only the new
    anchor's entry is set, to 5.  No other entry changes. *)
Theorem add_anchor_point_order_table (self s' : Airfoil F) (ap : AnchorPoint F) :
  add_anchor_point self ap = inr s' ->
  exists i i_name i_le,
    index_of (anchor_point_order self) (ap_previous_anchor_point ap) = Some i
    /\ anchor_point_order s'
       = list_insert_at (i + 1) (ap_name ap) (anchor_point_order self)
    /\ index_of (anchor_point_order s') (ap_name ap) = Some i_name
    /\ index_of (anchor_point_order s') "le" = Some i_le
    /\ ((i_le < i_name)%nat ->
        exists last,
          list_getitem (F := F) (anchor_point_order s') (-2) = inr last
          /\ af_N s' = <[last := 4%nat]> (<["le" := 5%nat]> (af_N self))
          /\ (forall pre final,
                anchor_point_order s' = pre ++ [ap_name ap; final] ->
                af_N s' !! ap_name ap = Some 4%nat
                /\ af_N s' !! "le" = Some 5%nat))
    /\ ((i_name <= i_le)%nat ->
        af_N s' = <[ap_name ap := 5%nat]> (af_N self)).
Proof.
  intros E. unfold add_anchor_point in E.
  apply bind_inr in E as (i & Hi & E).
  apply bind_inr in E as (s1 & Hs1 & E).
  apply bind_inr in E as (i_name & Hname & E).
  apply bind_inr in E as (i_le & Hle & E).
  apply bind_inr in E as (s2 & Hs2 & E).
  apply bind_inr in E as (s3 & Hs3 & E).
  injection E as <-.
  apply set_slope_inr in Hs1 as (gm & gp & ->).
  apply set_curvature_inr in Hs3 as (gm2 & gp2 & ->).
  apply (index_inr (F := F)) in Hi, Hname, Hle. simpl in *.
  exists i, i_name, i_le.
  destruct (i_le <? i_name)%nat eqn:Hcmp.
  - apply Nat.ltb_lt in Hcmp.
    apply bind_inr in Hs2 as (last & Hlast & Hs2). injection Hs2 as <-.
    simpl in *. repeat (split; [assumption || reflexivity |]).
    split; [| intros Hge; lia].
    intros _. exists last. split; [exact Hlast |]. split; [reflexivity |].
    intros pre final Hshape. rewrite Hshape in Hlast.
    rewrite list_getitem_penultimate in Hlast. injection Hlast as <-.
    rewrite lookup_insert_eq. split; [reflexivity |].
    rewrite lookup_insert_ne, lookup_insert_eq; [reflexivity |].
    intros Heq. rewrite Heq in Hname, Hle. rewrite Hname in Hle.
    injection Hle as ->. lia.
  - apply Nat.ltb_ge in Hcmp. injection Hs2 as <-. simpl in *.
    repeat (split; [assumption || reflexivity |]).
    split; [intros Hlt; lia | intros _; reflexivity].
Qed.

End OrderTable.

(** C6 (witness): an anchor added to the bare reference airfoil after the
    leading edge, directly in front of [te_2]. *)
Lemma add_anchor_point_order_table_witness :
  exists s',
    add_anchor_point bare_airfoil lower = inr s'
    /\ anchor_point_order s' = ["te_1"; "le"; "lower"; "te_2"]
    /\ af_N s' !! "lower" = Some 4%nat
    /\ af_N s' !! "le" = Some 5%nat.
Proof.
  assert (E : add_anchor_point bare_airfoil lower = inr lowered_airfoil)
    by (vm_compute; reflexivity).
  assert (Horder : anchor_point_order lowered_airfoil
                   = ["te_1"; "le"] ++ [ap_name lower; "te_2"])
    by (vm_compute; reflexivity).
  destruct (add_anchor_point_order_table bare_airfoil lowered_airfoil lower E)
    as (i & i_name & i_le & _ & _ & Hname & Hle & Hafter & _).
  rewrite Horder in Hname, Hle. vm_compute in Hname, Hle.
  injection Hname as <-. injection Hle as <-.
  destruct (Hafter ltac:(lia)) as (last & _ & _ & Hshape).
  exists lowered_airfoil. split; [exact E |]. split; [exact Horder |].
  exact (Hshape _ _ Horder).
Defined.

(** * Handing out the override vector (C3) *)

Section Override.
Context {F : Type} `{PyFloat F}.

Lemma count_is_flatten_length (b : BaseAirfoilParams F) :
  count_overrideable_variables b = length (flatten (base_params b)).
Proof. unfold count_overrideable_variables, flatten. rewrite length_map. reflexivity. Qed.

Lemma slice_take_drop {A} (l : list A) (a n : nat) :
  slice l a (a + n) = take n (drop a l).
Proof. unfold slice. replace (a + n - a)%nat with n by lia. reflexivity. Qed.

Lemma length_take_drop {A} (l : list A) (a n : nat) :
  length (take n (drop a l)) = Nat.min n (length l - a).
Proof. rewrite length_take, length_drop. reflexivity. Qed.

Lemma base_override_ok (b : BaseAirfoilParams F) (ps : list F) :
  length ps = count_overrideable_variables b ->
  base_override b ps
  = inr (scale_vars (with_base_params b (assign_values (base_params b) ps))).
Proof.
  intros Hlen. unfold base_override.
  fold (count_overrideable_variables b). rewrite Hlen, Nat.eqb_refl. reflexivity.
Qed.

Lemma base_override_mismatch (b : BaseAirfoilParams F) (ps : list F) :
  length ps <> count_overrideable_variables b ->
  base_override b ps = inl (Exception base_mismatch).
Proof.
  intros Hlen. unfold base_override.
  fold (count_overrideable_variables b).
  apply Nat.eqb_neq in Hlen. rewrite Hlen. reflexivity.
Qed.

Lemma anchor_override_ok (a : AnchorPoint F) (ps : list F) :
  length ps = length (flatten (anchor_params a)) ->
  anchor_override a ps
  = inr (with_anchor_params a
           (scale_by (ap_length_scale_dimension a)
              (assign_values (anchor_params a) ps))).
Proof.
  intros Hlen. unfold anchor_override. rewrite Hlen, Nat.eqb_refl. reflexivity.
Qed.

Lemma anchor_override_mismatch (a : AnchorPoint F) (ps : list F) :
  length ps <> length (flatten (anchor_params a)) ->
  anchor_override a ps = inl (Exception anchor_mismatch).
Proof.
  intros Hlen. unfold anchor_override.
  apply Nat.eqb_neq in Hlen. rewrite Hlen. reflexivity.
Qed.

Lemma free_override_ok (p : FreePoint F) (ps : list F) :
  length ps = length (flatten (free_params p)) ->
  free_override p ps
  = inr (with_free_params p
           (scale_by (fp_length_scale_dimension p)
              (assign_values (free_params p) ps))).
Proof.
  intros Hlen. unfold free_override. rewrite Hlen, Nat.eqb_refl. reflexivity.
Qed.

Lemma free_override_mismatch (p : FreePoint F) (ps : list F) :
  length ps <> length (flatten (free_params p)) ->
  free_override p ps = inl (Exception free_mismatch).
Proof.
  intros Hlen. unfold free_override.
  apply Nat.eqb_neq in Hlen. rewrite Hlen. reflexivity.
Qed.

Lemma with_anchor_params_counter (a : AnchorPoint F) (ps : list (Param F)) :
  ap_n_overrideable_parameters (with_anchor_params a ps)
  = ap_n_overrideable_parameters a.
Proof.
  unfold with_anchor_params.
  do 9 (destruct ps as [| ? ps]; [reflexivity |]). reflexivity.
Qed.

Lemma with_free_params_counter (p : FreePoint F) (ps : list (Param F)) :
  fp_n_overrideable_parameters (with_free_params p ps)
  = fp_n_overrideable_parameters p.
Proof.
  unfold with_free_params.
  do 3 (destruct ps as [| ? ps]; [reflexivity |]). reflexivity.
Qed.

(** The number of values the anchor points, and the free points, take. *)
Lemma flat_map_cons_length {A} (f : A -> list F) (a : A) (l : list A) :
  length (flat_map f (a :: l)) = (length (f a) + length (flat_map f l))%nat.
Proof. simpl. apply length_app. Qed.

Lemma override_anchor_points_ok (b : BaseAirfoilParams F) (ps : list F)
  (aps : list (AnchorPoint F)) (start : nat) :
  Forall counted_anchor aps ->
  (start + length (flat_map (fun a => flatten (anchor_params a)) aps)
   <= length ps)%nat ->
  override_anchor_points b ps start aps
  = inr (fst (consume_anchor_points b aps (drop start ps)),
         (start + length (flat_map (fun a => flatten (anchor_params a)) aps))%nat)
  /\ snd (consume_anchor_points b aps (drop start ps))
     = drop (start + length (flat_map (fun a => flatten (anchor_params a)) aps)) ps.
Proof.
  intros Hc. revert start. induction Hc as [| a aps Ha Hc IH]; intros start Hlen.
  - simpl. rewrite Nat.add_0_r. auto.
  - rewrite flat_map_cons_length in Hlen |- *.
    cbn [override_anchor_points consume_anchor_points].
    set (a' := if non_dim_by_chord b then set_anchor_scale a (value (c b)) else a).
    assert (Hpar : anchor_params a' = anchor_params a)
      by (unfold a'; destruct (non_dim_by_chord b); reflexivity).
    assert (Hn : ap_n_overrideable_parameters a' = length (flatten (anchor_params a)))
      by (unfold a'; destruct (non_dim_by_chord b); exact Ha).
    rewrite Hn, slice_take_drop, Hpar.
    rewrite anchor_override_ok
      by (rewrite Hpar, length_take_drop; lia).
    cbn [bind]. rewrite with_anchor_params_counter, Hn, Hpar.
    destruct (IH (start + length (flatten (anchor_params a)))%nat) as [E1 E2];
      [lia |].
    rewrite E1. cbn [bind fst snd ret].
    rewrite drop_drop. rewrite E2.
    replace (start + length (flatten (anchor_params a))
             + length (flat_map (fun a0 => flatten (anchor_params a0)) aps))%nat
      with (start + (length (flatten (anchor_params a))
                     + length (flat_map (fun a0 => flatten (anchor_params a0)) aps)))%nat
      by lia.
    split; reflexivity.
Qed.

Lemma override_anchor_points_short (b : BaseAirfoilParams F) (ps : list F)
  (aps : list (AnchorPoint F)) (start : nat) :
  Forall counted_anchor aps ->
  (start <= length ps)%nat ->
  (length ps
   < start + length (flat_map (fun a => flatten (anchor_params a)) aps))%nat ->
  exists msg, override_anchor_points b ps start aps = inl (Exception msg).
Proof.
  intros Hc. revert start. induction Hc as [| a aps Ha Hc IH]; intros start Hs Hlen.
  - simpl in Hlen. lia.
  - rewrite flat_map_cons_length in Hlen.
    cbn [override_anchor_points].
    set (a' := if non_dim_by_chord b then set_anchor_scale a (value (c b)) else a).
    assert (Hpar : anchor_params a' = anchor_params a)
      by (unfold a'; destruct (non_dim_by_chord b); reflexivity).
    assert (Hn : ap_n_overrideable_parameters a' = length (flatten (anchor_params a)))
      by (unfold a'; destruct (non_dim_by_chord b); exact Ha).
    rewrite Hn, slice_take_drop.
    destruct (decide (start + length (flatten (anchor_params a)) <= length ps)%nat)
      as [Hfit | Hshort].
    + rewrite anchor_override_ok
        by (rewrite Hpar, length_take_drop; lia).
      cbn [bind]. rewrite with_anchor_params_counter, Hn.
      destruct (IH (start + length (flatten (anchor_params a)))%nat) as [msg E];
        [lia | lia |].
      rewrite E. eauto.
    + rewrite anchor_override_mismatch
        by (rewrite Hpar, length_take_drop; lia).
      eauto.
Qed.

Lemma override_free_points_ok (b : BaseAirfoilParams F) (ps : list F)
  (fps : list (FreePoint F)) (start : nat) :
  Forall counted_free fps ->
  (start + length (flat_map (fun p => flatten (free_params p)) fps)
   <= length ps)%nat ->
  override_free_points b ps start fps
  = inr (fst (consume_free_points b fps (drop start ps)),
         (start + length (flat_map (fun p => flatten (free_params p)) fps))%nat).
Proof.
  intros Hc. revert start. induction Hc as [| a aps Ha Hc IH]; intros start Hlen.
  - simpl. rewrite Nat.add_0_r. auto.
  - rewrite flat_map_cons_length in Hlen |- *.
    cbn [override_free_points consume_free_points].
    set (a' := if non_dim_by_chord b then set_free_scale a (value (c b)) else a).
    assert (Hpar : free_params a' = free_params a)
      by (unfold a'; destruct (non_dim_by_chord b); reflexivity).
    assert (Hn : fp_n_overrideable_parameters a' = length (flatten (free_params a)))
      by (unfold a'; destruct (non_dim_by_chord b); exact Ha).
    rewrite Hn, slice_take_drop, Hpar.
    rewrite free_override_ok
      by (rewrite Hpar, length_take_drop; lia).
    cbn [bind]. rewrite with_free_params_counter, Hn, Hpar.
    rewrite (IH (start + length (flatten (free_params a)))%nat) by lia.
    cbn [bind fst snd ret].
    rewrite drop_drop.
    replace (start + length (flatten (free_params a))
             + length (flat_map (fun p => flatten (free_params p)) aps))%nat
      with (start + (length (flatten (free_params a))
                     + length (flat_map (fun p => flatten (free_params p)) aps)))%nat
      by lia.
    reflexivity.
Qed.

Lemma override_free_points_short (b : BaseAirfoilParams F) (ps : list F)
  (fps : list (FreePoint F)) (start : nat) :
  Forall counted_free fps ->
  (start <= length ps)%nat ->
  (length ps
   < start + length (flat_map (fun p => flatten (free_params p)) fps))%nat ->
  exists msg, override_free_points b ps start fps = inl (Exception msg).
Proof.
  intros Hc. revert start. induction Hc as [| a aps Ha Hc IH]; intros start Hs Hlen.
  - simpl in Hlen. lia.
  - rewrite flat_map_cons_length in Hlen.
    cbn [override_free_points].
    set (a' := if non_dim_by_chord b then set_free_scale a (value (c b)) else a).
    assert (Hpar : free_params a' = free_params a)
      by (unfold a'; destruct (non_dim_by_chord b); reflexivity).
    assert (Hn : fp_n_overrideable_parameters a' = length (flatten (free_params a)))
      by (unfold a'; destruct (non_dim_by_chord b); exact Ha).
    rewrite Hn, slice_take_drop.
    destruct (decide (start + length (flatten (free_params a)) <= length ps)%nat)
      as [Hfit | Hshort].
    + rewrite free_override_ok
        by (rewrite Hpar, length_take_drop; lia).
      cbn [bind]. rewrite with_free_params_counter, Hn.
      destruct (IH (start + length (flatten (free_params a)))%nat) as [msg E];
        [lia | lia |].
      rewrite E. eauto.
    + rewrite free_override_mismatch
        by (rewrite Hpar, length_take_drop; lia).
      eauto.
Qed.

(** Consumption reads only as many values as the objects take. *)
Lemma drop_take_sub {A} (l : list A) (n m : nat) :
  (n <= m)%nat -> drop n (take m l) = take (m - n) (drop n l).
Proof.
  intros Hle. rewrite take_drop_commute.
  replace (n + (m - n))%nat with m by lia. reflexivity.
Qed.

Lemma take_take_le {A} (l : list A) (n m : nat) :
  (n <= m)%nat -> take n (take m l) = take n l.
Proof. intros Hle. rewrite take_take. f_equal. lia. Qed.

Lemma consume_anchor_points_take (b : BaseAirfoilParams F)
  (aps : list (AnchorPoint F)) (vs : list F) (m : nat) :
  (length (flat_map (fun a => flatten (anchor_params a)) aps) <= m)%nat ->
  fst (consume_anchor_points b aps (take m vs))
  = fst (consume_anchor_points b aps vs)
  /\ snd (consume_anchor_points b aps (take m vs))
     = take (m - length (flat_map (fun a => flatten (anchor_params a)) aps))
         (snd (consume_anchor_points b aps vs)).
Proof.
  revert vs m. induction aps as [| a aps IH]; intros vs m Hm.
  - simpl. rewrite Nat.sub_0_r. auto.
  - rewrite flat_map_cons_length in Hm |- *.
    cbn [consume_anchor_points fst snd].
    set (a' := if non_dim_by_chord b then set_anchor_scale a (value (c b)) else a).
    assert (Hpar : anchor_params a' = anchor_params a)
      by (unfold a'; destruct (non_dim_by_chord b); reflexivity).
    rewrite Hpar.
    rewrite take_take_le, drop_take_sub by lia.
    destruct (IH (drop (length (flatten (anchor_params a))) vs)
                (m - length (flatten (anchor_params a)))%nat) as [E1 E2]; [lia |].
    rewrite E1, E2. split; [reflexivity |]. f_equal. lia.
Qed.

Lemma consume_free_points_take (b : BaseAirfoilParams F)
  (fps : list (FreePoint F)) (vs : list F) (m : nat) :
  (length (flat_map (fun p => flatten (free_params p)) fps) <= m)%nat ->
  fst (consume_free_points b fps (take m vs))
  = fst (consume_free_points b fps vs).
Proof.
  revert vs m. induction fps as [| a aps IH]; intros vs m Hm.
  - reflexivity.
  - rewrite flat_map_cons_length in Hm.
    cbn [consume_free_points fst snd].
    set (a' := if non_dim_by_chord b then set_free_scale a (value (c b)) else a).
    assert (Hpar : free_params a' = free_params a)
      by (unfold a'; destruct (non_dim_by_chord b); reflexivity).
    rewrite Hpar.
    rewrite take_take_le, drop_take_sub by lia.
    rewrite (IH (drop (length (flatten (free_params a))) vs)
               (m - length (flatten (free_params a)))%nat) by lia.
    reflexivity.
Qed.

Lemma consume_take (b : BaseAirfoilParams F) (apt : list (AnchorPoint F))
  (fpt : list (FreePoint F)) (vs : list F) :
  consume b apt fpt (take (total_overrideable b apt fpt) vs) = consume b apt fpt vs.
Proof.
  unfold consume, consume_base, total_overrideable. cbn [fst snd].
  rewrite <- count_is_flatten_length.
  set (n := count_overrideable_variables b).
  set (ta := length (flat_map (fun a => flatten (anchor_params a)) apt)).
  set (tf := length (flat_map (fun p => flatten (free_params p)) fpt)).
  rewrite take_take_le, drop_take_sub by lia.
  set (b' := scale_vars (with_base_params b (assign_values (base_params b) (take n vs)))).
  destruct (consume_anchor_points_take b' apt (drop n vs) (n + ta + tf - n)%nat)
    as [E1 E2]; [fold ta; lia |].
  rewrite E1, E2. fold ta.
  rewrite consume_free_points_take by (fold tf; lia).
  reflexivity.
Qed.

End Override.

Section OverrideClaim.
Context {F : Type} `{PyFloat F}.

(** What [apply_overrides] does with a vector, by its length. *)
Lemma apply_overrides_by_length (b : BaseAirfoilParams F)
  (apt : list (AnchorPoint F)) (fpt : list (FreePoint F)) (ovr : list F) :
  counted_base b -> Forall counted_anchor apt -> Forall counted_free fpt ->
  ((length ovr < total_overrideable b apt fpt)%nat ->
   exists msg, apply_overrides b apt fpt (Some ovr) = inl (Exception msg))
  /\ ((total_overrideable b apt fpt <= length ovr)%nat ->
      apply_overrides b apt fpt (Some ovr) = inr (consume b apt fpt ovr)).
Proof.
  intros Hb Ha Hf. unfold total_overrideable, apply_overrides, consume, consume_base.
  rewrite <- count_is_flatten_length.
  remember (count_overrideable_variables b) as n eqn:En.
  remember (length (flat_map (fun a => flatten (anchor_params a)) apt)) as ta eqn:Eta.
  remember (length (flat_map (fun p => flatten (free_params p)) fpt)) as tf eqn:Etf.
  red in Hb. rewrite Hb, <- En.
  assert (Hslice : slice ovr 0 n = take n ovr).
  { unfold slice. rewrite Nat.sub_0_r, drop_0. reflexivity. }
  rewrite Hslice.
  remember (scale_vars (with_base_params b (assign_values (base_params b) (take n ovr))))
    as b' eqn:Eb'.
  assert (Hn' : n_overrideable_parameters b' = n).
  { rewrite Eb', (proj2 (scale_vars_flags _)).
    rewrite (proj2 (with_base_params_flags _ _)). congruence. }
  destruct (decide (n <= length ovr)%nat) as [Hfit | Hshort].
  - rewrite base_override_ok by (rewrite length_take, <- En; lia).
    rewrite <- Eb'. cbn [bind]. rewrite Hn'. cbn [Nat.add fst snd].
    split.
    + intros Hlen.
      destruct (decide (n + ta <= length ovr)%nat) as [Hfit2 | Hshort2].
      * destruct (override_anchor_points_ok b' ovr apt n Ha) as [E _];
          [rewrite <- Eta; exact Hfit2 |].
        rewrite E, <- Eta. cbn [bind snd].
        destruct (override_free_points_short b' ovr fpt (n + ta) Hf) as [msg E2];
          [lia | rewrite <- Etf; lia |].
        rewrite E2. eauto.
      * destruct (override_anchor_points_short b' ovr apt n Ha) as [msg E];
          [lia | rewrite <- Eta; lia |].
        rewrite E. eauto.
    + intros Hlen.
      destruct (override_anchor_points_ok b' ovr apt n Ha) as [E1 E2];
        [rewrite <- Eta; lia |].
      rewrite E1, E2, <- Eta. cbn [bind snd fst].
      rewrite override_free_points_ok
        by (assumption || (rewrite <- Etf; lia)).
      reflexivity.
  - rewrite base_override_mismatch by (rewrite length_take, <- En; lia).
    split; [eauto | intros Hlen; lia].
Qed.

(** [Airfoil.__init__] with a vector that is long enough. *)
Lemma override_vector_handed_out (number_coordinates : nat)
  (b : BaseAirfoilParams F) (apt : list (AnchorPoint F))
  (fpt : list (FreePoint F)) (ovr : list F) :
  counted_base b -> Forall counted_anchor apt -> Forall counted_free fpt ->
  ((length ovr < total_overrideable b apt fpt)%nat ->
   exists msg,
     Airfoil_init number_coordinates b apt fpt (Some ovr) = inl (Exception msg))
  /\ ((total_overrideable b apt fpt <= length ovr)%nat ->
      Airfoil_init number_coordinates b apt fpt (Some ovr)
      = (let '(b', apt', fpt') := consume b apt fpt ovr in
         assemble number_coordinates b' apt' fpt' (Some ovr))).
Proof.
  intros Hb Ha Hf.
  destruct (apply_overrides_by_length b apt fpt ovr Hb Ha Hf) as [Hshort Hfit].
  split.
  - intros Hlen. destruct (Hshort Hlen) as [msg E].
    exists msg. unfold Airfoil_init. rewrite E. reflexivity.
  - intros Hlen. unfold Airfoil_init. rewrite (Hfit Hlen). reflexivity.
Qed.

(** C3 (amended): with an override vector, construction (and so
    [Airfoil.override]) raises the length-mismatch exception of the first
    object left short when the vector has fewer values than there are active
    and unlinked parameters; a vector with at least that many values is
    accepted, its values are consumed front to back by the descriptor, then
    each anchor point in tuple order, then each free point in tuple order,
    each object re-applying its scaling, and values beyond the total are
    never read. *)
Theorem override_vector_is_handed_out_in_order (number_coordinates : nat)
  (b : BaseAirfoilParams F) (apt : list (AnchorPoint F))
  (fpt : list (FreePoint F)) (ovr : list F) :
  counted_base b -> Forall counted_anchor apt -> Forall counted_free fpt ->
  ((length ovr < total_overrideable b apt fpt)%nat ->
   exists msg,
     Airfoil_init number_coordinates b apt fpt (Some ovr) = inl (Exception msg))
  /\ ((total_overrideable b apt fpt <= length ovr)%nat ->
      Airfoil_init number_coordinates b apt fpt (Some ovr)
      = (let '(b', apt', fpt') := consume b apt fpt ovr in
         assemble number_coordinates b' apt' fpt' (Some ovr))
      /\ consume b apt fpt ovr
         = consume b apt fpt (take (total_overrideable b apt fpt) ovr)).
Proof.
  intros Hb Ha Hf.
  destruct (apply_overrides_by_length b apt fpt ovr Hb Ha Hf) as [Hshort Hfit].
  split.
  - intros Hlen. destruct (Hshort Hlen) as [msg E].
    exists msg. unfold Airfoil_init. rewrite E. reflexivity.
  - intros Hlen. split.
    + unfold Airfoil_init. rewrite (Hfit Hlen). reflexivity.
    + symmetry. apply consume_take.
Qed.

End OverrideClaim.

(** C3 (witness): the reference descriptor with one anchor and one free
    point has 26 active and unlinked parameters. *)
Lemma override_vector_is_handed_out_in_order_witness :
  (exists msg,
      Airfoil_init 3 reference_descriptor [lower] [bump]
        (Some (repeat 0.5%float 25)) = inl (Exception msg))
  /\ Airfoil_init 3 reference_descriptor [lower] [bump]
       (Some (repeat 0.5%float 27))
     = (let '(b', apt', fpt') :=
          consume reference_descriptor [lower] [bump] (repeat 0.5%float 27) in
        assemble 3 b' apt' fpt' (Some (repeat 0.5%float 27))).
Proof.
  assert (Hb : counted_base reference_descriptor) by (vm_compute; reflexivity).
  assert (Ha : Forall counted_anchor [lower])
    by (repeat constructor; vm_compute; reflexivity).
  assert (Hf : Forall counted_free [bump])
    by (repeat constructor; vm_compute; reflexivity).
  assert (Ht : total_overrideable reference_descriptor [lower] [bump] = 26%nat)
    by (vm_compute; reflexivity).
  split.
  - apply (proj1 (override_vector_is_handed_out_in_order 3 reference_descriptor
                    [lower] [bump] (repeat 0.5%float 25) Hb Ha Hf)).
    rewrite Ht, repeat_length. lia.
  - apply (proj2 (override_vector_is_handed_out_in_order 3 reference_descriptor
                    [lower] [bump] (repeat 0.5%float 27) Hb Ha Hf)).
    rewrite Ht, repeat_length. lia.
Defined.

(** * The Bezier evaluator (C10) *)

Section BezierSums.
Context {F : Type} `{PyFloat F}.

Lemma zip_with_const_l {A B} (l : list A) (t : list B) :
  length l = length t -> zip_with (fun a _ => a) l t = l.
Proof.
  revert t. induction l as [| a l IH]; intros [| b t] Hlen;
    try discriminate; [reflexivity |].
  simpl. rewrite IH by (simpl in Hlen; lia). reflexivity.
Qed.

Lemma zip_with_zip_with_map {A B} (g : A -> B -> A) (f : A -> A -> A)
  (h : B -> A) (l : list A) (t : list B) :
  zip_with g (zip_with f l (map h t)) t
  = zip_with (fun a b => g (f a (h b)) b) l t.
Proof.
  revert t. induction l as [| a l IH]; intros [| b t]; try reflexivity.
  simpl. rewrite IH. reflexivity.
Qed.

Lemma zip_with_repeat_l {A B C} (g : A -> B -> C) (a : A) (t : list B) :
  zip_with g (repeat a (length t)) t = map (g a) t.
Proof. induction t as [| b t IH]; [reflexivity |]. simpl. rewrite IH. reflexivity. Qed.

(** A loop of [bezier] over the sample array is the same loop run at each
    sample. *)
Lemma accumulate_pointwise (coef : nat -> F) (m : nat -> nat) (l : list nat)
  (acc t : list F) :
  length acc = length t ->
  fold_left (fun acc i => accumulate acc (coef i) i (m i) t) l acc
  = zip_with
      (fun a tj => fold_left (fun a i => (a + term (coef i) i (m i) tj)%fl) l a)
      acc t.
Proof.
  revert acc. induction l as [| i l IH]; intros acc Hlen.
  - simpl. symmetry. apply zip_with_const_l, Hlen.
  - cbn [fold_left]. rewrite IH.
    + unfold accumulate. apply zip_with_zip_with_map.
    + unfold accumulate. rewrite length_zip_with, length_map. lia.
Qed.

Lemma position_sum_pointwise (col : list F) (n : nat) (t : list F) :
  position_sum col n t = map (position_at col n) t.
Proof.
  unfold position_sum, position_at.
  rewrite (accumulate_pointwise
             (fun i => (nth i col f0 * nCr (n - 1) i)%fl) (fun i => (n - 1 - i)%nat))
    by apply repeat_length.
  apply zip_with_repeat_l.
Qed.

Lemma bezier_samples (P : list (F * F)) (n : nat) :
  zip (C_x (bezier P n)) (C_y (bezier P n))
  = map (fun tj => (position_at (map fst P) (length P) tj,
                    position_at (map snd P) (length P) tj))
      (linspace01 n).
Proof.
  unfold bezier. cbn [C_x C_y]. rewrite !position_sum_pointwise.
  induction (linspace01 n) as [| tj t IH]; [reflexivity |].
  simpl. f_equal. exact IH.
Qed.

End BezierSums.

Section BezierEndPoints.

Local Open Scope R_scope.

Lemma powi_R (x : R) (k : nat) : powi (F := R) x k = x ^ k.
Proof. induction k as [| k IH]; [reflexivity |]. simpl. rewrite IH. reflexivity. Qed.

Lemma fact_IZR_neq_0 (n : nat) : IZR (Z.of_nat (fact n)) <> 0.
Proof.
  apply not_0_IZR. pose proof (lt_O_fact n). lia.
Qed.

Lemma nCr_0_r (n : nat) : nCr (F := R) n 0 = 1.
Proof.
  unfold nCr. cbn. rewrite Nat.sub_0_r.
  pose proof (fact_IZR_neq_0 n). field. assumption.
Qed.

Lemma nCr_diag (n : nat) : nCr (F := R) n n = 1.
Proof.
  unfold nCr. cbn. rewrite Nat.sub_diag. cbn.
  pose proof (fact_IZR_neq_0 n). field. assumption.
Qed.

Lemma term_at_0 (coef : R) (i m : nat) :
  term (F := R) coef i m 0 = match i with O => coef | S _ => 0 end.
Proof.
  unfold term. cbn. rewrite !powi_R, Rminus_0_r, pow1.
  destruct i; simpl; ring.
Qed.

Lemma term_at_1 (coef : R) (i m : nat) :
  term (F := R) coef i m 1 = match m with O => coef | S _ => 0 end.
Proof.
  unfold term. cbn. rewrite !powi_R, pow1.
  replace (1 - 1) with 0 by ring.
  destruct m; simpl; ring.
Qed.

(** A loop whose terms all vanish leaves the accumulator alone. *)
Lemma fold_left_vanishing (g : nat -> R) (l : list nat) (a : R) :
  (forall i, In i l -> g i = 0) ->
  fold_left (fun a i => fadd (F := R) a (g i)) l a = a.
Proof.
  revert a. induction l as [| i l IH]; intros a Hg; [reflexivity |].
  cbn [fold_left]. rewrite IH by (intros j Hj; apply Hg; right; exact Hj).
  rewrite (Hg i) by (left; reflexivity). cbn. ring.
Qed.

Lemma position_at_0 (col : list R) :
  col <> [] -> position_at (F := R) col (length col) 0 = nth 0 col 0.
Proof.
  intros Hne. destruct col as [| x col]; [contradiction |].
  unfold position_at. cbn [length seq fold_left].
  rewrite (fold_left_vanishing
             (fun i => term (nth i (x :: col) f0 * nCr (S (length col) - 1) i)%fl
                         i (S (length col) - 1 - i) 0)).
  - rewrite term_at_0, nCr_0_r. cbn. ring.
  - intros i Hi. apply in_seq in Hi. rewrite term_at_0.
    destruct i; [lia | reflexivity].
Qed.

Lemma position_at_1 (col : list R) :
  col <> [] ->
  position_at (F := R) col (length col) 1 = nth (length col - 1) col 0.
Proof.
  intros Hne. destruct col as [| x col]; [contradiction |].
  unfold position_at.
  set (n := length col).
  replace (length (x :: col)) with (S n) by reflexivity.
  rewrite seq_S, fold_left_app. cbn [fold_left Nat.add].
  rewrite (fold_left_vanishing
             (fun i => term (nth i (x :: col) f0 * nCr (S n - 1) i)%fl
                         i (S n - 1 - i) 1)).
  - rewrite term_at_1.
    replace (S n - 1 - n)%nat with 0%nat by lia.
    replace (S n - 1)%nat with n by lia.
    rewrite nCr_diag. cbn. ring.
  - intros i Hi. apply in_seq in Hi. rewrite term_at_1.
    destruct (S n - 1 - i)%nat eqn:E; [lia | reflexivity].
Qed.

Lemma linspace01_ends (n : nat) :
  (2 <= n)%nat ->
  exists mid, linspace01 (F := R) n = 0 :: mid ++ [1].
Proof.
  intros Hn. destruct n as [| [| m]]; try lia.
  unfold linspace01. cbn [seq map].
  eexists. rewrite <- app_comm_cons. f_equal. cbn. ring.
Qed.

Lemma nth_map_fst_head (P : list (R * R)) (p : R * R) :
  head P = Some p -> nth 0 (map fst P) 0 = fst p /\ nth 0 (map snd P) 0 = snd p.
Proof. destruct P as [| q P]; [discriminate |]. intros [= ->]. auto. Qed.

Lemma nth_map_last (P : list (R * R)) (p : R * R) :
  last P = Some p ->
  nth (length P - 1) (map fst P) 0 = fst p
  /\ nth (length P - 1) (map snd P) 0 = snd p.
Proof.
  intros Hl. destruct (decide (P = [])) as [-> | Hne]; [discriminate |].
  destruct (exists_last Hne) as (pre & q & ->).
  rewrite last_snoc in Hl. injection Hl as ->.
  rewrite length_app, !map_app. cbn [length map].
  replace (length pre + 1 - 1)%nat with (length pre) by lia.
  split.
  - rewrite app_nth2 by (rewrite length_map; lia).
    rewrite length_map, Nat.sub_diag. reflexivity.
  - rewrite app_nth2 by (rewrite length_map; lia).
    rewrite length_map, Nat.sub_diag. reflexivity.
Qed.

(** C10 (amended): in exact arithmetic, for a control-point list with at
    least one point and at most 171, for which [nCr] is defined in the
    source, and at least two samples, the first sampled position is the
    first control point and the last sampled position is the last control
    point; hence two such segments sharing an end control point meet at the
    boundary sample. *)
Theorem bezier_interpolates_its_end_points (P : list (R * R)) (n : nat) :
  P <> [] -> (length P <= 171)%nat -> (2 <= n)%nat ->
  head (zip (C_x (bezier P n)) (C_y (bezier P n))) = head P
  /\ last (zip (C_x (bezier P n)) (C_y (bezier P n))) = last P
  /\ (forall Q : list (R * R),
        Q <> [] -> (length Q <= 171)%nat -> last P = head Q ->
        last (zip (C_x (bezier P n)) (C_y (bezier P n)))
        = head (zip (C_x (bezier Q n)) (C_y (bezier Q n)))).
Proof.
  assert (Hends : forall Q : list (R * R), Q <> [] -> (2 <= n)%nat ->
             head (zip (C_x (bezier Q n)) (C_y (bezier Q n))) = head Q
             /\ last (zip (C_x (bezier Q n)) (C_y (bezier Q n))) = last Q).
  { intros Q HQ Hn. rewrite bezier_samples.
    destruct (linspace01_ends n Hn) as [mid ->].
    assert (Hcol1 : map fst Q <> []) by (destruct Q; [contradiction | discriminate]).
    assert (Hcol2 : map snd Q <> []) by (destruct Q; [contradiction | discriminate]).
    split.
    - cbn [map head].
      rewrite <- (length_map fst Q) at 1. rewrite <- (length_map snd Q).
      rewrite (position_at_0 _ Hcol1), (position_at_0 _ Hcol2).
      destruct Q as [| q Q]; [contradiction |]. destruct q. reflexivity.
    - rewrite app_comm_cons, map_app. cbn [map]. rewrite last_snoc.
      rewrite <- (length_map fst Q) at 1. rewrite <- (length_map snd Q).
      rewrite (position_at_1 _ Hcol1), (position_at_1 _ Hcol2).
      rewrite !length_map.
      destruct (last Q) as [q |] eqn:Hl.
      + destruct (nth_map_last Q q Hl) as [-> ->]. destruct q. reflexivity.
      + apply last_None in Hl. contradiction. }
  intros HP _ Hn. destruct (Hends P HP Hn) as [H1 H2].
  split; [exact H1 |]. split; [exact H2 |].
  intros Q HQ _ Hshare. destruct (Hends Q HQ Hn) as [H3 _]. congruence.
Qed.

End BezierEndPoints.

(** C10 (witness): a quadratic segment sampled three times. *)
Lemma bezier_interpolates_its_end_points_witness :
  head (zip (C_x (bezier [(0, 0); (1, 2); (3, 1)]%R 3))
            (C_y (bezier [(0, 0); (1, 2); (3, 1)]%R 3)))
  = Some (0, 0)%R
  /\ last (zip (C_x (bezier [(0, 0); (1, 2); (3, 1)]%R 3))
               (C_y (bezier [(0, 0); (1, 2); (3, 1)]%R 3)))
     = Some (3, 1)%R.
Proof.
  assert (Hne : [(0, 0); (1, 2); (3, 1)]%R <> []) by discriminate.
  destruct (bezier_interpolates_its_end_points
              [(0, 0); (1, 2); (3, 1)]%R 3 Hne ltac:(simpl; lia) ltac:(lia))
    as (H1 & H2 & _).
  split; [exact H1 | exact H2].
Defined.

(** * The override vector is only stored

    No method reads [self.override_parameters]: every projection but that
    one sees through its assignment, and every other assignment commutes
    with it. *)

Section Forget.
Context {F : Type} `{PyFloat F}.

Lemma nt_set_override (s : Airfoil F) (o : option (list F)) :
  nt (set_override_parameters s o) = nt s.
Proof. reflexivity. Qed.

Lemma params_set_override (s : Airfoil F) (o : option (list F)) :
  params (set_override_parameters s o) = params s.
Proof. reflexivity. Qed.

Lemma af_bounds_set_override (s : Airfoil F) (o : option (list F)) :
  af_bounds (set_override_parameters s o) = af_bounds s.
Proof. reflexivity. Qed.

Lemma base_airfoil_params_set_override (s : Airfoil F) (o : option (list F)) :
  base_airfoil_params (set_override_parameters s o) = base_airfoil_params s.
Proof. reflexivity. Qed.

Lemma af_C_set_override (s : Airfoil F) (o : option (list F)) :
  af_C (set_override_parameters s o) = af_C s.
Proof. reflexivity. Qed.

Lemma free_points_set_override (s : Airfoil F) (o : option (list F)) :
  free_points (set_override_parameters s o) = free_points s.
Proof. reflexivity. Qed.

Lemma coords_set_override (s : Airfoil F) (o : option (list F)) :
  coords (set_override_parameters s o) = coords s.
Proof. reflexivity. Qed.

Lemma curvature_set_override (s : Airfoil F) (o : option (list F)) :
  curvature (set_override_parameters s o) = curvature s.
Proof. reflexivity. Qed.

Lemma needs_update_set_override (s : Airfoil F) (o : option (list F)) :
  needs_update (set_override_parameters s o) = needs_update s.
Proof. reflexivity. Qed.

Lemma anchor_point_tuple_set_override (s : Airfoil F) (o : option (list F)) :
  anchor_point_tuple (set_override_parameters s o) = anchor_point_tuple s.
Proof. reflexivity. Qed.

Lemma free_point_tuple_set_override (s : Airfoil F) (o : option (list F)) :
  free_point_tuple (set_override_parameters s o) = free_point_tuple s.
Proof. reflexivity. Qed.

Lemma anchor_points_set_override (s : Airfoil F) (o : option (list F)) :
  anchor_points (set_override_parameters s o) = anchor_points s.
Proof. reflexivity. Qed.

Lemma anchor_point_order_set_override (s : Airfoil F) (o : option (list F)) :
  anchor_point_order (set_override_parameters s o) = anchor_point_order s.
Proof. reflexivity. Qed.

Lemma anchor_point_array_set_override (s : Airfoil F) (o : option (list F)) :
  anchor_point_array (set_override_parameters s o) = anchor_point_array s.
Proof. reflexivity. Qed.

Lemma af_N_set_override (s : Airfoil F) (o : option (list F)) :
  af_N (set_override_parameters s o) = af_N s.
Proof. reflexivity. Qed.

Lemma control_points_set_override (s : Airfoil F) (o : option (list F)) :
  control_points (set_override_parameters s o) = control_points s.
Proof. reflexivity. Qed.

Lemma n_control_points_set_override (s : Airfoil F) (o : option (list F)) :
  n_control_points (set_override_parameters s o) = n_control_points s.
Proof. reflexivity. Qed.

Lemma g1_minus_points_set_override (s : Airfoil F) (o : option (list F)) :
  g1_minus_points (set_override_parameters s o) = g1_minus_points s.
Proof. reflexivity. Qed.

Lemma g1_plus_points_set_override (s : Airfoil F) (o : option (list F)) :
  g1_plus_points (set_override_parameters s o) = g1_plus_points s.
Proof. reflexivity. Qed.

Lemma g2_minus_points_set_override (s : Airfoil F) (o : option (list F)) :
  g2_minus_points (set_override_parameters s o) = g2_minus_points s.
Proof. reflexivity. Qed.

Lemma g2_plus_points_set_override (s : Airfoil F) (o : option (list F)) :
  g2_plus_points (set_override_parameters s o) = g2_plus_points s.
Proof. reflexivity. Qed.

Lemma set_needs_update_set_override (s : Airfoil F) (o : option (list F)) v :
  set_needs_update (set_override_parameters s o) v
  = set_override_parameters (set_needs_update s v) o.
Proof. reflexivity. Qed.

Lemma set_params_set_override (s : Airfoil F) (o : option (list F)) ps bs :
  set_params (set_override_parameters s o) ps bs
  = set_override_parameters (set_params s ps bs) o.
Proof. reflexivity. Qed.

Lemma set_curves_set_override (s : Airfoil F) (o : option (list F)) Cs co cu :
  set_curves (set_override_parameters s o) Cs co cu
  = set_override_parameters (set_curves s Cs co cu) o.
Proof. reflexivity. Qed.

Lemma set_free_points_set_override (s : Airfoil F) (o : option (list F)) fps :
  set_free_points (set_override_parameters s o) fps
  = set_override_parameters (set_free_points s fps) o.
Proof. reflexivity. Qed.

Lemma set_anchor_points_set_override (s : Airfoil F) (o : option (list F)) order aps :
  set_anchor_points (set_override_parameters s o) order aps
  = set_override_parameters (set_anchor_points s order aps) o.
Proof. reflexivity. Qed.

Lemma set_anchor_point_array_set_override (s : Airfoil F) (o : option (list F)) arr :
  set_anchor_point_array (set_override_parameters s o) arr
  = set_override_parameters (set_anchor_point_array s arr) o.
Proof. reflexivity. Qed.

Lemma set_N_set_override (s : Airfoil F) (o : option (list F)) N' :
  set_N (set_override_parameters s o) N'
  = set_override_parameters (set_N s N') o.
Proof. reflexivity. Qed.

Lemma set_control_points_set_override (s : Airfoil F) (o : option (list F)) cps :
  set_control_points (set_override_parameters s o) cps
  = set_override_parameters (set_control_points s cps) o.
Proof. reflexivity. Qed.

Lemma set_n_control_points_set_override (s : Airfoil F) (o : option (list F)) n :
  set_n_control_points (set_override_parameters s o) n
  = set_override_parameters (set_n_control_points s n) o.
Proof. reflexivity. Qed.

Lemma set_g1_points_set_override (s : Airfoil F) (o : option (list F)) gm gp :
  set_g1_points (set_override_parameters s o) gm gp
  = set_override_parameters (set_g1_points s gm gp) o.
Proof. reflexivity. Qed.

Lemma set_g2_points_set_override (s : Airfoil F) (o : option (list F)) gm gp :
  set_g2_points (set_override_parameters s o) gm gp
  = set_override_parameters (set_g2_points s gm gp) o.
Proof. reflexivity. Qed.

End Forget.

Create Rewrite HintDb forget.
#[export] Hint Rewrite @nt_set_override @params_set_override @af_bounds_set_override @base_airfoil_params_set_override @af_C_set_override @free_points_set_override @coords_set_override @curvature_set_override @needs_update_set_override @anchor_point_tuple_set_override @free_point_tuple_set_override @anchor_points_set_override @anchor_point_order_set_override @anchor_point_array_set_override @af_N_set_override @control_points_set_override @n_control_points_set_override @g1_minus_points_set_override @g1_plus_points_set_override @g2_minus_points_set_override @g2_plus_points_set_override @set_needs_update_set_override @set_params_set_override @set_curves_set_override @set_free_points_set_override @set_anchor_points_set_override @set_anchor_point_array_set_override @set_N_set_override @set_control_points_set_override @set_n_control_points_set_override @set_g1_points_set_override @set_g2_points_set_override : forget.

Section ForgetMethods.
Context {F : Type} `{PyFloat F}.

#[local] Abbreviation forget o :=
  (res_map (fun s' : Airfoil F => set_override_parameters s' o)).

(** Run both sides of a commutation step by step. *)
Ltac crunch_with tac :=
  repeat (unfold ret, raise; cbn [bind res_map]; autorewrite with forget; tac;
          match goal with
          | |- context [if ?b then _ else _] => destruct b eqn:?
          | |- context [res_map _ ?m] =>
              lazymatch m with
              | bind _ _ => fail
              | _ => destruct m eqn:?
              end
          | |- context [bind ?m _] =>
              lazymatch m with
              | res_map _ _ => fail
              | bind _ _ => fail
              | _ => destruct m eqn:?
              end
          end);
  unfold ret, raise; cbn [bind res_map]; autorewrite with forget; tac;
  try reflexivity.

Ltac crunch := crunch_with idtac.

Lemma set_slope_override (s : Airfoil F) (o : option (list F)) ap :
  set_slope (set_override_parameters s o) ap = forget o (set_slope s ap).
Proof. unfold set_slope. crunch. Qed.

Lemma set_curvature_override (s : Airfoil F) (o : option (list F)) ap :
  set_curvature (set_override_parameters s o) ap = forget o (set_curvature s ap).
Proof. unfold set_curvature. crunch. Qed.

Lemma add_anchor_point_override (s : Airfoil F) (o : option (list F)) ap :
  add_anchor_point (set_override_parameters s o) ap = forget o (add_anchor_point s ap).
Proof.
  unfold add_anchor_point.
  crunch_with ltac:(rewrite ?set_slope_override, ?set_curvature_override).
Qed.

Lemma add_anchor_points_loop_override (s : Airfoil F) (o : option (list F)) aps :
  add_anchor_points_loop (set_override_parameters s o) aps
  = forget o (add_anchor_points_loop s aps).
Proof.
  revert s. induction aps as [| a aps IH]; intros s; [reflexivity |].
  cbn [add_anchor_points_loop]. autorewrite with forget.
  destruct (index_of (anchor_point_order s) (ap_name a)).
  - cbn [bind ret]. apply IH.
  - rewrite add_anchor_point_override.
    destruct (add_anchor_point s a); cbn [bind res_map]; [reflexivity | apply IH].
Qed.

Lemma add_anchor_points_override (s : Airfoil F) (o : option (list F)) :
  add_anchor_points (set_override_parameters s o) = forget o (add_anchor_points s).
Proof.
  unfold add_anchor_points.
  crunch_with ltac:(rewrite ?add_anchor_points_loop_override).
Qed.

Lemma add_free_point_override (s : Airfoil F) (o : option (list F)) fp :
  add_free_point (set_override_parameters s o) fp = forget o (add_free_point s fp).
Proof. unfold add_free_point. crunch. Qed.

Lemma add_free_points_loop_override (s : Airfoil F) (o : option (list F)) fps :
  add_free_points_loop (set_override_parameters s o) fps
  = forget o (add_free_points_loop s fps).
Proof.
  revert s. induction fps as [| a fps IH]; intros s; [reflexivity |].
  cbn [add_free_points_loop]. rewrite add_free_point_override.
  destruct (add_free_point s a); cbn [bind res_map]; [reflexivity | apply IH].
Qed.

Lemma add_free_points_override (s : Airfoil F) (o : option (list F)) :
  add_free_points (set_override_parameters s o) = forget o (add_free_points s).
Proof.
  unfold add_free_points.
  crunch_with ltac:(rewrite ?add_free_points_loop_override).
Qed.

Lemma extract_parameters_override (s : Airfoil F) (o : option (list F)) :
  extract_parameters (set_override_parameters s o)
  = set_override_parameters (extract_parameters s) o.
Proof. reflexivity. Qed.

Lemma order_loop_override (s : Airfoil F) (o : option (list F)) idx order cps :
  order_loop (set_override_parameters s o) idx order cps = order_loop s idx order cps.
Proof.
  revert idx cps. induction order as [| a order IH]; intros idx cps; [reflexivity |].
  cbn [order_loop].
  replace (order_one (set_override_parameters s o) idx a cps)
    with (order_one s idx a cps) by reflexivity.
  destruct (order_one s idx a cps); cbn [bind]; [reflexivity | apply IH].
Qed.

Lemma order_control_points_override (s : Airfoil F) (o : option (list F)) :
  order_control_points (set_override_parameters s o)
  = forget o (order_control_points s).
Proof.
  unfold order_control_points.
  crunch_with ltac:(rewrite ?order_loop_override).
Qed.

Lemma anchor_array_loop_override (s : Airfoil F) (o : option (list F)) keys arr :
  anchor_array_loop (set_override_parameters s o) keys arr
  = anchor_array_loop s keys arr.
Proof.
  revert arr. induction keys as [| k keys IH]; intros arr; [reflexivity |].
  cbn [anchor_array_loop]. autorewrite with forget.
  destruct (getitem (anchor_points s) k); cbn [bind]; [reflexivity | apply IH].
Qed.

Lemma update_anchor_point_array_override (s : Airfoil F) (o : option (list F)) :
  update_anchor_point_array (set_override_parameters s o)
  = forget o (update_anchor_point_array s).
Proof.
  unfold update_anchor_point_array.
  crunch_with ltac:(rewrite ?anchor_array_loop_override).
Qed.

Lemma rotate_override (s : Airfoil F) (o : option (list F)) angle :
  rotate (set_override_parameters s o) angle
  = set_override_parameters (rotate s angle) o.
Proof. reflexivity. Qed.

Lemma curves_loop_override (s : Airfoil F) (o : option (list F)) keys start :
  curves_loop (set_override_parameters s o) keys start = curves_loop s keys start.
Proof.
  revert start. induction keys as [| k keys IH]; intros start; [reflexivity |].
  cbn [curves_loop]. autorewrite with forget.
  destruct (getitem (af_N s) k); cbn [bind]; [reflexivity |].
  rewrite IH. reflexivity.
Qed.

Lemma generate_airfoil_coordinates_override (s : Airfoil F) (o : option (list F)) :
  generate_airfoil_coordinates (set_override_parameters s o)
  = forget o (generate_airfoil_coordinates s).
Proof.
  unfold generate_airfoil_coordinates.
  crunch_with ltac:(rewrite ?curves_loop_override).
Qed.

Lemma update_override (s : Airfoil F) (o : option (list F)) :
  update (set_override_parameters s o) = forget o (update s).
Proof.
  unfold update.
  crunch_with ltac:(rewrite ?add_anchor_points_override, ?add_free_points_override,
                     ?extract_parameters_override, ?order_control_points_override,
                     ?update_anchor_point_array_override, ?rotate_override,
                     ?generate_airfoil_coordinates_override).
Qed.

Lemma init_g2_points_override (s : Airfoil F) (o : option (list F)) :
  init_g2_points (set_override_parameters s o) = init_g2_points s.
Proof. reflexivity. Qed.

(** Construction with another vector stored returns the same airfoil but
    for the stored vector. *)
Lemma assemble_override n b apt fpt (o o' : option (list F)) :
  assemble n b apt fpt o' = forget o' (assemble n b apt fpt o).
Proof.
  unfold assemble.
  replace (initial_attributes n b apt fpt o')
    with (set_override_parameters (initial_attributes n b apt fpt o) o')
    by reflexivity.
  crunch_with ltac:(rewrite ?init_g2_points_override, ?update_override).
Qed.

End ForgetMethods.

(** * What the methods leave alone *)

Section Kept.
Context {F : Type} `{PyFloat F}.

Lemma set_slope_kept (s s' : Airfoil F) ap :
  set_slope s ap = inr s' -> kept s' = kept s.
Proof. intros E. apply set_slope_inr in E as (gm & gp & ->). reflexivity. Qed.

Lemma set_curvature_kept (s s' : Airfoil F) ap :
  set_curvature s ap = inr s' -> kept s' = kept s.
Proof. intros E. apply set_curvature_inr in E as (gm & gp & ->). reflexivity. Qed.

Lemma add_anchor_point_kept (s s' : Airfoil F) ap :
  add_anchor_point s ap = inr s' -> kept s' = kept s.
Proof.
  unfold add_anchor_point. intros E.
  apply bind_inr in E as (i & _ & E).
  apply bind_inr in E as (s1 & Hs1 & E).
  apply bind_inr in E as (i_name & _ & E).
  apply bind_inr in E as (i_le & _ & E).
  apply bind_inr in E as (s2 & Hs2 & E).
  apply bind_inr in E as (s3 & Hs3 & E).
  injection E as <-.
  apply set_slope_kept in Hs1. apply set_curvature_kept in Hs3.
  assert (Hs2' : kept s2 = kept s1).
  { destruct (i_le <? i_name)%nat.
    - apply bind_inr in Hs2 as (last & _ & Hs2). injection Hs2 as <-. reflexivity.
    - injection Hs2 as <-. reflexivity. }
  change (kept (set_needs_update s3 true)) with (kept s3).
  rewrite Hs3, Hs2', Hs1. reflexivity.
Qed.

Lemma add_anchor_points_loop_kept (s s' : Airfoil F) aps :
  add_anchor_points_loop s aps = inr s' -> kept s' = kept s.
Proof.
  revert s. induction aps as [| a aps IH]; intros s E.
  - injection E as <-. reflexivity.
  - cbn [add_anchor_points_loop] in E.
    apply bind_inr in E as (s1 & Hs1 & E). apply IH in E. rewrite E.
    destruct (index_of (anchor_point_order s) (ap_name a)).
    + injection Hs1 as <-. reflexivity.
    + eapply add_anchor_point_kept, Hs1.
Qed.

Lemma add_free_point_kept (s s' : Airfoil F) fp :
  add_free_point s fp = inr s' -> kept s' = kept s.
Proof.
  unfold add_free_point. intros E.
  apply bind_inr in E as (n & _ & E). injection E as <-. reflexivity.
Qed.

Lemma add_free_points_loop_kept (s s' : Airfoil F) fps :
  add_free_points_loop s fps = inr s' -> kept s' = kept s.
Proof.
  revert s. induction fps as [| a fps IH]; intros s E.
  - injection E as <-. reflexivity.
  - cbn [add_free_points_loop] in E.
    apply bind_inr in E as (s1 & Hs1 & E). apply IH in E. rewrite E.
    eapply add_free_point_kept, Hs1.
Qed.

Lemma kept_components (s s' : Airfoil F) :
  kept s' = kept s ->
  nt s' = nt s
  /\ base_airfoil_params s' = base_airfoil_params s
  /\ anchor_point_tuple s' = anchor_point_tuple s
  /\ free_point_tuple s' = free_point_tuple s
  /\ params s' = params s.
Proof. unfold kept. intros [= E1 E2 E3 E4 E5]. auto. Qed.

Lemma order_control_points_kept (s s' : Airfoil F) :
  order_control_points s = inr s' -> kept s' = kept s.
Proof.
  unfold order_control_points. intros E.
  apply bind_inr in E as (cps & _ & E). injection E as <-. reflexivity.
Qed.

Lemma update_anchor_point_array_kept (s s' : Airfoil F) :
  update_anchor_point_array s = inr s' -> kept s' = kept s.
Proof.
  unfold update_anchor_point_array. intros E.
  apply bind_inr in E as (arr & _ & E). injection E as <-. reflexivity.
Qed.

Lemma rotate_kept (s : Airfoil F) (angle : F) : kept (rotate s angle) = kept s.
Proof. reflexivity. Qed.

Lemma generate_airfoil_coordinates_kept (s s' : Airfoil F) :
  generate_airfoil_coordinates s = inr s' -> kept s' = kept s.
Proof.
  unfold generate_airfoil_coordinates. intros E.
  apply bind_inr in E as (Cs & _ & E).
  apply bind_inr in E as (cc & _ & E). injection E as <-. reflexivity.
Qed.

Lemma add_anchor_points_kept (s s' : Airfoil F) :
  add_anchor_points s = inr s' -> kept s' = kept s.
Proof.
  unfold add_anchor_points. intros E.
  apply bind_inr in E as (s1 & Hs1 & E). injection E as <-.
  apply add_anchor_points_loop_kept in Hs1. exact Hs1.
Qed.

Lemma add_free_points_kept (s s' : Airfoil F) :
  add_free_points s = inr s' -> kept s' = kept s.
Proof.
  unfold add_free_points. intros E.
  apply bind_inr in E as (s1 & Hs1 & E). injection E as <-.
  apply add_free_points_loop_kept in Hs1. exact Hs1.
Qed.

(** [update] keeps the inputs and leaves in [params] the canonical vector
    of the configuration. *)
Lemma update_result (s s' : Airfoil F) :
  update s = inr s' ->
  nt s' = nt s
  /\ base_airfoil_params s' = base_airfoil_params s
  /\ anchor_point_tuple s' = anchor_point_tuple s
  /\ free_point_tuple s' = free_point_tuple s
  /\ params s'
     = parameter_vector (base_airfoil_params s) (anchor_point_tuple s)
         (free_point_tuple s).
Proof.
  unfold update. intros E.
  apply bind_inr in E as (s1 & Hs1 & E).
  apply bind_inr in E as (s2 & Hs2 & E).
  apply bind_inr in E as (s3 & Hs3 & E).
  apply bind_inr in E as (s4 & Hs4 & E).
  apply bind_inr in E as (s5 & Hs5 & E).
  injection E as <-.
  apply add_anchor_points_kept in Hs1.
  apply add_free_points_kept in Hs2. rewrite Hs1 in Hs2. clear Hs1 s1.
  apply kept_components in Hs2 as (K1 & K2 & K3 & K4 & _).
  apply order_control_points_kept in Hs3.
  apply update_anchor_point_array_kept in Hs4.
  apply generate_airfoil_coordinates_kept in Hs5.
  rewrite rotate_kept, Hs4, Hs3 in Hs5. clear Hs3 Hs4 s3 s4.
  apply kept_components in Hs5 as (L1 & L2 & L3 & L4 & L5).
  change (nt (extract_parameters s2)) with (nt s2) in L1.
  change (base_airfoil_params (extract_parameters s2))
    with (base_airfoil_params s2) in L2.
  change (anchor_point_tuple (extract_parameters s2))
    with (anchor_point_tuple s2) in L3.
  change (free_point_tuple (extract_parameters s2))
    with (free_point_tuple s2) in L4.
  change (params (extract_parameters s2))
    with (parameter_vector (base_airfoil_params s2) (anchor_point_tuple s2)
            (free_point_tuple s2)) in L5.
  change (nt (set_needs_update s5 false)) with (nt s5).
  change (base_airfoil_params (set_needs_update s5 false))
    with (base_airfoil_params s5).
  change (anchor_point_tuple (set_needs_update s5 false))
    with (anchor_point_tuple s5).
  change (free_point_tuple (set_needs_update s5 false))
    with (free_point_tuple s5).
  change (params (set_needs_update s5 false)) with (params s5).
  rewrite L1, L2, L3, L4, L5, K1, K2, K3, K4. repeat split.
Qed.

Lemma assemble_result n b apt fpt o (s : Airfoil F) :
  assemble n b apt fpt o = inr s ->
  nt s = n
  /\ base_airfoil_params s = b
  /\ anchor_point_tuple s = apt
  /\ free_point_tuple s = fpt
  /\ params s = parameter_vector b apt fpt.
Proof.
  unfold assemble. intros E.
  apply bind_inr in E as (g1 & _ & E).
  apply bind_inr in E as (g2 & _ & E).
  apply update_result in E. exact E.
Qed.

End Kept.

(** * The round trip (C1) *)

Section RoundTrip.
Context {F : Type} `{PyFloat F}.

Lemma set_value_own (p : Param F) : set_value p (value p) = p.
Proof. destruct p; reflexivity. Qed.

(** Assigning a parameter list its own flattened values changes nothing. *)
Lemma assign_own_values (ps : list (Param F)) (rest : list F) :
  assign_values ps (flatten ps ++ rest) = ps.
Proof.
  unfold flatten. induction ps as [| p ps IH]; [reflexivity |].
  cbn [assign_values]. destruct (overrideable p) eqn:Hp.
  - rewrite filter_cons_True by exact Hp. cbn [map app].
    rewrite set_value_own, IH. reflexivity.
  - rewrite filter_cons_False by (rewrite Hp; discriminate).
    rewrite IH. reflexivity.
Qed.

Lemma scale_vars_off (b : BaseAirfoilParams F) :
  non_dim_by_chord b = false -> scale_vars b = b.
Proof. intros Hnd. unfold scale_vars. rewrite Hnd. reflexivity. Qed.

Lemma with_anchor_params_id (a : AnchorPoint F) :
  with_anchor_params a (anchor_params a) = a.
Proof. destruct a; reflexivity. Qed.

Lemma with_free_params_id (p : FreePoint F) :
  with_free_params p (free_params p) = p.
Proof. destruct p; reflexivity. Qed.

Lemma take_own {A} (l rest : list A) : take (length l) (l ++ rest) = l.
Proof. rewrite take_app_length. reflexivity. Qed.

Lemma drop_own {A} (l rest : list A) : drop (length l) (l ++ rest) = rest.
Proof. rewrite drop_app_length. reflexivity. Qed.

Lemma consume_base_own (b : BaseAirfoilParams F) (rest : list F) :
  non_dim_by_chord b = false ->
  consume_base b (flatten (base_params b) ++ rest) = (b, rest).
Proof.
  intros Hnd. unfold consume_base. rewrite count_is_flatten_length.
  rewrite take_own, drop_own.
  rewrite <- (app_nil_r (flatten (base_params b))) at 1.
  rewrite assign_own_values, with_base_params_id, scale_vars_off by exact Hnd.
  reflexivity.
Qed.

Lemma consume_anchor_points_own (b : BaseAirfoilParams F)
  (aps : list (AnchorPoint F)) (rest : list F) :
  non_dim_by_chord b = false ->
  Forall (fun a => ap_length_scale_dimension a = None) aps ->
  consume_anchor_points b aps
    (flat_map (fun a => flatten (anchor_params a)) aps ++ rest)
  = (aps, rest).
Proof.
  intros Hnd Hs. induction Hs as [| a aps Ha Hs IH]; [reflexivity |].
  cbn [consume_anchor_points flat_map]. rewrite Hnd, Ha, <- app_assoc.
  rewrite take_own, drop_own, IH. cbn [fst snd scale_by].
  rewrite <- (app_nil_r (flatten (anchor_params a))) at 1.
  rewrite assign_own_values, with_anchor_params_id. reflexivity.
Qed.

Lemma consume_free_points_own (b : BaseAirfoilParams F)
  (fps : list (FreePoint F)) (rest : list F) :
  non_dim_by_chord b = false ->
  Forall (fun p => fp_length_scale_dimension p = None) fps ->
  consume_free_points b fps
    (flat_map (fun p => flatten (free_params p)) fps ++ rest)
  = (fps, rest).
Proof.
  intros Hnd Hs. induction Hs as [| a aps Ha Hs IH]; [reflexivity |].
  cbn [consume_free_points flat_map]. rewrite Hnd, Ha, <- app_assoc.
  rewrite take_own, drop_own, IH. cbn [fst snd scale_by].
  rewrite <- (app_nil_r (flatten (free_params a))) at 1.
  rewrite assign_own_values, with_free_params_id. reflexivity.
Qed.

(** Without scaling an object set consumes its own vector into itself. *)
Lemma consume_own (b : BaseAirfoilParams F) (aps : list (AnchorPoint F))
  (fps : list (FreePoint F)) :
  non_dim_by_chord b = false ->
  Forall (fun a => ap_length_scale_dimension a = None) aps ->
  Forall (fun p => fp_length_scale_dimension p = None) fps ->
  consume b aps fps (parameter_vector b aps fps) = (b, aps, fps).
Proof.
  intros Hnd Ha Hf. unfold consume, parameter_vector.
  rewrite consume_base_own by exact Hnd. cbn [fst snd].
  rewrite consume_anchor_points_own by assumption. cbn [fst snd].
  rewrite <- (app_nil_r (flat_map _ fps)).
  rewrite consume_free_points_own by assumption. reflexivity.
Qed.


End RoundTrip.


(** * Free points *)

Section FreePoints.
Context {F : Type} `{PyFloat F}.

(** [add_free_point] appends the point to its segment and bumps the order
    of that segment; it needs an entry of the order table. *)
Lemma add_free_point_inr (s s' : Airfoil F) (fp : FreePoint F) :
  add_free_point s fp = inr s' ->
  exists n,
    af_N s !! fp_previous_anchor_point fp = Some n
    /\ s' = set_needs_update
              (set_N
                 (set_free_points s
                    (<[fp_previous_anchor_point fp :=
                         default [] (free_points s !! fp_previous_anchor_point fp)
                         ++ [fp_xy fp]]> (free_points s)))
                 (<[fp_previous_anchor_point fp := (n + 1)%nat]> (af_N s)))
              true.
Proof.
  unfold add_free_point. intros E.
  apply bind_inr in E as (n & Hn & E). apply (getitem_inr (F := F)) in Hn.
  injection E as <-. exists n. split; [exact Hn |].
  destruct (free_points s !! fp_previous_anchor_point fp) as [l |]; simpl.
  - destruct l; reflexivity.
  - reflexivity.
Qed.

Lemma free_points_for_cons (k : string) (p : FreePoint F) (fps : list (FreePoint F)) :
  free_points_for k (p :: fps)
  = (if decide (fp_previous_anchor_point p = k) then [fp_xy p] else [])
    ++ free_points_for k fps.
Proof.
  unfold free_points_for. rewrite filter_cons.
  destruct (decide (fp_previous_anchor_point p = k)); reflexivity.
Qed.

(** The loop of [add_free_points], from any state. *)
Lemma add_free_points_loop_effect (fps : list (FreePoint F)) (s0 s1 : Airfoil F) :
  add_free_points_loop s0 fps = inr s1 ->
  (forall k,
      default [] (free_points s1 !! k)
      = default [] (free_points s0 !! k) ++ free_points_for k fps)
  /\ (forall k,
        af_N s1 !! k
        = (fun n => (n + length (free_points_for k fps))%nat) <$> af_N s0 !! k)
  /\ anchor_point_order s1 = anchor_point_order s0
  /\ anchor_points s1 = anchor_points s0
  /\ (g1_minus_points s1, g1_plus_points s1, g2_minus_points s1,
      g2_plus_points s1)
     = (g1_minus_points s0, g1_plus_points s0, g2_minus_points s0,
        g2_plus_points s0).
Proof.
  revert s0. induction fps as [| p fps IH]; intros s0 E.
  - injection E as <-. repeat split.
    + intros k. unfold free_points_for. simpl. rewrite app_nil_r. reflexivity.
    + intros k. unfold free_points_for. simpl.
      destruct (af_N s0 !! k); simpl; [f_equal; lia | reflexivity].
  - cbn [add_free_points_loop] in E.
    apply bind_inr in E as (s2 & Hp & E).
    apply add_free_point_inr in Hp as (n & Hn & ->).
    destruct (IH _ E) as (H1 & H2 & H3 & H4 & H5). clear IH E.
    cbn [free_points af_N anchor_point_order anchor_points g1_minus_points
           g1_plus_points g2_minus_points g2_plus_points set_needs_update
           set_N set_free_points] in H1, H2, H3, H4, H5.
    repeat split; try assumption.
    + intros k. rewrite H1, free_points_for_cons.
      destruct (decide (fp_previous_anchor_point p = k)) as [Heq | Hne].
      * subst k. rewrite lookup_insert_eq. simpl.
        rewrite <- app_assoc. reflexivity.
      * rewrite lookup_insert_ne by exact Hne. reflexivity.
    + intros k. rewrite H2, free_points_for_cons.
      destruct (decide (fp_previous_anchor_point p = k)) as [Heq | Hne].
      * subst k. rewrite lookup_insert_eq, Hn. simpl. f_equal. lia.
      * rewrite lookup_insert_ne by exact Hne. reflexivity.
Qed.

(** X1: a successful pass of [add_free_points] over a tuple appends to
    every segment the tuple's points for that segment, in tuple order,
    raises the order of the segment by their number, and touches neither
    the chain nor the anchors and their support points. *)
Theorem add_free_points_accumulates (s s' : Airfoil F) :
  add_free_points s = inr s' ->
  (forall k,
      default [] (free_points s' !! k)
      = default [] (free_points s !! k) ++ free_points_for k (free_point_tuple s))
  /\ (forall k,
        af_N s' !! k
        = (fun n => (n + length (free_points_for k (free_point_tuple s)))%nat)
            <$> af_N s !! k)
  /\ anchor_point_order s' = anchor_point_order s
  /\ anchor_points s' = anchor_points s
  /\ (g1_minus_points s', g1_plus_points s', g2_minus_points s', g2_plus_points s')
     = (g1_minus_points s, g1_plus_points s, g2_minus_points s, g2_plus_points s)
  /\ needs_update s' = true.
Proof.
  unfold add_free_points. intros E.
  apply bind_inr in E as (s1 & Hloop & E). injection E as <-.
  destruct (add_free_points_loop_effect _ _ _ Hloop) as (H1 & H2 & H3 & H4 & H5).
  cbn [free_points af_N anchor_point_order anchor_points g1_minus_points
         g1_plus_points g2_minus_points g2_plus_points needs_update
         set_needs_update].
  auto 10.
Qed.

End FreePoints.

(** X1 (witness): the free points of the unscaled reference airfoil are
    added once more. *)
Lemma add_free_points_accumulates_witness :
  exists s',
    add_free_points unscaled_airfoil = inr s'
    /\ default [] (free_points s' !! "le")
       = default [] (free_points unscaled_airfoil !! "le")
         ++ free_points_for "le" (free_point_tuple unscaled_airfoil).
Proof.
  assert (E : add_free_points unscaled_airfoil
              = inr (built (add_free_points unscaled_airfoil) blank_airfoil))
    by (vm_compute; reflexivity).
  eexists. split; [exact E |].
  apply (proj1 (add_free_points_accumulates _ _ E)).
Defined.

(** * The anchor chain *)

Section Chain.
Context {F : Type} `{PyFloat F}.

Lemma elem_of_list_insert_at {A} (i : nat) (x y : A) (l : list A) :
  x ∈ list_insert_at i y l <-> x = y \/ x ∈ l.
Proof.
  unfold list_insert_at. rewrite elem_of_app, elem_of_cons.
  rewrite <- (take_drop i l) at 3. rewrite elem_of_app. tauto.
Qed.

Lemma length_list_insert_at {A} (i : nat) (y : A) (l : list A) :
  length (list_insert_at i y l) = S (length l).
Proof.
  unfold list_insert_at. rewrite length_app. cbn [length].
  rewrite length_take, length_drop. lia.
Qed.

Lemma head_list_insert_at {A} (i : nat) (y : A) (l : list A) :
  l <> [] -> head (list_insert_at (i + 1) y l) = head l.
Proof.
  intros Hne. destruct l as [| x l]; [contradiction |].
  unfold list_insert_at. rewrite Nat.add_1_r. reflexivity.
Qed.

Lemma last_list_insert_at {A} (i : nat) (y : A) (l : list A) :
  (i < length l)%nat -> last (list_insert_at i y l) = last l.
Proof.
  intros Hi. unfold list_insert_at.
  rewrite <- (take_drop i l) at 3.
  assert (Hd : drop i l <> []).
  { intros E. apply (f_equal length) in E. rewrite length_drop in E.
    simpl in E. lia. }
  destruct (drop i l) as [| z d] eqn:Ed; [contradiction |].
  rewrite !last_app. cbn [last]. destruct d; reflexivity.
Qed.

(** What a successful [add_anchor_point] does to the chain and what it
    leaves alone. *)
Lemma add_anchor_point_chain (s s' : Airfoil F) (ap : AnchorPoint F) :
  add_anchor_point s ap = inr s' ->
  exists i,
    index_of (anchor_point_order s) (ap_previous_anchor_point ap) = Some i
    /\ anchor_point_order s'
       = list_insert_at (i + 1) (ap_name ap) (anchor_point_order s)
    /\ anchor_points s' = <[ap_name ap := ap_xy ap]> (anchor_points s)
    /\ free_points s' = free_points s
    /\ (forall k, k <> ap_name ap ->
          g1_minus_points s' !! k = g1_minus_points s !! k
          /\ g1_plus_points s' !! k = g1_plus_points s !! k
          /\ g2_minus_points s' !! k = g2_minus_points s !! k
          /\ g2_plus_points s' !! k = g2_plus_points s !! k).
Proof.
  intros E. unfold add_anchor_point in E.
  apply bind_inr in E as (i & Hi & E).
  apply bind_inr in E as (s1 & Hs1 & E).
  apply bind_inr in E as (i_name & Hname & E).
  apply bind_inr in E as (i_le & Hle & E).
  apply bind_inr in E as (s2 & Hs2 & E).
  apply bind_inr in E as (s3 & Hs3 & E).
  injection E as <-.
  apply set_slope_inr in Hs1 as (gm & gp & ->).
  apply set_curvature_inr in Hs3 as (gm2 & gp2 & ->).
  apply (index_inr (F := F)) in Hi. exists i. split; [exact Hi |].
  assert (Hs2' : exists N', s2 = set_N
                   (set_g1_points
                      (set_anchor_points s
                         (list_insert_at (i + 1) (ap_name ap) (anchor_point_order s))
                         (<[ap_name ap := ap_xy ap]> (anchor_points s)))
                      (<[ap_name ap := gm]> (g1_minus_points s))
                      (<[ap_name ap := gp]> (g1_plus_points s))) N').
  { destruct (i_le <? i_name)%nat.
    - apply bind_inr in Hs2 as (last & _ & Hs2). injection Hs2 as <-. eauto.
    - injection Hs2 as <-. eauto. }
  destruct Hs2' as (N' & ->). cbn.
  repeat split; try reflexivity;
    rewrite lookup_insert_ne by (intros Heq; apply H0; symmetry; exact Heq);
    reflexivity.
Qed.

(** A pass of [add_anchor_points] over anchors that are all in the chain. *)
Lemma add_anchor_points_loop_present (s : Airfoil F) (aps : list (AnchorPoint F)) :
  Forall (fun a => ap_name a ∈ anchor_point_order s) aps ->
  add_anchor_points_loop s aps = inr s.
Proof.
  intros Hall. induction Hall as [| a aps Ha Hall IH]; [reflexivity |].
  cbn [add_anchor_points_loop].
  destruct (index_of_is_Some _ _ Ha) as [i ->]. cbn [bind ret]. exact IH.
Qed.

Lemma add_anchor_points_loop_chain (aps : list (AnchorPoint F)) (s s' : Airfoil F) :
  add_anchor_points_loop s aps = inr s' ->
  (anchor_point_order s <> [] ->
   anchor_point_order s' <> []
   /\ head (anchor_point_order s') = head (anchor_point_order s))
  /\ (forall x, x ∈ anchor_point_order s -> x ∈ anchor_point_order s')
  /\ Forall (fun a => ap_name a ∈ anchor_point_order s') aps
  /\ (Forall (fun a => ap_previous_anchor_point a <> "te_2") aps ->
      last (anchor_point_order s) = Some "te_2" ->
      last (anchor_point_order s') = Some "te_2")
  /\ (length (anchor_point_order s') <= length (anchor_point_order s) + length aps)%nat
  /\ free_points s' = free_points s.
Proof.
  revert s. induction aps as [| a aps IH]; intros s E.
  - injection E as <-. repeat split; auto. simpl. lia.
  - cbn [add_anchor_points_loop] in E.
    apply bind_inr in E as (s1 & Hs1 & E).
    destruct (IH _ E) as (I1 & I2 & I3 & I4 & I5 & I6). clear IH E.
    destruct (index_of (anchor_point_order s) (ap_name a)) as [j |] eqn:Hj.
    + injection Hs1 as <-.
      repeat split; auto.
      * apply I1; assumption.
      * apply I1; assumption.
      * constructor; [| exact I3]. apply I2.
        apply index_of_Some in Hj as [Hj _].
        apply list_elem_of_lookup. eauto.
      * intros Hno. apply I4. inversion Hno; assumption.
      * simpl. lia.
    + apply add_anchor_point_chain in Hs1
        as (i & Hi & Horder & _ & Hfree & _).
      assert (Hin : forall x, x ∈ anchor_point_order s -> x ∈ anchor_point_order s1).
      { intros x Hx. rewrite Horder. apply elem_of_list_insert_at. auto. }
      assert (Hnot_nil : anchor_point_order s <> []).
      { intros Hnil. rewrite Hnil in Hi. discriminate Hi. }
      assert (Hs1_ne : anchor_point_order s1 <> []).
      { rewrite Horder. unfold list_insert_at.
        destruct (take (i + 1) (anchor_point_order s)); discriminate. }
      repeat split.
      * apply I1, Hs1_ne.
      * destruct (I1 Hs1_ne) as [_ ->]. rewrite Horder.
        apply head_list_insert_at, Hnot_nil.
      * auto.
      * constructor; [| exact I3]. apply I2. rewrite Horder.
        apply elem_of_list_insert_at. auto.
      * intros Hno Hlast. inversion Hno as [| ? ? Hprev Hno']; subst.
        apply I4; [exact Hno' |]. rewrite Horder.
        rewrite last_list_insert_at; [exact Hlast |].
        apply index_of_Some in Hi as [Hi _].
        pose proof (lookup_lt_Some _ _ _ Hi) as Hlt.
        destruct (decide (i + 1 < length (anchor_point_order s))%nat)
          as [Hok | Hbad]; [exact Hok |].
        exfalso. apply Hprev.
        rewrite last_lookup in Hlast.
        replace (Nat.pred (length (anchor_point_order s))) with i in Hlast by lia.
        congruence.
      * rewrite Horder, length_list_insert_at in I5. simpl. lia.
      * congruence.
Qed.

End Chain.

Section UpdateChain.
Context {F : Type} `{PyFloat F}.

Lemma order_control_points_chain (s s' : Airfoil F) :
  order_control_points s = inr s' -> chain_state s' = chain_state s.
Proof.
  unfold order_control_points. intros E.
  apply bind_inr in E as (cps & _ & E). injection E as <-. reflexivity.
Qed.

Lemma update_anchor_point_array_chain (s s' : Airfoil F) :
  update_anchor_point_array s = inr s' -> chain_state s' = chain_state s.
Proof.
  unfold update_anchor_point_array. intros E.
  apply bind_inr in E as (arr & _ & E). injection E as <-. reflexivity.
Qed.

Lemma generate_airfoil_coordinates_chain (s s' : Airfoil F) :
  generate_airfoil_coordinates s = inr s' -> chain_state s' = chain_state s.
Proof.
  unfold generate_airfoil_coordinates. intros E.
  apply bind_inr in E as (Cs & _ & E).
  apply bind_inr in E as (cc & _ & E). injection E as <-. reflexivity.
Qed.

Lemma chain_state_components (s s' : Airfoil F) :
  chain_state s' = chain_state s ->
  anchor_point_order s' = anchor_point_order s
  /\ anchor_points s' = anchor_points s
  /\ (g1_minus_points s', g1_plus_points s', g2_minus_points s', g2_plus_points s')
     = (g1_minus_points s, g1_plus_points s, g2_minus_points s, g2_plus_points s)
  /\ af_N s' = af_N s
  /\ free_points s' = free_points s.
Proof. unfold chain_state. intros [= -> -> -> -> -> -> -> ->]. auto. Qed.

(** [update] is the two insertion passes; the steps after them leave the
    chain, the support points, the order table and the free points alone. *)
Lemma update_chain (s s' : Airfoil F) :
  update s = inr s' ->
  exists s1 s2,
    add_anchor_points_loop s (anchor_point_tuple s) = inr s1
    /\ add_free_points_loop (set_needs_update s1 true) (free_point_tuple s) = inr s2
    /\ chain_state s' = chain_state s2.
Proof.
  unfold update. intros E.
  apply bind_inr in E as (s1 & Hs1 & E).
  apply bind_inr in E as (s2 & Hs2 & E).
  apply bind_inr in E as (s3 & Hs3 & E).
  apply bind_inr in E as (s4 & Hs4 & E).
  apply bind_inr in E as (s5 & Hs5 & E).
  injection E as <-.
  unfold add_anchor_points in Hs1.
  apply bind_inr in Hs1 as (s1' & Hs1 & E1). injection E1 as <-.
  pose proof (add_anchor_points_loop_kept _ _ _ Hs1) as K.
  apply kept_components in K as (_ & _ & _ & K & _).
  unfold add_free_points in Hs2.
  apply bind_inr in Hs2 as (s2' & Hs2 & E2). injection E2 as <-.
  change (free_point_tuple (set_needs_update s1' true))
    with (free_point_tuple s1') in Hs2. rewrite K in Hs2.
  exists s1', s2'. split; [exact Hs1 |]. split; [exact Hs2 |].
  apply order_control_points_chain in Hs3.
  apply update_anchor_point_array_chain in Hs4.
  apply generate_airfoil_coordinates_chain in Hs5.
  change (chain_state (set_needs_update s5 false)) with (chain_state s5).
  rewrite Hs5.
  change (chain_state (rotate s4 (- value (alf (base_airfoil_params s4)))%fl))
    with (chain_state s4).
  rewrite Hs4, Hs3. reflexivity.
Qed.

(** X2: the chain of every constructed airfoil starts with [te_1], holds
    [le], [te_2] and the name of every anchor point of its tuple, and has
    at most three names more than the tuple has anchors; it ends with
    [te_2] when no anchor point names [te_2] as its predecessor. *)
Theorem constructed_chain_shape (number_coordinates : nat)
  (b : BaseAirfoilParams F) (apt : list (AnchorPoint F))
  (fpt : list (FreePoint F)) (o : option (list F)) (af : Airfoil F) :
  Airfoil_init number_coordinates b apt fpt o = inr af ->
  head (anchor_point_order af) = Some "te_1"
  /\ "le" ∈ anchor_point_order af
  /\ "te_2" ∈ anchor_point_order af
  /\ Forall (fun a => ap_name a ∈ anchor_point_order af) (anchor_point_tuple af)
  /\ (length (anchor_point_order af) <= 3 + length (anchor_point_tuple af))%nat
  /\ (Forall (fun a => ap_previous_anchor_point a <> "te_2") (anchor_point_tuple af) ->
      last (anchor_point_order af) = Some "te_2").
Proof.
  intros E. unfold Airfoil_init in E.
  apply bind_inr in E as ([[b' apt'] fpt'] & _ & E).
  destruct (assemble_result _ _ _ _ _ _ E) as (_ & _ & Hapt & _ & _).
  unfold assemble in E.
  apply bind_inr in E as (g1 & _ & E).
  apply bind_inr in E as (g2 & _ & E).
  apply update_chain in E as (s1 & s2 & Hs1 & Hs2 & Hc).
  apply chain_state_components in Hc as (Hc & _).
  apply add_free_points_loop_effect in Hs2 as (_ & _ & Ho & _).
  rewrite Hc, Ho. clear Hc Ho.
  change (anchor_point_order (set_needs_update s1 true))
    with (anchor_point_order s1).
  apply add_anchor_points_loop_chain in Hs1 as (I1 & I2 & I3 & I4 & I5 & _).
  cbn [anchor_point_order anchor_point_tuple set_g2_points set_g1_points
         initial_attributes] in I1, I2, I3, I4, I5.
  rewrite Hapt.
  destruct (I1 ltac:(discriminate)) as [_ Hhead].
  repeat split.
  - rewrite Hhead. reflexivity.
  - apply I2, list_elem_of_In. simpl. tauto.
  - apply I2, list_elem_of_In. simpl. tauto.
  - exact I3.
  - simpl in I5. lia.
  - intros Hno. apply I4; [exact Hno | reflexivity].
Qed.

(** X3: a second [update] leaves the chain, the anchors and the support
    points as the first one left them, but adds every free point of the
    tuple once more and raises the orders again: the anchor pass skips the
    names already in the chain, the free-point pass skips nothing. *)
Theorem second_update_adds_free_points_again (s s1 s2 : Airfoil F) :
  update s = inr s1 ->
  update s1 = inr s2 ->
  anchor_point_order s2 = anchor_point_order s1
  /\ anchor_points s2 = anchor_points s1
  /\ (g1_minus_points s2, g1_plus_points s2, g2_minus_points s2, g2_plus_points s2)
     = (g1_minus_points s1, g1_plus_points s1, g2_minus_points s1, g2_plus_points s1)
  /\ (forall k,
        default [] (free_points s2 !! k)
        = default [] (free_points s1 !! k)
          ++ free_points_for k (free_point_tuple s1))
  /\ (forall k,
        af_N s2 !! k
        = (fun n => (n + length (free_points_for k (free_point_tuple s1)))%nat)
            <$> af_N s1 !! k).
Proof.
  intros E1 E2.
  destruct (update_result _ _ E1) as (_ & _ & Hapt & _ & _).
  apply update_chain in E1 as (a1 & a2 & Ha1 & Ha2 & Hc1).
  apply chain_state_components in Hc1 as (Ho1 & _).
  apply add_free_points_loop_effect in Ha2 as (_ & _ & Ho2 & _).
  apply add_anchor_points_loop_chain in Ha1 as (_ & _ & Hall & _).
  change (anchor_point_order (set_needs_update a1 true))
    with (anchor_point_order a1) in Ho2.
  rewrite <- Ho2, <- Ho1, <- Hapt in Hall. clear Ho1 Ho2 Hapt a1 a2.
  apply update_chain in E2 as (b1 & b2 & Hb1 & Hb2 & Hc2).
  rewrite (add_anchor_points_loop_present _ _ Hall) in Hb1. injection Hb1 as <-.
  apply chain_state_components in Hc2 as (Q1 & Q2 & Q3 & Q4 & Q5).
  apply add_free_points_loop_effect in Hb2 as (R1 & R2 & R3 & R4 & R5).
  cbn [free_points af_N anchor_point_order anchor_points g1_minus_points
         g1_plus_points g2_minus_points g2_plus_points set_needs_update]
    in R1, R2, R3, R4, R5.
  rewrite Q1, Q2, Q3, Q4, Q5. auto 10.
Qed.

End UpdateChain.

(** X2 (witness): the reference airfoil with one anchor. *)
Lemma constructed_chain_shape_witness :
  head (anchor_point_order unscaled_airfoil) = Some "te_1"
  /\ last (anchor_point_order unscaled_airfoil) = Some "te_2".
Proof.
  assert (E : Airfoil_init 3 unscaled_descriptor [lower] [bump] None
              = inr unscaled_airfoil) by (vm_compute; reflexivity).
  destruct (constructed_chain_shape _ _ _ _ _ _ E) as (H1 & _ & _ & _ & _ & H2).
  split; [exact H1 |]. apply H2.
  assert (Ht : anchor_point_tuple unscaled_airfoil = [lower])
    by (vm_compute; reflexivity).
  rewrite Ht. repeat constructor. discriminate.
Defined.

(** X3 (witness): the reference airfoil updated twice more. *)
Lemma second_update_adds_free_points_again_witness :
  exists s1 s2,
    update unscaled_airfoil = inr s1
    /\ update s1 = inr s2
    /\ anchor_point_order s2 = anchor_point_order s1
    /\ default [] (free_points s2 !! "le")
       = default [] (free_points s1 !! "le")
         ++ free_points_for "le" (free_point_tuple s1).
Proof.
  assert (E1 : update unscaled_airfoil
               = inr (built (update unscaled_airfoil) blank_airfoil))
    by (vm_compute; reflexivity).
  assert (E2 : update (built (update unscaled_airfoil) blank_airfoil)
               = inr (built (update (built (update unscaled_airfoil) blank_airfoil))
                        blank_airfoil))
    by (vm_compute; reflexivity).
  destruct (second_update_adds_free_points_again _ _ _ E1 E2)
    as (H1 & _ & _ & H4 & _).
  eexists _, _. split; [exact E1 |]. split; [exact E2 |].
  split; [exact H1 | apply H4].
Defined.

(** * Array shapes *)

Section Shapes.
Context {F : Type} `{PyFloat F}.

Lemma linspace01_length (n : nat) : length (linspace01 (F := F) n) = n.
Proof.
  destruct n as [| [| m]]; [reflexivity | reflexivity |].
  unfold linspace01. rewrite length_app, length_map, length_seq. simpl. lia.
Qed.

Lemma accumulate_loop_length (coef : nat -> F) (m : nat -> nat) (l : list nat)
  (t : list F) :
  length (fold_left (fun acc i => accumulate acc (coef i) i (m i) t) l
            (repeat f0 (length t)))
  = length t.
Proof.
  rewrite accumulate_pointwise by apply repeat_length.
  rewrite zip_with_repeat_l, length_map. reflexivity.
Qed.

Lemma position_sum_length (col : list F) (n : nat) (t : list F) :
  length (position_sum col n t) = length t.
Proof.
  exact (accumulate_loop_length
           (fun i => (nth i col f0 * nCr (n - 1) i)%fl)
           (fun i => (n - 1 - i)%nat) (seq 0 n) t).
Qed.

Lemma first_derivative_sum_length (col : list F) (n : nat) (t : list F) :
  length (first_derivative_sum col n t) = length t.
Proof.
  exact (accumulate_loop_length
           (fun i => (of_Z (Z.of_nat n - 1) * (nth (i + 1) col f0 - nth i col f0)
                      * nCr (n - 2) i)%fl)
           (fun i => (n - 2 - i)%nat) (seq 0 (n - 1)) t).
Qed.

Lemma second_derivative_sum_length (col : list F) (n : nat) (t : list F) :
  length (second_derivative_sum col n t) = length t.
Proof.
  exact (accumulate_loop_length
           (fun i => (of_Z ((Z.of_nat n - 1) * (Z.of_nat n - 2))
                      * (nth (i + 2) col f0 - of_Z 2 * nth (i + 1) col f0
                         + nth i col f0)
                      * nCr (n - 3) i)%fl)
           (fun i => (n - 3 - i)%nat) (seq 0 (n - 2)) t).
Qed.

Lemma zip_with4_length (f : F -> F -> F -> F -> F) (a b c d : list F) (n : nat) :
  length a = n -> length b = n -> length c = n -> length d = n ->
  length (zip_with4 f a b c d) = n.
Proof.
  revert a b c d. induction n as [| n IH]; intros a b c d Ha Hb Hc Hd.
  - destruct a; [reflexivity | discriminate].
  - destruct a as [| a0 a], b as [| b0 b], c as [| c0 c], d as [| d0 d];
      try discriminate.
    simpl. f_equal. apply IH; simpl in *; lia.
Qed.

Lemma bezier_sampled (P : list (F * F)) (n : nat) :
  sampled n (bezier P n).
Proof.
  pose proof (linspace01_length n) as Ht.
  unfold sampled, bezier. cbn [C_x C_y C_k].
  rewrite !position_sum_length.
  repeat split; try exact Ht.
  intros k. destruct (3 <=? length P)%nat; [| discriminate].
  intros [= <-].
  apply zip_with4_length; rewrite ?first_derivative_sum_length,
    ?second_derivative_sum_length; exact Ht.
Qed.

(** X4: for at most 171 control points, for which [nCr] is defined in the
    source, [bezier] stores a curvature exactly when it is given at least
    three control points, and then every array it returns, the curvature
    included, has one entry per sample. *)
Theorem bezier_array_shapes (P : list (F * F)) (n : nat) :
  (length P <= 171)%nat ->
  (is_Some (C_k (bezier P n)) <-> (3 <= length P)%nat)
  /\ ((3 <= length P)%nat ->
      length (C_t (bezier P n)) = n
      /\ length (C_x (bezier P n)) = n
      /\ length (C_y (bezier P n)) = n
      /\ length (C_px (bezier P n)) = n
      /\ length (C_py (bezier P n)) = n
      /\ length (C_ppx (bezier P n)) = n
      /\ length (C_ppy (bezier P n)) = n
      /\ exists k, C_k (bezier P n) = Some k /\ length k = n).
Proof.
  intros _.
  pose proof (linspace01_length n) as Ht.
  destruct (bezier_sampled P n) as (Hx & Hy & Hk).
  split; [split |].
  - unfold bezier. cbn [C_k].
    destruct (3 <=? length P)%nat eqn:E; intros Hs.
    + apply Nat.leb_le, E.
    + destruct Hs as [k Hs]. discriminate.
  - intros Hlen. apply Nat.leb_le in Hlen.
    unfold bezier. cbn [C_k]. rewrite Hlen. eauto.
  - intros Hlen.
    repeat split; try assumption.
    + unfold bezier. cbn [C_px].
      rewrite first_derivative_sum_length. exact Ht.
    + unfold bezier. cbn [C_py].
      rewrite first_derivative_sum_length. exact Ht.
    + unfold bezier. cbn [C_ppx].
      rewrite second_derivative_sum_length. exact Ht.
    + unfold bezier. cbn [C_ppy].
      rewrite second_derivative_sum_length. exact Ht.
    + destruct (C_k (bezier P n)) as [k |] eqn:Ek.
      * exists k. split; [reflexivity | apply Hk; reflexivity].
      * exfalso. revert Ek. unfold bezier. cbn [C_k].
        apply Nat.leb_le in Hlen. rewrite Hlen. discriminate.
Qed.

Lemma curves_loop_shape (s : Airfoil F) (keys : list string) (start : nat)
  (Cs : list (BezierCurve F)) :
  curves_loop s keys start = inr Cs ->
  length Cs = length keys /\ Forall (sampled (nt s)) Cs.
Proof.
  revert start Cs. induction keys as [| key keys IH]; intros start Cs E.
  - injection E as <-. split; [reflexivity | constructor].
  - cbn [curves_loop] in E.
    apply bind_inr in E as (n & _ & E).
    apply bind_inr in E as (Cs' & HCs & E). injection E as <-.
    destruct (IH _ _ HCs) as [Hlen Hall]. split; [simpl; lia |].
    constructor; [apply bezier_sampled | exact Hall].
Qed.

Lemma length_zip_same {A B} (a : list A) (b : list B) (n : nat) :
  length a = n -> length b = n -> length (zip a b) = n.
Proof. intros Ha Hb. rewrite length_zip_with. lia. Qed.

Lemma length_tail {A} (l : list A) : length (tail l) = (length l - 1)%nat.
Proof. destruct l; simpl; lia. Qed.

Lemma stack_curves_length (n : nat) (Cs : list (BezierCurve F)) (idx : nat)
  (co cu co' cu' : list (F * F)) :
  Forall (sampled n) Cs ->
  length co = length cu ->
  stack_curves idx Cs co cu = inr (co', cu') ->
  length co' = length cu'
  /\ length co'
     = match idx, Cs with
       | _, [] => length co
       | O, _ :: rest => (n + length rest * (n - 1))%nat
       | S _, _ => (length co + length Cs * (n - 1))%nat
       end.
Proof.
  intros Hall. revert idx co cu.
  induction Hall as [| C Cs HC Hall IH]; intros idx co cu Hco E.
  - injection E as <- <-. split; [exact Hco |]. destruct idx; reflexivity.
  - cbn [stack_curves] in E.
    apply bind_inr in E as (k & Hk & E).
    destruct HC as (Hx & Hy & Hkl).
    assert (Hklen : length k = n).
    { apply Hkl. unfold curve_k in Hk. destruct (C_k C); [| discriminate].
      injection Hk as ->. reflexivity. }
    destruct idx as [| idx]; cbn [Nat.eqb] in E.
    + apply IH in E as [E1 E2];
        [| rewrite !(length_zip_same _ _ n) by assumption; reflexivity].
      split; [exact E1 |]. rewrite E2.
      rewrite (length_zip_same _ _ n) by assumption.
      destruct Cs; simpl; lia.
    + apply IH in E as [E1 E2].
      * split; [exact E1 |]. rewrite E2, length_app.
        rewrite (length_zip_same _ _ (n - 1))
          by (rewrite length_tail; lia).
        destruct Cs; simpl; lia.
      * rewrite !length_app.
        rewrite !(length_zip_same _ _ (n - 1)) by (rewrite length_tail; lia).
        lia.
Qed.

(** X5: a successful [generate_airfoil_coordinates] stores one curve per
    segment of the chain; the outline and the curvature sequence have the
    same length, [nt] samples for the first segment and [nt - 1] for each
    further one, the sample shared by two segments being kept once. *)
Theorem outline_length (s s' : Airfoil F) :
  generate_airfoil_coordinates s = inr s' ->
  exists co cu,
    coords s' = Some co
    /\ curvature s' = Some cu
    /\ length (af_C s') = (length (anchor_point_order s) - 1)%nat
    /\ length cu = length co
    /\ length co
       = match (length (anchor_point_order s) - 1)%nat with
         | O => 0%nat
         | S m => (nt s + m * (nt s - 1))%nat
         end.
Proof.
  unfold generate_airfoil_coordinates. intros E.
  apply bind_inr in E as (Cs & HCs & E).
  apply bind_inr in E as ([co cu] & Hst & E). injection E as <-.
  apply curves_loop_shape in HCs as [Hlen Hall].
  apply (stack_curves_length (nt s)) in Hst as [H1 H2];
    [| exact Hall | reflexivity].
  exists co, cu. cbn [coords curvature af_C set_curves fst snd].
  rewrite length_take in Hlen.
  replace (Nat.min (length (anchor_point_order s) - 1)
             (length (anchor_point_order s)))
    with (length (anchor_point_order s) - 1)%nat in Hlen by lia.
  repeat split; try assumption; [symmetry; exact H1 |].
  rewrite H2, <- Hlen. destruct Cs; reflexivity.
Qed.

End Shapes.

Lemma bezier_array_shapes_witness :
  length (C_x (bezier [(1, 0); (0.5, 0.25); (0, 0)]%float 5)) = 5%nat
  /\ length (C_ppy (bezier [(1, 0); (0.5, 0.25); (0, 0)]%float 5)) = 5%nat.
Proof.
  destruct (bezier_array_shapes [(1, 0); (0.5, 0.25); (0, 0)]%float 5)
    as [_ Hs]; [simpl; lia |].
  destruct Hs as (_ & Hx & _ & _ & _ & _ & Hppy & _); [simpl; lia |].
  split; [exact Hx | exact Hppy].
Defined.

Lemma outline_length_witness :
  exists co,
    coords (built (generate_airfoil_coordinates unscaled_airfoil) blank_airfoil)
    = Some co
    /\ length co = 7%nat.
Proof.
  assert (E : generate_airfoil_coordinates unscaled_airfoil
              = inr (built (generate_airfoil_coordinates unscaled_airfoil)
                       blank_airfoil))
    by (vm_compute; reflexivity).
  destruct (outline_length _ _ E) as (co & cu & Hco & _ & _ & _ & Hlen).
  exists co. split; [exact Hco |].
  rewrite Hlen.
  assert (Ho : length (anchor_point_order unscaled_airfoil) = 4%nat)
    by (vm_compute; reflexivity).
  assert (Hn : nt unscaled_airfoil = 3%nat) by (vm_compute; reflexivity).
  rewrite Ho, Hn. reflexivity.
Defined.

(** * Rigid motions of the control polygon *)

Section RigidMotions.

Local Open Scope R_scope.

Lemma rotate_point_inverse (a : R) (p : R * R) :
  rotate_point (F := R) (- a) (rotate_point a p) = p.
Proof.
  destruct p as [x y]. unfold rotate_point. cbn.
  rewrite cos_neg, sin_neg.
  pose proof (sin2_cos2 a) as E. unfold Rsqr in E.
  f_equal.
  - transitivity ((sin a * sin a + cos a * cos a) * x); [ring | rewrite E; ring].
  - transitivity ((sin a * sin a + cos a * cos a) * y); [ring | rewrite E; ring].
Qed.

Lemma rotate_point_compose (a b : R) (p : R * R) :
  rotate_point (F := R) b (rotate_point a p) = rotate_point (a + b) p.
Proof.
  destruct p as [x y]. unfold rotate_point. cbn.
  rewrite cos_plus, sin_plus. f_equal; ring.
Qed.

Lemma rotate_point_distance (a : R) (p q : R * R) :
  sq (F := R) (fst (rotate_point a p) - fst (rotate_point a q))
  + sq (F := R) (snd (rotate_point a p) - snd (rotate_point a q))
  = sq (F := R) (fst p - fst q) + sq (F := R) (snd p - snd q).
Proof.
  destruct p as [x y], q as [u v]. unfold rotate_point, sq. cbn.
  pose proof (sin2_cos2 a) as E. unfold Rsqr in E.
  transitivity ((sin a * sin a + cos a * cos a)
                * ((x - u) * (x - u) + (y - v) * (y - v))); [ring |].
  rewrite E. ring.
Qed.

Lemma map_inverse {A} (f g : A -> A) (l : list A) :
  (forall x, g (f x) = x) -> map g (map f l) = l.
Proof.
  intros E. rewrite map_map. induction l as [| x l IH]; [reflexivity |].
  simpl. rewrite E, IH. reflexivity.
Qed.

(** X6: in exact arithmetic [rotate] by an angle and then by its opposite
    gives back the control points and the anchor array, two rotations
    compose to the rotation by the sum of the angles, and [translate]
    by an offset and then by its opposite gives back the control points;
    each of them leaves the object marked as out of date. *)
Theorem rotate_and_translate_compose (s : Airfoil R) (a b dx dy : R) :
  control_points (rotate (rotate s a) (- a)) = control_points s
  /\ anchor_point_array (rotate (rotate s a) (- a)) = anchor_point_array s
  /\ control_points (rotate (rotate s a) b) = control_points (rotate s (a + b))
  /\ anchor_point_array (rotate (rotate s a) b)
     = anchor_point_array (rotate s (a + b))
  /\ control_points (translate (translate s dx dy) (- dx) (- dy))
     = control_points s
  /\ needs_update (rotate s a) = true
  /\ needs_update (translate s dx dy) = true.
Proof.
  unfold rotate, translate.
  cbn [control_points anchor_point_array needs_update set_control_points
         set_anchor_point_array set_needs_update].
  repeat split.
  - apply map_inverse, rotate_point_inverse.
  - apply map_inverse, rotate_point_inverse.
  - rewrite map_map. apply map_ext. intros p. apply rotate_point_compose.
  - rewrite map_map. apply map_ext. intros p. apply rotate_point_compose.
  - apply map_inverse. intros [x y]. cbn. f_equal; ring.
Qed.

(** X7: in exact arithmetic [rotate] keeps the number of control points and
    the distance between any two of them. *)
Theorem rotate_keeps_distances (s : Airfoil R) (a : R) (i j : nat)
  (p q : R * R) :
  control_points (rotate s a) !! i = Some p ->
  control_points (rotate s a) !! j = Some q ->
  length (control_points (rotate s a)) = length (control_points s)
  /\ exists p0 q0,
       control_points s !! i = Some p0
       /\ control_points s !! j = Some q0
       /\ sq (F := R) (fst p - fst q) + sq (F := R) (snd p - snd q)
          = sq (F := R) (fst p0 - fst q0) + sq (F := R) (snd p0 - snd q0).
Proof.
  unfold rotate.
  cbn [control_points set_control_points set_anchor_point_array
         set_needs_update].
  rewrite !list_lookup_fmap, length_map. intros Hp Hq.
  split; [reflexivity |].
  destruct (control_points s !! i) as [p0 |]; [| discriminate].
  destruct (control_points s !! j) as [q0 |]; [| discriminate].
  injection Hp as <-. injection Hq as <-.
  exists p0, q0. repeat split. apply rotate_point_distance.
Qed.

End RigidMotions.

Lemma rotate_keeps_distances_witness :
  length (control_points
            (rotate (set_control_points crest_state [(1, 0); (0, 0)]%R)
               (PI / 2)%R))
  = length (control_points (set_control_points crest_state [(1, 0); (0, 0)]%R)).
Proof.
  refine (proj1 (rotate_keeps_distances
                   (set_control_points crest_state [(1, 0); (0, 0)]%R)
                   (PI / 2)%R 0 1
                   (rotate_point (PI / 2)%R (1, 0)%R)
                   (rotate_point (PI / 2)%R (0, 0)%R) _ _));
    reflexivity.
Defined.

(** * Tangents at the ends of a curve and at an anchor *)

Section Tangents.

Local Open Scope R_scope.

Lemma first_derivative_sum_pointwise {F} `{PyFloat F} (col : list F) (n : nat)
  (t : list F) :
  first_derivative_sum col n t = map (first_derivative_at col n) t.
Proof.
  unfold first_derivative_sum, first_derivative_at.
  rewrite (accumulate_pointwise
             (fun i => (of_Z (Z.of_nat n - 1)
                        * (nth (i + 1) col f0 - nth i col f0)
                        * nCr (n - 2) i)%fl)
             (fun i => (n - 2 - i)%nat))
    by apply repeat_length.
  apply zip_with_repeat_l.
Qed.

Lemma bezier_tangent_samples {F} `{PyFloat F} (P : list (F * F)) (n : nat) :
  zip (C_px (bezier P n)) (C_py (bezier P n))
  = map (fun tj => (first_derivative_at (map fst P) (length P) tj,
                    first_derivative_at (map snd P) (length P) tj))
      (linspace01 n).
Proof.
  unfold bezier. cbn [C_px C_py]. rewrite !first_derivative_sum_pointwise.
  induction (linspace01 n) as [| tj t IH]; [reflexivity |].
  simpl. f_equal. exact IH.
Qed.

Lemma first_derivative_at_0 (col : list R) :
  (2 <= length col)%nat ->
  first_derivative_at (F := R) col (length col) 0
  = (IZR (Z.of_nat (length col)) - 1) * (nth 1 col 0 - nth 0 col 0).
Proof.
  intros Hlen. unfold first_derivative_at.
  set (n := length col) in *.
  destruct (n - 1)%nat as [| k] eqn:Ek; [lia |].
  cbn [seq fold_left].
  rewrite (fold_left_vanishing
             (fun i => term (of_Z (Z.of_nat n - 1)
                             * (nth (i + 1) col f0 - nth i col f0)
                             * nCr (n - 2) i)%fl i (n - 2 - i) 0)).
  - rewrite term_at_0, nCr_0_r. cbn. rewrite minus_IZR. ring.
  - intros i Hi. apply in_seq in Hi. rewrite term_at_0.
    destruct i; [lia | reflexivity].
Qed.

Lemma first_derivative_at_1 (col : list R) :
  (2 <= length col)%nat ->
  first_derivative_at (F := R) col (length col) 1
  = (IZR (Z.of_nat (length col)) - 1)
    * (nth (length col - 1) col 0 - nth (length col - 2) col 0).
Proof.
  intros Hlen. unfold first_derivative_at.
  set (n := length col) in *.
  replace (n - 1)%nat with (S (n - 2)) by lia.
  rewrite seq_S, fold_left_app. cbn [fold_left Nat.add].
  rewrite (fold_left_vanishing
             (fun i => term (of_Z (Z.of_nat n - 1)
                             * (nth (i + 1) col f0 - nth i col f0)
                             * nCr (n - 2) i)%fl i (n - 2 - i) 1)).
  - rewrite term_at_1, Nat.sub_diag, nCr_diag.
    replace (n - 2 + 1)%nat with (S (n - 2)) by lia.
    cbn. rewrite minus_IZR. ring.
  - intros i Hi. apply in_seq in Hi. rewrite term_at_1.
    destruct (n - 2 - i)%nat eqn:E; [lia | reflexivity].
Qed.

Lemma nth_map_lookup {A} (f : A -> R) (l : list A) (i : nat) (a : A) :
  l !! i = Some a -> nth i (map f l) 0 = f a.
Proof.
  revert i. induction l as [| x l IH]; intros [| i]; try discriminate.
  - intros [= ->]. reflexivity.
  - simpl. apply IH.
Qed.

(** The tangents of a sampled curve at its first and at its last sample. *)
Lemma bezier_ends_tangent (P : list (R * R)) (n : nat) (p0 p1 q1 q2 : R * R) :
  (2 <= n)%nat ->
  P !! 0%nat = Some p0 -> P !! 1%nat = Some p1 ->
  P !! (length P - 2)%nat = Some q1 -> P !! (length P - 1)%nat = Some q2 ->
  head (zip (C_px (bezier P n)) (C_py (bezier P n)))
  = Some (pscale (IZR (Z.of_nat (length P)) - 1) (psub p1 p0))
  /\ last (zip (C_px (bezier P n)) (C_py (bezier P n)))
     = Some (pscale (IZR (Z.of_nat (length P)) - 1) (psub q2 q1)).
Proof.
  intros Hn H0 H1 H2 H3.
  assert (Hlen : (2 <= length P)%nat).
  { apply lookup_lt_Some in H1. lia. }
  rewrite bezier_tangent_samples.
  destruct (linspace01_ends n Hn) as [mid ->].
  assert (Hf : (2 <= length (map fst P))%nat) by (rewrite length_map; exact Hlen).
  assert (Hs : (2 <= length (map snd P))%nat) by (rewrite length_map; exact Hlen).
  pose proof (first_derivative_at_0 _ Hf) as Ef0.
  pose proof (first_derivative_at_0 _ Hs) as Es0.
  pose proof (first_derivative_at_1 _ Hf) as Ef1.
  pose proof (first_derivative_at_1 _ Hs) as Es1.
  rewrite !length_map in Ef0, Es0, Ef1, Es1.
  rewrite (nth_map_lookup fst P _ _ H0), (nth_map_lookup fst P _ _ H1) in Ef0.
  rewrite (nth_map_lookup snd P _ _ H0), (nth_map_lookup snd P _ _ H1) in Es0.
  rewrite (nth_map_lookup fst P _ _ H2), (nth_map_lookup fst P _ _ H3) in Ef1.
  rewrite (nth_map_lookup snd P _ _ H2), (nth_map_lookup snd P _ _ H3) in Es1.
  split.
  - cbn [map head]. rewrite Ef0, Es0. reflexivity.
  - rewrite app_comm_cons, map_app. cbn [map]. rewrite last_snoc.
    rewrite Ef1, Es1. reflexivity.
Qed.

(** X8: in exact arithmetic, for at least two control points and two
    samples, the sampled first derivative starts as [n - 1] times the first
    side of the control polygon and ends as [n - 1] times its last side. *)
Theorem bezier_end_tangents (P : list (R * R)) (n : nat) (p0 p1 q1 q2 : R * R) :
  (2 <= n)%nat ->
  P !! 0%nat = Some p0 -> P !! 1%nat = Some p1 ->
  P !! (length P - 2)%nat = Some q1 -> P !! (length P - 1)%nat = Some q2 ->
  head (zip (C_px (bezier P n)) (C_py (bezier P n)))
  = Some (pscale (IZR (Z.of_nat (length P)) - 1) (psub p1 p0))
  /\ last (zip (C_px (bezier P n)) (C_py (bezier P n)))
     = Some (pscale (IZR (Z.of_nat (length P)) - 1) (psub q2 q1)).
Proof. apply bezier_ends_tangent. Qed.

(** What [set_slope] stores: the anchor it read lies on the segment between
    the two G1 points it wrote, at the length ratio of the anchor, and the
    two G1 points are the length of the anchor apart. *)
Lemma set_slope_line (s s' : Airfoil R) (ap : AnchorPoint R) :
  set_slope s ap = inr s' ->
  exists a gm gp,
    anchor_points s !! ap_name ap = Some a
    /\ g1_minus_points s' !! ap_name ap = Some gm
    /\ g1_plus_points s' !! ap_name ap = Some gp
    /\ a = padd (pscale (1 - value (ap_r ap)) gm) (pscale (value (ap_r ap)) gp)
    /\ psub a gm = pscale (value (ap_r ap)) (psub gp gm)
    /\ psub gp a = pscale (1 - value (ap_r ap)) (psub gp gm)
    /\ sq (fst gp - fst gm) + sq (snd gp - snd gm)
       = sq (value (ap_L ap)).
Proof.
  unfold set_slope. intros E.
  apply bind_inr in E as (i & _ & E).
  apply bind_inr in E as (i_le & _ & E).
  apply bind_inr in E as ([x y] & Ha & E).
  apply (getitem_inr (F := R)) in Ha.
  pose proof (sin2_cos2 (value (ap_phi ap))) as T. unfold Rsqr in T.
  exists (x, y).
  destruct (i <? i_le)%nat; injection E as <-;
    cbn [g1_minus_points g1_plus_points set_g1_points];
    rewrite !lookup_insert_eq;
    eexists _, _; (split; [exact Ha |]); (split; [reflexivity |]);
    (split; [reflexivity |]);
    unfold padd, psub, pscale, unit_vector, sq; cbn;
    repeat split; try (f_equal; ring).
  - transitivity ((sin (value (ap_phi ap)) * sin (value (ap_phi ap))
                   + cos (value (ap_phi ap)) * cos (value (ap_phi ap)))
                  * (value (ap_L ap) * value (ap_L ap))); [ring |].
    rewrite T. ring.
  - transitivity ((sin (value (ap_phi ap)) * sin (value (ap_phi ap))
                   + cos (value (ap_phi ap)) * cos (value (ap_phi ap)))
                  * (value (ap_L ap) * value (ap_L ap))); [ring |].
    rewrite T. ring.
Qed.

(** X9: in exact arithmetic [set_slope] puts the anchor on the segment
    between its two G1 points: with [r] the length ratio and [L] the length
    of the anchor, [anchor = (1 - r) * g1_minus + r * g1_plus], and the two
    G1 points are [L] apart. *)
Theorem set_slope_puts_anchor_between_g1_points (s s' : Airfoil R)
  (ap : AnchorPoint R) :
  set_slope s ap = inr s' ->
  exists a gm gp,
    anchor_points s !! ap_name ap = Some a
    /\ g1_minus_points s' !! ap_name ap = Some gm
    /\ g1_plus_points s' !! ap_name ap = Some gp
    /\ a = padd (pscale (1 - value (ap_r ap)) gm) (pscale (value (ap_r ap)) gp)
    /\ sq (fst gp - fst gm) + sq (snd gp - snd gm) = sq (value (ap_L ap)).
Proof.
  intros E. destruct (set_slope_line _ _ _ E)
    as (a & gm & gp & H1 & H2 & H3 & H4 & _ & _ & H5).
  exists a, gm, gp. repeat split; assumption.
Qed.

(** X10: tangent continuity at an anchor.  In exact arithmetic, when a
    curve ends with the G1 point before the anchor and the anchor, and the
    next starts with the anchor and the G1 point after it, both as
    [set_slope] left them, the last sampled derivative of the first and the
    first sampled derivative of the second are the same vector
    [g1_plus - g1_minus] scaled by [(n1 - 1) * r] and by
    [(n2 - 1) * (1 - r)]: the two curves share their tangent line. *)
Theorem tangent_is_continuous_at_an_anchor (s s' : Airfoil R)
  (ap : AnchorPoint R) (before after : list (R * R)) (n : nat)
  (a gm gp : R * R) :
  set_slope s ap = inr s' ->
  anchor_points s !! ap_name ap = Some a ->
  g1_minus_points s' !! ap_name ap = Some gm ->
  g1_plus_points s' !! ap_name ap = Some gp ->
  (2 <= n)%nat ->
  last (zip (C_px (bezier (before ++ [gm; a]) n))
            (C_py (bezier (before ++ [gm; a]) n)))
  = Some (pscale ((IZR (Z.of_nat (length before + 2)) - 1) * value (ap_r ap))
            (psub gp gm))
  /\ head (zip (C_px (bezier (a :: gp :: after) n))
               (C_py (bezier (a :: gp :: after) n)))
     = Some (pscale ((IZR (Z.of_nat (length after + 2)) - 1)
                     * (1 - value (ap_r ap)))
               (psub gp gm)).
Proof.
  intros E Ha Hgm Hgp Hn.
  destruct (set_slope_line _ _ _ E)
    as (a' & gm' & gp' & H1 & H2 & H3 & _ & Hm & Hp & _).
  assert (a' = a) by congruence. assert (gm' = gm) by congruence.
  assert (gp' = gp) by congruence. subst a' gm' gp'.
  split.
  - destruct before as [| b0 before].
    + destruct (bezier_ends_tangent [gm; a] n gm a gm a Hn)
        as [_ Hl]; try reflexivity.
      cbn [app length Nat.add]. cbn [length] in Hl. rewrite Hl, Hm.
      unfold pscale. cbn. f_equal. f_equal; ring.
    + assert (Eb : exists b1, ((b0 :: before) ++ [gm; a]) !! 1%nat = Some b1).
      { destruct before; cbn; eauto. }
      destruct Eb as [b1 Eb].
      destruct (bezier_ends_tangent ((b0 :: before) ++ [gm; a]) n b0 b1 gm a Hn)
        as [_ Hl]; try reflexivity; try exact Eb.
      * rewrite length_app. cbn [length].
        replace (S (length before) + 2 - 2)%nat with (length (b0 :: before))
          by (cbn; lia).
        rewrite lookup_app_r by lia. rewrite Nat.sub_diag. reflexivity.
      * rewrite length_app. cbn [length].
        replace (S (length before) + 2 - 1)%nat
          with (length (b0 :: before) + 1)%nat by (cbn; lia).
        rewrite lookup_app_r by lia.
        replace (length (b0 :: before) + 1 - length (b0 :: before))%nat
          with 1%nat by lia.
        reflexivity.
      * rewrite Hl, length_app, Hm. unfold pscale. cbn [fst snd]. cbn.
        f_equal. f_equal; ring.
  - assert (El : exists q1 q2,
               (a :: gp :: after) !! (length (a :: gp :: after) - 2)%nat = Some q1
               /\ (a :: gp :: after) !! (length (a :: gp :: after) - 1)%nat
                  = Some q2).
    { destruct (lookup_lt_is_Some_2 (a :: gp :: after)
                  (length (a :: gp :: after) - 2)) as [q1 Hq1]; [cbn; lia |].
      destruct (lookup_lt_is_Some_2 (a :: gp :: after)
                  (length (a :: gp :: after) - 1)) as [q2 Hq2]; [cbn; lia |].
      eauto. }
    destruct El as (q1 & q2 & Hq1 & Hq2).
    destruct (bezier_ends_tangent (a :: gp :: after) n a gp q1 q2 Hn)
      as [Hh _]; try reflexivity; try assumption.
    rewrite Hh, Hp. cbn [length].
    replace (S (S (length after))) with (length after + 2)%nat by lia.
    unfold pscale. cbn. f_equal. f_equal; ring.
Qed.

End Tangents.

Lemma bezier_end_tangents_witness :
  head (zip (C_px (bezier [(0, 0); (1, 2); (3, 1)]%R 3))
            (C_py (bezier [(0, 0); (1, 2); (3, 1)]%R 3)))
  = Some (pscale (3 - 1)%R (psub (1, 2)%R (0, 0)%R))
  /\ last (zip (C_px (bezier [(0, 0); (1, 2); (3, 1)]%R 3))
               (C_py (bezier [(0, 0); (1, 2); (3, 1)]%R 3)))
     = Some (pscale (3 - 1)%R (psub (3, 1)%R (1, 2)%R)).
Proof.
  apply (bezier_end_tangents [(0, 0); (1, 2); (3, 1)]%R 3
           (0, 0)%R (1, 2)%R (1, 2)%R (3, 1)%R);
    [lia | reflexivity | reflexivity | reflexivity | reflexivity].
Defined.

Lemma tangent_is_continuous_at_an_anchor_witness :
  exists gm gp,
    last (zip (C_px (bezier ([(1, 0)%R] ++ [gm; ((1 / 2)%R, 1%R)]) 3))
              (C_py (bezier ([(1, 0)%R] ++ [gm; ((1 / 2)%R, 1%R)]) 3)))
    = Some (pscale ((IZR (Z.of_nat (1 + 2)) - 1) * (1 / 2))%R (psub gp gm))
    /\ head (zip (C_px (bezier (((1 / 2)%R, 1%R) :: gp :: [(0, 0)%R]) 3))
                 (C_py (bezier (((1 / 2)%R, 1%R) :: gp :: [(0, 0)%R]) 3)))
       = Some (pscale ((IZR (Z.of_nat (1 + 2)) - 1) * (1 - 1 / 2))%R
                 (psub gp gm)).
Proof.
  assert (E : exists s', set_slope crest_state crest = inr s')
    by (eexists; reflexivity).
  destruct E as [s' E].
  destruct (set_slope_line _ _ _ E) as (a & gm & gp & H1 & H2 & H3 & _).
  assert (Ha : a = ((1 / 2)%R, 1%R)).
  { assert (H0 : anchor_points crest_state !! "crest" = Some ((1 / 2)%R, 1%R))
      by reflexivity.
    cbn [ap_name crest] in H1. congruence. }
  subst a. exists gm, gp.
  apply (tangent_is_continuous_at_an_anchor crest_state s' crest
           [(1, 0)%R] [(0, 0)%R] 3 _ gm gp E H1 H2 H3).
  lia.
Defined.

Lemma set_slope_puts_anchor_between_g1_points_witness :
  exists a gm gp,
    anchor_points crest_state !! "crest" = Some a
    /\ a = padd (pscale (1 - 1 / 2)%R gm) (pscale (1 / 2)%R gp)
    /\ (sq (fst gp - fst gm) + sq (snd gp - snd gm) = sq 2)%R.
Proof.
  assert (E : exists s', set_slope crest_state crest = inr s')
    by (eexists; reflexivity).
  destruct E as [s' E].
  destruct (set_slope_puts_anchor_between_g1_points _ _ _ E)
    as (a & gm & gp & H1 & _ & _ & H4 & H5).
  exists a, gm, gp. repeat split; assumption.
Defined.

(** * Overriding and scaling the descriptor *)

Section DescriptorOverride.
Context {F : Type} `{PyFloat F}.

Lemma flatten_assign_values (ps : list (Param F)) (vs : list F) :
  length vs = length (flatten ps) -> flatten (assign_values ps vs) = vs.
Proof.
  unfold flatten. rewrite length_map.
  revert vs. induction ps as [| p ps IH]; intros vs Hlen.
  - destruct vs; [reflexivity | discriminate].
  - cbn [assign_values]. destruct (overrideable p) eqn:Hp.
    + rewrite filter_cons_True in Hlen by exact Hp.
      destruct vs as [| v vs]; [discriminate |].
      rewrite filter_cons_True by (rewrite overrideable_set_value; exact Hp).
      cbn [map value set_value]. f_equal. apply IH.
      simpl in Hlen. lia.
    + rewrite filter_cons_False in Hlen by (rewrite Hp; discriminate).
      rewrite filter_cons_False by (rewrite Hp; discriminate).
      apply IH, Hlen.
Qed.

Lemma flatten_bounds_assign_values (ps : list (Param F)) (vs : list F) :
  flatten_bounds (assign_values ps vs) = flatten_bounds ps.
Proof.
  unfold flatten_bounds.
  revert vs. induction ps as [| p ps IH]; intros vs; [reflexivity |].
  cbn [assign_values]. destruct (overrideable p) eqn:Hp.
  - destruct vs as [| v vs].
    + rewrite !filter_cons_True by exact Hp. cbn [map]. rewrite IH. reflexivity.
    + rewrite (filter_cons_True _ p) by exact Hp.
      rewrite filter_cons_True by (rewrite overrideable_set_value; exact Hp).
      cbn [map bounds set_value]. rewrite IH. reflexivity.
  - rewrite !filter_cons_False by (rewrite Hp; discriminate). apply IH.
Qed.

Lemma bounds_scale_param (k : F) (p : Param F) :
  bounds (scale_param k p) = bounds p.
Proof.
  unfold scale_param.
  destruct (is_length (units p)); [destruct (scale_value p) |]; reflexivity.
Qed.

Lemma flatten_bounds_map (f : Param F -> Param F) (ps : list (Param F)) :
  (forall p, overrideable (f p) = overrideable p) ->
  (forall p, bounds (f p) = bounds p) ->
  flatten_bounds (map f ps) = flatten_bounds ps.
Proof.
  intros Hf Hb. unfold flatten_bounds.
  induction ps as [| p ps IH]; [reflexivity |].
  cbn [map]. destruct (overrideable p) eqn:Hp.
  - rewrite (filter_cons_True _ p) by exact Hp.
    rewrite filter_cons_True by (rewrite Hf; exact Hp).
    cbn [map]. rewrite Hb. f_equal. exact IH.
  - rewrite (filter_cons_False _ p) by (rewrite Hp; discriminate).
    rewrite filter_cons_False by (rewrite Hf, Hp; discriminate).
    exact IH.
Qed.

Lemma flatten_bounds_scale_vars (b : BaseAirfoilParams F) :
  flatten_bounds (base_params (scale_vars b)) = flatten_bounds (base_params b).
Proof.
  rewrite base_params_scale_vars. unfold scaled_params.
  destruct (non_dim_by_chord b); [| reflexivity].
  change (scale_param (value (c b)) (c b)
          :: map (scale_param (value (scale_param (value (c b)) (c b))))
               (tail (base_params b)))
    with (map (fun p => p) [scale_param (value (c b)) (c b)]
          ++ map (scale_param (value (scale_param (value (c b)) (c b))))
               (tail (base_params b))).
  replace (base_params b) with ([c b] ++ tail (base_params b)) at 2
    by reflexivity.
  unfold flatten_bounds. rewrite !filter_app, !map_app. f_equal.
  - cbn [map]. destruct (overrideable (c b)) eqn:Hc.
    + rewrite (filter_cons_True _ (c b)) by exact Hc.
      rewrite filter_cons_True by (rewrite overrideable_scale_param; exact Hc).
      cbn. rewrite bounds_scale_param. reflexivity.
    + rewrite (filter_cons_False _ (c b)) by (rewrite Hc; discriminate).
      rewrite filter_cons_False
        by (rewrite overrideable_scale_param, Hc; discriminate).
      reflexivity.
  - apply (flatten_bounds_map (scale_param _));
      [apply overrideable_scale_param | apply bounds_scale_param].
Qed.

(** X11: [BaseAirfoilParams.override] accepts exactly the vectors with one
    entry per overrideable parameter and raises its fixed message on any
    other length; it applies no range check to the values.  It keeps the
    set of overrideable parameters, their count and their bounds, and when
    chord scaling is off the values read back are the vector written. *)
Theorem base_override_writes_the_vector (b : BaseAirfoilParams F)
  (vs : list F) :
  (length vs <> count_overrideable_variables b ->
   base_override b vs = inl (Exception base_mismatch))
  /\ (length vs = count_overrideable_variables b ->
      exists b',
        base_override b vs = inr b'
        /\ count_overrideable_variables b' = count_overrideable_variables b
        /\ n_overrideable_parameters b' = n_overrideable_parameters b
        /\ non_dim_by_chord b' = non_dim_by_chord b
        /\ flatten_bounds (base_params b') = flatten_bounds (base_params b)
        /\ (non_dim_by_chord b = false -> flatten (base_params b') = vs)).
Proof.
  split; [apply base_override_mismatch |].
  intros Hlen. rewrite (base_override_ok b vs Hlen).
  eexists. split; [reflexivity |].
  set (b1 := with_base_params b (assign_values (base_params b) vs)).
  assert (Hps : base_params b1 = assign_values (base_params b) vs).
  { apply base_params_with. rewrite assign_values_length. reflexivity. }
  destruct (with_base_params_flags b (assign_values (base_params b) vs))
    as [Hnd Hn].
  destruct (scale_vars_flags b1) as [Hnd' Hn'].
  repeat split.
  - rewrite count_scale_vars. unfold count_overrideable_variables.
    rewrite Hps.
    pose proof (flatten_length_assign (base_params b) vs) as E.
    unfold flatten in E. rewrite !length_map in E. exact E.
  - rewrite Hn'. exact Hn.
  - rewrite Hnd'. exact Hnd.
  - rewrite flatten_bounds_scale_vars, Hps. apply flatten_bounds_assign_values.
  - intros Hoff. rewrite scale_vars_off by (unfold b1; rewrite Hnd; exact Hoff).
    rewrite Hps. apply flatten_assign_values.
    rewrite Hlen. apply count_is_flatten_length.
Qed.

End DescriptorOverride.

Section UnitChord.

Local Open Scope R_scope.

Lemma scale_param_unit (p : Param R) : scale_param (F := R) 1 p = p.
Proof.
  unfold scale_param. destruct (is_length (units p)); [| reflexivity].
  destruct (scale_value p); [reflexivity |].
  destruct p as [v bd a l u sv]. unfold set_value. cbn.
  f_equal. ring.
Qed.

Lemma scale_vars_unit (b : BaseAirfoilParams R) :
  value (c b) = 1 -> scale_vars b = b.
Proof.
  intros Hc. unfold scale_vars. destruct (non_dim_by_chord b); [| reflexivity].
  rewrite Hc, scale_param_unit, Hc.
  rewrite (map_ext _ (fun p => p)) by apply scale_param_unit.
  rewrite map_id. apply with_base_params_id.
Qed.

(** X12: in exact arithmetic a descriptor whose chord is 1 is left as it is
    by [scale_vars], however often it runs, and overriding it with its own
    overrideable values returns it unchanged, chord scaling on or off. *)
Theorem unit_chord_round_trip (b : BaseAirfoilParams R) :
  value (c b) = 1 ->
  scale_vars b = b
  /\ scale_vars (scale_vars b) = b
  /\ base_override b (flatten (base_params b)) = inr b.
Proof.
  intros Hc. pose proof (scale_vars_unit b Hc) as E.
  split; [exact E |]. split; [rewrite E; exact E |].
  rewrite base_override_ok by (symmetry; apply count_is_flatten_length).
  rewrite <- (app_nil_r (flatten (base_params b))).
  rewrite assign_own_values, with_base_params_id. rewrite E. reflexivity.
Qed.

End UnitChord.

Lemma base_override_writes_the_vector_witness :
  exists b',
    base_override unscaled_descriptor (flatten (base_params unscaled_descriptor))
    = inr b'
    /\ flatten (base_params b') = flatten (base_params unscaled_descriptor).
Proof.
  destruct (base_override_writes_the_vector unscaled_descriptor
              (flatten (base_params unscaled_descriptor)))
    as [_ Hok].
  destruct Hok as (b' & E & _ & _ & _ & _ & Hread);
    [vm_compute; reflexivity |].
  exists b'. split; [exact E |]. apply Hread. vm_compute. reflexivity.
Defined.

Lemma unit_chord_round_trip_witness :
  scale_vars
    (mkBase (Rplain 1) (Rplain 0) (mkParam 2%R (0%R, 0%R) true false Length None)
       (Rplain 1) (Rplain (1 / 2)) (Rplain 0) (Rplain 0) (Rplain 0) (Rplain 1)
       (Rplain 1) (Rplain 0) (Rplain 0) (Rplain 0) (Rplain (1 / 2)) (Rplain 0)
       (Rplain 0) (Rplain 0) true 17)
  = mkBase (Rplain 1) (Rplain 0) (mkParam 2%R (0%R, 0%R) true false Length None)
      (Rplain 1) (Rplain (1 / 2)) (Rplain 0) (Rplain 0) (Rplain 0) (Rplain 1)
      (Rplain 1) (Rplain 0) (Rplain 0) (Rplain 0) (Rplain (1 / 2)) (Rplain 0)
      (Rplain 0) (Rplain 0) true 17.
Proof.
  refine (proj1 (unit_chord_round_trip _ _)). reflexivity.
Defined.

(** * Construction: the initial chain and what the passes make of it *)

Section InitialChain.
Context {F : Type} `{PyFloat F}.

(** The support points [__init__] computes for the three initial anchors
    never fail: the G1 points exist after [te_1], around [le] and before
    [te_2], the G2 points around [le] only. *)
Lemma initial_support_points (n : nat) (b : BaseAirfoilParams F)
  (apt : list (AnchorPoint F)) (fpt : list (FreePoint F)) (o : option (list F)) :
  exists gm_te2 gp_te1 g2m g2p,
    init_g1_points b (initial_anchor_points b)
    = inr (<["le" := le_g1_minus b]> (<["te_2" := gm_te2]> ∅),
           <["le" := le_g1_plus b]> (<["te_1" := gp_te1]> ∅))
    /\ init_g2_points
         (set_g1_points (initial_attributes n b apt fpt o)
            (<["le" := le_g1_minus b]> (<["te_2" := gm_te2]> ∅))
            (<["le" := le_g1_plus b]> (<["te_1" := gp_te1]> ∅)))
       = inr (<["le" := g2m]> ∅, <["le" := g2p]> ∅)
    /\ (is_inf (value (R_le b)) = true ->
        g2m = le_g1_minus b /\ g2p = le_g1_plus b).
Proof.
  do 2 eexists.
  destruct (is_inf (value (R_le b))) eqn:Hinf.
  - exists (le_g1_minus b), (le_g1_plus b).
    split; [reflexivity |]. split; [| auto].
    unfold init_g2_points, set_curvature_le.
    cbn [base_airfoil_params set_g1_points initial_attributes].
    rewrite Hinf. reflexivity.
  - do 2 eexists.
    split; [reflexivity |]. split; [| discriminate].
    unfold init_g2_points, set_curvature_le.
    cbn [base_airfoil_params set_g1_points initial_attributes].
    rewrite Hinf. reflexivity.
Qed.

End InitialChain.

Section ConstructionErrors.
Context {F : Type} `{PyFloat F}.

Lemma index_inl (l : list string) (x : string) :
  x ∉ l -> index (F := F) l x = inl (ValueErrorNotInList x).
Proof.
  intros Hx. apply index_of_None in Hx. unfold index. rewrite Hx. reflexivity.
Qed.

(** An anchor that is not in the chain and whose predecessor is not in the
    chain stops the anchor pass. *)
Lemma add_anchor_points_loop_orphan (s : Airfoil F) (a : AnchorPoint F)
  (rest : list (AnchorPoint F)) :
  ap_name a ∉ anchor_point_order s ->
  ap_previous_anchor_point a ∉ anchor_point_order s ->
  add_anchor_points_loop s (a :: rest)
  = inl (ValueErrorNotInList (ap_previous_anchor_point a)).
Proof.
  intros Hname Hprev. cbn [add_anchor_points_loop].
  apply index_of_None in Hname. rewrite Hname.
  unfold add_anchor_point. rewrite (index_inl _ _ Hprev). reflexivity.
Qed.

(** A free point whose segment has no entry in the order table stops the
    free-point pass, after the free points before it, which all had one. *)
Lemma add_free_points_loop_no_entry (good : list (FreePoint F)) (p : FreePoint F)
  (rest : list (FreePoint F)) (s : Airfoil F) :
  Forall (fun q => is_Some (af_N s !! fp_previous_anchor_point q)) good ->
  af_N s !! fp_previous_anchor_point p = None ->
  add_free_points_loop s (good ++ p :: rest)
  = inl (KeyError (fp_previous_anchor_point p)).
Proof.
  revert s. induction good as [| q good IH]; intros s Hgood Hp.
  - cbn [app add_free_points_loop]. unfold add_free_point.
    cbn [af_N set_free_points]. unfold getitem. rewrite Hp. reflexivity.
  - inversion Hgood as [| ? ? [n Hq] Hgood']; subst.
    cbn [app add_free_points_loop].
    assert (E : add_free_point s q
                = inr (set_needs_update
                         (set_N
                            (set_free_points s
                               (<[fp_previous_anchor_point q :=
                                    if (length (default [] (free_points s
                                           !! fp_previous_anchor_point q)) =? 0)%nat
                                    then [fp_xy q]
                                    else default [] (free_points s
                                           !! fp_previous_anchor_point q)
                                         ++ [fp_xy q]]> (free_points s)))
                            (<[fp_previous_anchor_point q := (n + 1)%nat]> (af_N s)))
                         true)).
    { unfold add_free_point. cbn [af_N set_free_points]. unfold getitem.
      rewrite Hq. reflexivity. }
    rewrite E. cbn [bind]. apply IH.
    + cbn [af_N set_needs_update set_N].
      eapply Forall_impl; [exact Hgood' |].
      intros r [m Hr]. cbn beta.
      destruct (decide (fp_previous_anchor_point q = fp_previous_anchor_point r))
        as [Heq | Hne].
      * rewrite Heq, lookup_insert_eq. eauto.
      * rewrite lookup_insert_ne by exact Hne. eauto.
    + cbn [af_N set_needs_update set_N].
      rewrite lookup_insert_ne; [exact Hp |].
      intros Heq. rewrite Heq in Hq. congruence.
Qed.

(** X13: an anchor point tuple must list a predecessor before the anchors
    that follow it.  When the first anchor point of the tuple is new and
    names a predecessor other than [te_1], [le] and [te_2], construction
    without an override vector raises the [ValueError] of [list.index] for
    that predecessor, whatever the other anchor points and the free points
    are; the leading-edge radius is taken not to be zero, so that the
    leading-edge curvature, computed first, divides by it without raising. *)
Theorem first_anchor_needs_a_predecessor_in_the_chain (n : nat)
  (b : BaseAirfoilParams F) (a : AnchorPoint F) (rest : list (AnchorPoint F))
  (fpt : list (FreePoint F)) :
  is_zero (value (R_le b)) = false ->
  ap_name a ∉ ["te_1"; "le"; "te_2"] ->
  ap_previous_anchor_point a ∉ ["te_1"; "le"; "te_2"] ->
  Airfoil_init n b (a :: rest) fpt None
  = inl (ValueErrorNotInList (ap_previous_anchor_point a)).
Proof.
  intros _ Hname Hprev.
  unfold Airfoil_init, apply_overrides. cbn [bind ret]. unfold assemble.
  destruct (initial_support_points n b (a :: rest) fpt None)
    as (gm_te2 & gp_te1 & g2m & g2p & E1 & E2 & _).
  cbn [anchor_points initial_attributes]. rewrite E1. cbn [bind fst snd].
  rewrite E2. cbn [bind fst snd].
  unfold update, add_anchor_points.
  cbn [anchor_point_tuple set_g2_points set_g1_points initial_attributes].
  rewrite add_anchor_points_loop_orphan; [reflexivity | exact Hname | exact Hprev].
Qed.

(** X14: without anchor points only the segments after [te_1] and after
    [le] take free points.  The first free point of the tuple that names
    another segment makes construction without an override vector raise the
    [KeyError] of that name (for a leading-edge radius other than zero, as
    before). *)
Theorem free_point_needs_an_order_entry (n : nat) (b : BaseAirfoilParams F)
  (good : list (FreePoint F)) (p : FreePoint F) (rest : list (FreePoint F)) :
  is_zero (value (R_le b)) = false ->
  Forall (fun q => fp_previous_anchor_point q ∈ ["te_1"; "le"]) good ->
  fp_previous_anchor_point p ∉ ["te_1"; "le"] ->
  Airfoil_init n b [] (good ++ p :: rest) None
  = inl (KeyError (fp_previous_anchor_point p)).
Proof.
  intros _ Hgood Hp.
  unfold Airfoil_init, apply_overrides. cbn [bind ret]. unfold assemble.
  destruct (initial_support_points n b [] (good ++ p :: rest) None)
    as (gm_te2 & gp_te1 & g2m & g2p & E1 & E2 & _).
  cbn [anchor_points initial_attributes]. rewrite E1. cbn [bind fst snd].
  rewrite E2. cbn [bind fst snd].
  unfold update, add_anchor_points.
  cbn [anchor_point_tuple set_g2_points set_g1_points initial_attributes
         add_anchor_points_loop bind ret].
  unfold add_free_points.
  cbn [free_point_tuple set_needs_update set_g2_points set_g1_points
         initial_attributes].
  rewrite add_free_points_loop_no_entry; [reflexivity | |].
  - cbn [af_N set_needs_update set_g2_points set_g1_points initial_attributes].
    eapply Forall_impl; [exact Hgood |]. intros q Hq. cbn beta.
    apply elem_of_cons in Hq as [-> | Hq]; [rewrite lookup_insert_ne by discriminate;
      rewrite lookup_insert_eq; eauto |].
    apply elem_of_cons in Hq as [-> | Hq]; [rewrite lookup_insert_eq; eauto |].
    apply elem_of_nil in Hq. contradiction.
  - cbn [af_N set_needs_update set_g2_points set_g1_points initial_attributes].
    rewrite !lookup_insert_ne; [apply lookup_empty | |];
      intros Heq; apply Hp; rewrite <- Heq; apply list_elem_of_In; simpl; tauto.
Qed.

End ConstructionErrors.

Lemma first_anchor_needs_a_predecessor_in_the_chain_witness :
  Airfoil_init 3 unscaled_descriptor [lower_aft; lower] [] None
  = inl (ValueErrorNotInList "lower").
Proof.
  apply (first_anchor_needs_a_predecessor_in_the_chain 3 unscaled_descriptor
           lower_aft [lower] []).
  - vm_compute. reflexivity.
  - apply not_elem_of_cons. split; [discriminate |].
    apply not_elem_of_cons. split; [discriminate |].
    apply not_elem_of_cons. split; [discriminate | apply not_elem_of_nil].
  - apply not_elem_of_cons. split; [discriminate |].
    apply not_elem_of_cons. split; [discriminate |].
    apply not_elem_of_cons. split; [discriminate | apply not_elem_of_nil].
Defined.

Lemma free_point_needs_an_order_entry_witness :
  Airfoil_init 3 unscaled_descriptor []
    ([bump] ++ mkFree "te_2" (plain 0.5) (plain (-0.5)) None 2 :: []) None
  = inl (KeyError "te_2").
Proof.
  apply (free_point_needs_an_order_entry 3 unscaled_descriptor [bump]
           (mkFree "te_2" (plain 0.5) (plain (-0.5)) None 2) []).
  - vm_compute. reflexivity.
  - repeat constructor.
  - apply not_elem_of_cons. split; [discriminate |].
    apply not_elem_of_cons. split; [discriminate | apply not_elem_of_nil].
Defined.

Section Frame.
Context {F : Type} `{PyFloat F}.

Lemma add_anchor_points_loop_frame (aps : list (AnchorPoint F)) (s s' : Airfoil F)
  (k : string) :
  add_anchor_points_loop s aps = inr s' ->
  k ∈ anchor_point_order s ->
  k ∈ anchor_point_order s' /\ anchor_at s' k = anchor_at s k.
Proof.
  revert s. induction aps as [| a aps IH]; intros s E Hk.
  - injection E as <-. auto.
  - cbn [add_anchor_points_loop] in E.
    apply bind_inr in E as (s1 & Hs1 & E).
    destruct (index_of (anchor_point_order s) (ap_name a)) as [j |] eqn:Hj.
    + injection Hs1 as <-. apply IH; assumption.
    + apply index_of_None in Hj.
      assert (Hne : k <> ap_name a) by (intros ->; contradiction).
      apply add_anchor_point_chain in Hs1 as (i & _ & Ho & Ha & _ & Hg).
      destruct (Hg k Hne) as (G1 & G2 & G3 & G4).
      assert (Hk1 : k ∈ anchor_point_order s1).
      { rewrite Ho. apply elem_of_list_insert_at. auto. }
      destruct (IH _ E Hk1) as [I1 I2]. split; [exact I1 |].
      rewrite I2. unfold anchor_at.
      rewrite G1, G2, G3, G4, Ha, lookup_insert_ne by congruence.
      reflexivity.
Qed.

(** What [update] leaves of the anchors in the chain it starts from. *)
Lemma update_frame (s s' : Airfoil F) (k : string) :
  update s = inr s' ->
  k ∈ anchor_point_order s ->
  k ∈ anchor_point_order s' /\ anchor_at s' k = anchor_at s k.
Proof.
  intros E Hk.
  apply update_chain in E as (s1 & s2 & Hs1 & Hs2 & Hc).
  apply chain_state_components in Hc as (C1 & C2 & C3 & _).
  apply add_free_points_loop_effect in Hs2 as (_ & _ & R3 & R4 & R5).
  cbn [anchor_point_order anchor_points g1_minus_points g1_plus_points
         g2_minus_points g2_plus_points set_needs_update] in R3, R4, R5.
  destruct (add_anchor_points_loop_frame _ _ _ k Hs1 Hk) as [I1 I2].
  rewrite C1, R3. split; [exact I1 |].
  rewrite <- I2. unfold anchor_at. rewrite C2, R4.
  injection C3 as -> -> -> ->. injection R5 as -> -> -> ->. reflexivity.
Qed.

(** X15: [update] moves no anchor of the chain it starts from: every name
    in the chain stays in it, with its position and its G1 and G2 points as
    they were, whatever anchor points and free points are inserted. *)
Theorem update_keeps_the_anchors_in_place (s s' : Airfoil F) (k : string) :
  update s = inr s' ->
  k ∈ anchor_point_order s ->
  k ∈ anchor_point_order s'
  /\ anchor_points s' !! k = anchor_points s !! k
  /\ g1_minus_points s' !! k = g1_minus_points s !! k
  /\ g1_plus_points s' !! k = g1_plus_points s !! k
  /\ g2_minus_points s' !! k = g2_minus_points s !! k
  /\ g2_plus_points s' !! k = g2_plus_points s !! k.
Proof.
  intros E Hk. destruct (update_frame _ _ _ E Hk) as [H1 H2].
  unfold anchor_at in H2. injection H2 as -> -> -> -> ->. auto 10.
Qed.

(** X16: in every constructed airfoil the leading edge is at the origin of
    the unrotated frame, with the G1 points [init_g1_points] computes from
    the descriptor the airfoil holds, whatever anchor points and free points
    were inserted; when the leading-edge radius is [+inf], the value the
    source tests with [R_le.value == np.inf] and [is_inf] stands for, its G2
    points are these G1 points. *)
Theorem constructed_leading_edge (n : nat) (b : BaseAirfoilParams F)
  (apt : list (AnchorPoint F)) (fpt : list (FreePoint F)) (o : option (list F))
  (af : Airfoil F) :
  Airfoil_init n b apt fpt o = inr af ->
  anchor_points af !! "le" = Some (f0, f0)
  /\ g1_minus_points af !! "le" = Some (le_g1_minus (base_airfoil_params af))
  /\ g1_plus_points af !! "le" = Some (le_g1_plus (base_airfoil_params af))
  /\ is_Some (g2_minus_points af !! "le")
  /\ is_Some (g2_plus_points af !! "le")
  /\ (is_inf (value (R_le (base_airfoil_params af))) = true ->
      g2_minus_points af !! "le" = g1_minus_points af !! "le"
      /\ g2_plus_points af !! "le" = g1_plus_points af !! "le").
Proof.
  intros E. unfold Airfoil_init in E.
  apply bind_inr in E as ([[b' apt'] fpt'] & _ & E).
  destruct (assemble_result _ _ _ _ _ _ E) as (_ & Hb & _).
  rewrite Hb. clear Hb. unfold assemble in E.
  destruct (initial_support_points n b' apt' fpt' o)
    as (gm_te2 & gp_te1 & g2m & g2p & E1 & E2 & Hinf).
  cbn [anchor_points initial_attributes] in E. rewrite E1 in E.
  cbn [bind fst snd] in E. rewrite E2 in E. cbn [bind fst snd] in E.
  apply (update_frame _ _ "le") in E as [_ Hat].
  - unfold anchor_at in Hat.
    cbn [anchor_points g1_minus_points g1_plus_points g2_minus_points
           g2_plus_points set_g2_points set_g1_points initial_attributes] in Hat.
    injection Hat as -> -> -> -> ->.
    unfold initial_anchor_points.
    rewrite !lookup_insert_eq.
    rewrite lookup_insert_ne by discriminate. rewrite lookup_insert_eq.
    split; [reflexivity |]. split; [reflexivity |]. split; [reflexivity |].
    split; [eauto |]. split; [eauto |].
    intros Hi. destruct (Hinf Hi) as [-> ->]. split; reflexivity.
  - cbn [anchor_point_order set_g2_points set_g1_points initial_attributes].
    apply list_elem_of_In. simpl. tauto.
Qed.

End Frame.

Section AnchorFree.
Context {F : Type} `{PyFloat F}.

Lemma order_loop_ext (s t : Airfoil F) (order : list string) (idx : nat)
  (cps : list (F * F)) :
  chain_state s = chain_state t ->
  order_loop s idx order cps = order_loop t idx order cps.
Proof.
  intros E. apply chain_state_components in E as (_ & E1 & E2 & _ & E3).
  injection E2 as G1 G2 G3 G4.
  assert (Hone : forall i k l, order_one s i k l = order_one t i k l).
  { intros i k l. unfold order_one. rewrite E1, G1, G2, G3, G4, E3. reflexivity. }
  revert idx cps. induction order as [| k order IH]; intros idx cps;
    [reflexivity |].
  cbn [order_loop]. rewrite Hone.
  destruct (order_one t idx k cps) as [e | cps']; [reflexivity |].
  cbn [bind]. apply IH.
Qed.

Lemma order_control_points_polygon (s s' : Airfoil F) :
  order_control_points s = inr s' ->
  order_loop s 0 (anchor_point_order s) [] = inr (control_points s')
  /\ n_control_points s' = length (control_points s').
Proof.
  unfold order_control_points. intros E.
  apply bind_inr in E as (cps & Hcps & E). injection E as <-.
  split; [exact Hcps | reflexivity].
Qed.

Lemma update_anchor_point_array_polygon (s s' : Airfoil F) :
  update_anchor_point_array s = inr s' ->
  control_points s' = control_points s
  /\ n_control_points s' = n_control_points s.
Proof.
  unfold update_anchor_point_array. intros E.
  apply bind_inr in E as (arr & _ & E). injection E as <-.
  split; reflexivity.
Qed.

Lemma generate_airfoil_coordinates_polygon (s s' : Airfoil F) :
  generate_airfoil_coordinates s = inr s' ->
  control_points s' = control_points s
  /\ n_control_points s' = n_control_points s.
Proof.
  unfold generate_airfoil_coordinates. intros E.
  apply bind_inr in E as (Cs & _ & E).
  apply bind_inr in E as (cc & _ & E). injection E as <-.
  split; reflexivity.
Qed.

(** [update], with the control points it leaves. *)
Lemma update_control_points (s s' : Airfoil F) :
  update s = inr s' ->
  exists s1 s2 cps,
    add_anchor_points_loop s (anchor_point_tuple s) = inr s1
    /\ add_free_points_loop (set_needs_update s1 true) (free_point_tuple s) = inr s2
    /\ chain_state s' = chain_state s2
    /\ order_loop s2 0 (anchor_point_order s2) [] = inr cps
    /\ control_points s'
       = map (rotate_point (- value (alf (base_airfoil_params s')))%fl) cps
    /\ n_control_points s' = length cps.
Proof.
  intros E.
  destruct (update_chain _ _ E) as (s1 & s2 & Hs1 & Hs2 & Hc).
  destruct (update_result _ _ E) as (_ & Hbase & _).
  exists s1, s2.
  unfold update in E.
  apply bind_inr in E as (a1 & Ha1 & E).
  apply bind_inr in E as (a2 & Ha2 & E).
  apply bind_inr in E as (a3 & Ha3 & E).
  apply bind_inr in E as (a4 & Ha4 & E).
  apply bind_inr in E as (a5 & Ha5 & E).
  injection E as <-.
  pose proof (add_anchor_points_kept _ _ Ha1) as K1.
  apply kept_components in K1 as (_ & K1 & _ & K1f & _).
  pose proof (add_free_points_kept _ _ Ha2) as K2.
  apply kept_components in K2 as (_ & K2 & _).
  pose proof (order_control_points_kept _ _ Ha3) as K3.
  apply kept_components in K3 as (_ & K3 & _).
  pose proof (update_anchor_point_array_kept _ _ Ha4) as K4.
  apply kept_components in K4 as (_ & K4 & _).
  change (base_airfoil_params (extract_parameters a2))
    with (base_airfoil_params a2) in K3.
  unfold add_anchor_points in Ha1.
  apply bind_inr in Ha1 as (a1' & Ha1 & E1).
  rewrite Hs1 in Ha1. injection Ha1 as <-.
  injection E1 as E1. subst a1.
  unfold add_free_points in Ha2.
  apply bind_inr in Ha2 as (a2' & Ha2 & E2).
  injection E2 as E2.
  change (free_point_tuple (set_needs_update s1 true))
    with (free_point_tuple s1) in Ha2.
  pose proof (add_anchor_points_loop_kept _ _ _ Hs1) as K.
  apply kept_components in K as (_ & _ & _ & K & _).
  rewrite K, Hs2 in Ha2. injection Ha2 as <-.
  apply order_control_points_polygon in Ha3 as [P1 P2].
  apply update_anchor_point_array_polygon in Ha4 as [Q1 Q2].
  apply generate_airfoil_coordinates_polygon in Ha5 as [R1 R2].
  exists (control_points a3).
  split; [exact Hs1 |]. split; [exact Hs2 |]. split; [exact Hc |].
  split; [| split].
  - rewrite <- P1.
    change (anchor_point_order (extract_parameters a2))
      with (anchor_point_order a2).
    rewrite <- E2. symmetry. apply order_loop_ext. reflexivity.
  - change (control_points (set_needs_update a5 false)) with (control_points a5).
    change (base_airfoil_params (set_needs_update a5 false))
      with (base_airfoil_params a5).
    rewrite R1.
    change (control_points (rotate a4 (- value (alf (base_airfoil_params a4)))%fl))
      with (map (rotate_point (- value (alf (base_airfoil_params a4)))%fl)
              (control_points a4)).
    rewrite Q1. f_equal. f_equal. f_equal. f_equal. f_equal.
    change (base_airfoil_params (set_needs_update a5 false))
      with (base_airfoil_params a5) in Hbase.
    rewrite Hbase, K4, K3, K2, K1. reflexivity.
  - change (n_control_points (set_needs_update a5 false))
      with (n_control_points a5).
    rewrite R2.
    change (n_control_points (rotate a4 (- value (alf (base_airfoil_params a4)))%fl))
      with (n_control_points a4).
    rewrite Q2. exact P2.
Qed.

(** The free-point pass succeeds only on segments with an order. *)
Lemma add_free_points_loop_keys (fps : list (FreePoint F)) (s s' : Airfoil F) :
  add_free_points_loop s fps = inr s' ->
  Forall (fun p => is_Some (af_N s !! fp_previous_anchor_point p)) fps.
Proof.
  revert s. induction fps as [| p fps IH]; intros s E; [constructor |].
  cbn [add_free_points_loop] in E.
  apply bind_inr in E as (s1 & Hp & E).
  apply add_free_point_inr in Hp as (n & Hn & ->).
  constructor; [eauto |].
  apply IH in E. cbn [af_N set_needs_update set_N] in E.
  eapply Forall_impl; [exact E |]. intros q [m Hq]. cbn beta in *.
  destruct (decide (fp_previous_anchor_point p = fp_previous_anchor_point q))
    as [Heq | Hne].
  - rewrite <- Heq. eauto.
  - rewrite lookup_insert_ne in Hq by exact Hne. eauto.
Qed.

Lemma free_points_for_none (k : string) (fps : list (FreePoint F)) :
  Forall (fun p => fp_previous_anchor_point p <> k) fps ->
  free_points_for k fps = [].
Proof.
  intros Hall. induction Hall as [| p fps Hp Hall IH]; [reflexivity |].
  rewrite free_points_for_cons, IH.
  destruct (decide (fp_previous_anchor_point p = k)); [contradiction | reflexivity].
Qed.

(** The control points [order_control_points] lays out for the initial
    three-anchor chain. *)
Lemma order_loop_initial_chain (s : Airfoil F) (b : BaseAirfoilParams F)
  (gm_le gm_te2 gp_le gp_te1 g2m g2p : F * F) (a1 a2 : F * F) :
  anchor_points s = initial_anchor_points b ->
  initial_anchor_points b !! "te_1" = Some a1 ->
  initial_anchor_points b !! "te_2" = Some a2 ->
  (g1_minus_points s, g1_plus_points s, g2_minus_points s, g2_plus_points s)
  = (<["le" := gm_le]> (<["te_2" := gm_te2]> ∅),
     <["le" := gp_le]> (<["te_1" := gp_te1]> ∅),
     <["le" := g2m]> ∅, <["le" := g2p]> ∅) ->
  order_loop s 0 ["te_1"; "le"; "te_2"] []
  = inr ((a1 :: gp_te1 :: default [] (free_points s !! "te_1") ++ [g2m; gm_le])
         ++ (f0, f0)
            :: ([gp_le; g2p] ++ default [] (free_points s !! "le") ++ [gm_te2])
         ++ a2 :: default [] (free_points s !! "te_2")).
Proof.
  intros Ha H1 H2 Hg. injection Hg as G1 G2 G3 G4.
  cbn [order_loop]. unfold order_one, stack_if_present.
  rewrite Ha, G1, G2, G3, G4.
  assert (Hle : initial_anchor_points b !! "le" = Some (f0, f0)) by reflexivity.
  unfold getitem. rewrite H1, H2, Hle.
  rewrite !lookup_insert_eq.
  rewrite !(lookup_insert_ne _ "le" "te_1") by discriminate.
  rewrite !(lookup_insert_ne _ "le" "te_2") by discriminate.
  rewrite !lookup_insert_eq.
  rewrite !lookup_insert_ne by discriminate.
  rewrite !lookup_empty.
  cbn [Nat.eqb bind ret app].
  rewrite <- !app_assoc. reflexivity.
Qed.

Lemma apply_overrides_no_anchors (b b' : BaseAirfoilParams F)
  (fpt fpt' : list (FreePoint F)) (apt' : list (AnchorPoint F))
  (o : option (list F)) :
  apply_overrides b [] fpt o = inr (b', apt', fpt') -> apt' = [].
Proof.
  unfold apply_overrides. destruct o as [v |].
  - intros E. apply bind_inr in E as (b1 & _ & E).
    cbn [override_anchor_points bind ret fst snd] in E.
    apply bind_inr in E as (rf & _ & E). injection E as _ <- _. reflexivity.
  - intros [= _ <- _]. reflexivity.
Qed.

(** X17: the segment count holds for every airfoil constructed without
    anchor points.  Its chain is the initial one; the orders of the two
    segments are 4 plus the number of free points of each; the control
    polygon has one point more than the two orders together; and its rows
    0, [N['te_1']] and [N['te_1'] + N['le']], where the slices taken by
    [generate_airfoil_coordinates] begin and end, are the rotated anchors
    [te_1], [le] and [te_2]. *)
Theorem anchor_free_airfoil_segments (n : nat) (b : BaseAirfoilParams F)
  (fpt : list (FreePoint F)) (o : option (list F)) (af : Airfoil F) :
  Airfoil_init n b [] fpt o = inr af ->
  exists a1 a2,
    anchor_point_order af = ["te_1"; "le"; "te_2"]
    /\ anchor_points af !! "te_1" = Some a1
    /\ anchor_points af !! "le" = Some (f0, f0)
    /\ anchor_points af !! "te_2" = Some a2
    /\ af_N af !! "te_1"
       = Some (4 + length (free_points_for "te_1" (free_point_tuple af)))%nat
    /\ af_N af !! "le"
       = Some (4 + length (free_points_for "le" (free_point_tuple af)))%nat
    /\ af_N af !! "te_2" = None
    /\ n_control_points af = length (control_points af)
    /\ length (control_points af)
       = ((4 + length (free_points_for "te_1" (free_point_tuple af)))
          + (4 + length (free_points_for "le" (free_point_tuple af))) + 1)%nat
    /\ control_points af !! 0%nat
       = Some (rotate_point (- value (alf (base_airfoil_params af)))%fl a1)
    /\ control_points af
         !! (4 + length (free_points_for "te_1" (free_point_tuple af)))%nat
       = Some (rotate_point (- value (alf (base_airfoil_params af)))%fl (f0, f0))
    /\ control_points af
         !! ((4 + length (free_points_for "te_1" (free_point_tuple af)))
             + (4 + length (free_points_for "le" (free_point_tuple af))))%nat
       = Some (rotate_point (- value (alf (base_airfoil_params af)))%fl a2).
Proof.
  intros E. unfold Airfoil_init in E.
  apply bind_inr in E as ([[b' apt'] fpt'] & Ho & E).
  apply apply_overrides_no_anchors in Ho. subst apt'.
  destruct (assemble_result _ _ _ _ _ _ E) as (_ & _ & _ & Hfpt & _).
  rewrite Hfpt. clear Hfpt. unfold assemble in E.
  destruct (initial_support_points n b' [] fpt' o)
    as (gm_te2 & gp_te1 & g2m & g2p & E1 & E2 & _).
  cbn [anchor_points initial_attributes] in E. rewrite E1 in E.
  cbn [bind fst snd] in E. rewrite E2 in E. cbn [bind fst snd] in E.
  apply update_control_points in E
    as (s1 & s2 & cps & Hs1 & Hs2 & Hc & Hcps & Hcp & Hn).
  cbn [anchor_point_tuple free_point_tuple set_g2_points set_g1_points
         initial_attributes add_anchor_points_loop] in Hs1, Hs2.
  injection Hs1 as <-.
  pose proof (add_free_points_loop_keys _ _ _ Hs2) as Hkeys.
  apply add_free_points_loop_effect in Hs2 as (R1 & R2 & R3 & R4 & R5).
  cbn [free_points af_N anchor_point_order anchor_points g1_minus_points
         g1_plus_points g2_minus_points g2_plus_points set_needs_update
         set_g2_points set_g1_points initial_attributes]
    in R1, R2, R3, R4, R5, Hkeys.
  apply chain_state_components in Hc as (C1 & C2 & _ & C4 & _).
  assert (Hte1 : exists a1, initial_anchor_points b' !! "te_1" = Some a1)
    by (eexists; reflexivity).
  assert (Hte2 : exists a2, initial_anchor_points b' !! "te_2" = Some a2)
    by (eexists; reflexivity).
  destruct Hte1 as [a1 Hte1]. destruct Hte2 as [a2 Hte2].
  rewrite R3 in Hcps.
  rewrite (order_loop_initial_chain s2 b' _ _ _ _ _ _ a1 a2 R4 Hte1 Hte2 R5)
    in Hcps.
  injection Hcps as <-.
  assert (Hnone : free_points_for "te_2" fpt' = []).
  { apply free_points_for_none.
    eapply Forall_impl; [exact Hkeys |]. intros p [m Hp] Heq. cbn beta in *.
    rewrite Heq in Hp.
    rewrite !lookup_insert_ne in Hp by discriminate.
    rewrite lookup_empty in Hp. discriminate. }
  rewrite !R1, Hnone in Hcp, Hn. rewrite !lookup_empty in Hcp, Hn.
  cbn [default] in Hcp, Hn. rewrite !app_nil_l in Hcp, Hn.
  set (F1 := free_points_for "te_1" fpt') in *.
  set (F2 := free_points_for "le" fpt') in *.
  exists a1, a2.
  rewrite C1, C2, C4, R3, R4, !R2.
  split; [reflexivity |]. split; [exact Hte1 |]. split; [reflexivity |].
  split; [exact Hte2 |].
  split; [reflexivity |]. split; [reflexivity |]. split; [reflexivity |].
  rewrite Hcp, Hn.
  split; [rewrite length_map; reflexivity |].
  split; [rewrite length_map; cbn [length];
          repeat (rewrite length_app; cbn [length]); lia |].
  rewrite !list_lookup_fmap.
  split; [reflexivity |].
  split.
  - pose proof (list_lookup_middle
                  (a1 :: gp_te1 :: F1 ++ [g2m; le_g1_minus b'])
                  (le_g1_plus b' :: g2p :: (F2 ++ [gm_te2]) ++ [a2])
                  (f0, f0) (4 + length F1)) as Hmid.
    cbn [app] in Hmid. rewrite Hmid; [reflexivity |].
    repeat first [rewrite length_app | progress cbn [length]]. lia.
  - pose proof (list_lookup_middle
                  ((a1 :: gp_te1 :: F1 ++ [g2m; le_g1_minus b'])
                   ++ (f0, f0) :: le_g1_plus b' :: g2p :: (F2 ++ [gm_te2]))
                  [] a2 (4 + length F1 + (4 + length F2))) as Hmid.
    rewrite <- app_assoc in Hmid. cbn [app] in Hmid.
    rewrite Hmid; [reflexivity |].
    repeat first [rewrite length_app | progress cbn [length]]. lia.
Qed.

End AnchorFree.

Lemma anchor_free_airfoil_segments_witness :
  exists af,
    Airfoil_init 3 unscaled_descriptor [] [bump] None = inr af
    /\ length (control_points af)
       = ((4 + length (free_points_for "te_1" (free_point_tuple af)))
          + (4 + length (free_points_for "le" (free_point_tuple af))) + 1)%nat.
Proof.
  assert (E : Airfoil_init 3 unscaled_descriptor [] [bump] None
              = inr (built (Airfoil_init 3 unscaled_descriptor [] [bump] None)
                       blank_airfoil))
    by (vm_compute; reflexivity).
  eexists. split; [exact E |].
  destruct (anchor_free_airfoil_segments _ _ _ _ _ E)
    as (a1 & a2 & _ & _ & _ & _ & _ & _ & _ & _ & Hlen & _).
  exact Hlen.
Defined.

Lemma update_keeps_the_anchors_in_place_witness :
  exists s',
    update unscaled_airfoil = inr s'
    /\ "le" ∈ anchor_point_order s'
    /\ anchor_points s' !! "le" = anchor_points unscaled_airfoil !! "le".
Proof.
  assert (E : update unscaled_airfoil
              = inr (built (update unscaled_airfoil) blank_airfoil))
    by (vm_compute; reflexivity).
  assert (Hk : "le" ∈ anchor_point_order unscaled_airfoil).
  { assert (Ho : anchor_point_order unscaled_airfoil
                 = ["te_1"; "le"; "lower"; "te_2"]) by (vm_compute; reflexivity).
    rewrite Ho. apply list_elem_of_In. simpl. tauto. }
  destruct (update_keeps_the_anchors_in_place _ _ "le" E Hk) as (H1 & H2 & _).
  eexists. split; [exact E |]. split; [exact H1 | exact H2].
Defined.

Lemma constructed_leading_edge_witness :
  anchor_points unscaled_airfoil !! "le" = Some (0, 0)%float
  /\ is_Some (g2_minus_points unscaled_airfoil !! "le").
Proof.
  assert (E : Airfoil_init 3 unscaled_descriptor [lower] [bump] None
              = inr unscaled_airfoil) by (vm_compute; reflexivity).
  destruct (constructed_leading_edge _ _ _ _ _ _ E) as (H1 & _ & _ & H4 & _).
  split; [exact H1 | exact H4].
Defined.

(** * Sampling commutes with rigid motions of the control polygon *)

Section AffineInvariance.

Local Open Scope R_scope.

Lemma fold_left_shift (g : nat -> R) (l : list nat) (a : R) :
  fold_left (fun a i => fadd (F := R) a (g i)) l a
  = a + fold_left (fun a i => fadd (F := R) a (g i)) l 0.
Proof.
  revert a. induction l as [| i l IH]; intros a; cbn [fold_left].
  - ring.
  - rewrite IH, (IH (fadd 0 (g i))). cbn. ring.
Qed.

(** A weighted sum of Bernstein terms is linear in the weights. *)
Lemma bernstein_sum_linear (alpha beta delta : R) (c1 c2 c3 : nat -> R)
  (n : nat) (t : R) (l : list nat) :
  (forall i, In i l -> c3 i = alpha * c1 i + beta * c2 i + delta) ->
  fold_left
    (fun a i => fadd (F := R) a (term (c3 i * nCr (n - 1) i)%fl i (n - 1 - i) t))
    l 0
  = alpha * fold_left
              (fun a i =>
                 fadd (F := R) a (term (c1 i * nCr (n - 1) i)%fl i (n - 1 - i) t))
              l 0
    + beta * fold_left
               (fun a i =>
                  fadd (F := R) a (term (c2 i * nCr (n - 1) i)%fl i (n - 1 - i) t))
               l 0
    + delta * fold_left
                (fun a i =>
                   fadd (F := R) a (term (f1 * nCr (n - 1) i)%fl i (n - 1 - i) t))
                l 0.
Proof.
  induction l as [| i l IH]; intros Hc; cbn [fold_left]; [ring |].
  rewrite (fold_left_shift
             (fun i => term (c3 i * nCr (n - 1) i)%fl i (n - 1 - i) t)).
  rewrite (fold_left_shift
             (fun i => term (c1 i * nCr (n - 1) i)%fl i (n - 1 - i) t)).
  rewrite (fold_left_shift
             (fun i => term (c2 i * nCr (n - 1) i)%fl i (n - 1 - i) t)).
  rewrite (fold_left_shift
             (fun i => term (f1 * nCr (n - 1) i)%fl i (n - 1 - i) t)).
  rewrite (IH (fun j Hj => Hc j (or_intror Hj))).
  rewrite (Hc i (or_introl eq_refl)).
  unfold term. cbn. ring.
Qed.

(** The Bernstein terms of one degree sum to one. *)
Lemma fold_left_seq_sum (g : nat -> R) (m : nat) :
  fold_left (fun a i => fadd (F := R) a (g i)) (seq 0 (S m)) 0 = sum_f_R0 g m.
Proof.
  induction m as [| m IH].
  - cbn. ring.
  - rewrite seq_S, fold_left_app, IH. cbn. reflexivity.
Qed.

Lemma bernstein_partition (n : nat) (t : R) :
  fold_left
    (fun a i =>
       fadd (F := R) a (term (f1 * nCr (S n - 1) i)%fl i (S n - 1 - i) t))
    (seq 0 (S n)) 0
  = 1.
Proof.
  rewrite fold_left_seq_sum.
  replace 1 with ((t + (1 - t)) ^ n)
    by (replace (t + (1 - t)) with 1 by ring; apply pow1).
  rewrite binomial. apply sum_eq. intros i Hi.
  unfold term, nCr, C. cbn [f1 fmul fdiv fsub of_Z Rideal].
  rewrite !powi_R, !INR_IZR_INZ.
  replace (S n - 1)%nat with n by lia.
  pose proof (fact_IZR_neq_0 n). pose proof (fact_IZR_neq_0 i).
  pose proof (fact_IZR_neq_0 (n - i)).
  field. auto.
Qed.

Lemma position_at_affine (alpha beta delta : R) (col1 col2 col3 : list R)
  (n : nat) (t : R) :
  (forall i, (i < S n)%nat ->
     nth i col3 0 = alpha * nth i col1 0 + beta * nth i col2 0 + delta) ->
  position_at (F := R) col3 (S n) t
  = alpha * position_at (F := R) col1 (S n) t
    + beta * position_at (F := R) col2 (S n) t + delta.
Proof.
  intros Hnth. unfold position_at.
  rewrite (bernstein_sum_linear alpha beta delta
             (fun i => nth i col1 0) (fun i => nth i col2 0)
             (fun i => nth i col3 0)).
  - rewrite bernstein_partition. cbn. ring.
  - intros i Hi. apply in_seq in Hi. apply Hnth. lia.
Qed.

(** The samples of the curve of a polygon moved point by point. *)
Lemma bezier_samples_moved (P : list (R * R)) (n : nat)
  (a11 a12 a21 a22 dx dy : R) :
  P <> [] ->
  zip (C_x (bezier (map (fun p => (a11 * fst p + a12 * snd p + dx,
                                   a21 * fst p + a22 * snd p + dy)) P) n))
      (C_y (bezier (map (fun p => (a11 * fst p + a12 * snd p + dx,
                                   a21 * fst p + a22 * snd p + dy)) P) n))
  = map (fun p => (a11 * fst p + a12 * snd p + dx,
                   a21 * fst p + a22 * snd p + dy))
      (zip (C_x (bezier P n)) (C_y (bezier P n))).
Proof.
  intros Hne. rewrite !bezier_samples, (map_map _ _ (linspace01 n)), length_map.
  destruct (length P) as [| m] eqn:Hlen;
    [destruct P; [contradiction | discriminate] |].
  apply map_ext. intros t. cbn [fst snd].
  f_equal.
  - apply position_at_affine. intros i Hi.
    destruct (lookup_lt_is_Some_2 P i) as [p Hp]; [lia |].
    rewrite (nth_map_lookup fst P i p Hp), (nth_map_lookup snd P i p Hp).
    rewrite (nth_map_lookup fst _ i
               (a11 * fst p + a12 * snd p + dx, a21 * fst p + a22 * snd p + dy))
      by (rewrite list_lookup_fmap, Hp; reflexivity).
    reflexivity.
  - apply position_at_affine. intros i Hi.
    destruct (lookup_lt_is_Some_2 P i) as [p Hp]; [lia |].
    rewrite (nth_map_lookup fst P i p Hp), (nth_map_lookup snd P i p Hp).
    rewrite (nth_map_lookup snd _ i
               (a11 * fst p + a12 * snd p + dx, a21 * fst p + a22 * snd p + dy))
      by (rewrite list_lookup_fmap, Hp; reflexivity).
    reflexivity.
Qed.

(** X18: in exact arithmetic sampling commutes with the motions [rotate]
    and [translate] apply to the control points: the curve of the rotated
    control points is the rotated curve, and the curve of the translated
    control points is the translated curve, sample by sample. *)
Theorem sampling_commutes_with_rotate_and_translate (P : list (R * R))
  (n : nat) (angle dx dy : R) :
  P <> [] ->
  zip (C_x (bezier (map (rotate_point angle) P) n))
      (C_y (bezier (map (rotate_point angle) P) n))
  = map (rotate_point angle) (zip (C_x (bezier P n)) (C_y (bezier P n)))
  /\ zip (C_x (bezier (map (fun p => (fadd (fst p) dx, fadd (snd p) dy)) P) n))
         (C_y (bezier (map (fun p => (fadd (fst p) dx, fadd (snd p) dy)) P) n))
     = map (fun p => (fadd (fst p) dx, fadd (snd p) dy))
         (zip (C_x (bezier P n)) (C_y (bezier P n))).
Proof.
  intros Hne. split.
  - pose proof (bezier_samples_moved P n (cos angle) (- sin angle) (sin angle)
                  (cos angle) 0 0 Hne) as E.
    assert (Hrot : forall p : R * R,
               rotate_point angle p
               = (cos angle * fst p + - sin angle * snd p + 0,
                  sin angle * fst p + cos angle * snd p + 0))
      by (intros p; unfold rotate_point; cbn; f_equal; ring).
    rewrite !(map_ext _ _ Hrot). exact E.
  - pose proof (bezier_samples_moved P n 1 0 0 1 dx dy Hne) as E.
    assert (Hmove : forall p : R * R,
               (fadd (fst p) dx, fadd (snd p) dy)
               = (1 * fst p + 0 * snd p + dx, 0 * fst p + 1 * snd p + dy))
      by (intros p; cbn; f_equal; ring).
    rewrite !(map_ext _ _ Hmove). exact E.
Qed.

End AffineInvariance.

Lemma sampling_commutes_with_rotate_and_translate_witness :
  zip (C_x (bezier (map (rotate_point (PI / 2)%R) [(0, 0); (1, 2); (3, 1)]%R) 3))
      (C_y (bezier (map (rotate_point (PI / 2)%R) [(0, 0); (1, 2); (3, 1)]%R) 3))
  = map (rotate_point (PI / 2)%R)
      (zip (C_x (bezier [(0, 0); (1, 2); (3, 1)]%R 3))
           (C_y (bezier [(0, 0); (1, 2); (3, 1)]%R 3))).
Proof.
  refine (proj1 (sampling_commutes_with_rotate_and_translate
                   [(0, 0); (1, 2); (3, 1)]%R 3 (PI / 2)%R 0%R 0%R _)).
  discriminate.
Defined.
